(** * Vue3Vscroll: the cumulative-height index and the window computation

    A shallow embedding of the script of [src/Vue3Vscroll.vue]: the
    accumulator array [rowInfo], its point update, resize and query functions,
    and [redraw] with its hysteresis test; and of [updateRow] and
    [updateHeight] of the wrapper component [Vue3VscrollSimple], which answer
    the event that [redraw] emits.

    Conventions of the embedding.
    - A JavaScript Number that holds a pixel quantity is modelled twice.
      As a [num] it is an exact rational or [NaN]: rounding is left out, so
      a property that speaks of the value of a sum is stated for whole
      numbers of pixels ([px], [px_index], [px_list]), on which the
      arithmetic of binary64 is exact.  In [Dbl] it is a binary64 number
      with the rounded operations of [F64]; the hysteresis test, whose band
      edges are products with the hysteresis ratio, is stated there.
    - A JavaScript Number that holds a row index, a length or a bit mask is a
      [Z]; the bit operators [&] and [^] go through [ToInt32].
    - The reactive refs of the component are the fields of [State]; the props
      are the fields of [Props]; what [redraw] reads from the DOM is [Dom].
    - [while] loops are defined by well-founded recursion, so every function
      is total, as the loops of the source are.

    Results.
    - The structure documented at [rowInfo] ([acc_ok]) is built by
      [updateAll] and kept by [update1] at a row of the index, by truncation
      and by [redraw]; on it [getRowTop] is the direct sum of the heights and
      [getRowIdx] locates the row of an offset, the last one of a run of rows
      of height 0.
    - The growing branch of [update] breaks the structure, and with it
      [getRowTop] and [getRowIdx].
    - [redraw] leaves the window alone exactly when both candidate indices
      are the current ones; the hysteresis test compares the cached
      boundary positions with bands around the current padded offsets, the
      edges being the Numbers that the script computes; a boundary kept by
      its band is not clamped to a list that has shrunk.
    - On Numbers that are not whole, [update1] stores the old height plus
      the rounded difference, and [getRowIdx] can stop one row short of a
      row top.
    - Whatever happens to the list, the cells of [rowInfo] stay finite
      numbers and 0 <= startIdx <= endIdx; while the list is not shorter than
      the window, the window stays within the list, [vlist] is the slice of
      the list at the window, and the wrapper's [updateHeight] on the emitted
      range returns and feeds the rendered heights into the index at the
      next [update]. *)

From Equations Require Import Equations.
From Stdlib Require Import ZArith QArith Qabs List Bool Lia Lqa Floats.
Import ListNotations.

Local Open Scope Z_scope.

(** ** JavaScript numbers *)

Inductive num : Type :=
| Fin (q : Q)
| NaN.

(** An array of numbers is the list of its elements.  A hole, and an index
    outside the array, read as [undefined]; every use of an element of
    [rowInfo] is arithmetic or a comparison, where [undefined] behaves as NaN,
    so a hole is stored as [NaN]. *)
Definition array := list num.

Module JS.

Definition add (a b : num) : num :=
  match a, b with
  | Fin x, Fin y => Fin (x + y)%Q
  | _, _ => NaN
  end.

Definition sub (a b : num) : num :=
  match a, b with
  | Fin x, Fin y => Fin (x - y)%Q
  | _, _ => NaN
  end.

Definition mul (a b : num) : num :=
  match a, b with
  | Fin x, Fin y => Fin (x * y)%Q
  | _, _ => NaN
  end.

(** unary minus *)
Definition neg (a : num) : num :=
  match a with
  | Fin x => Fin (- x)%Q
  | NaN => NaN
  end.

(** [a < b]; every comparison with NaN is false *)
Definition lt (a b : num) : bool :=
  match a, b with
  | Fin x, Fin y => negb (Qle_bool y x)
  | _, _ => false
  end.

(** [a > b] *)
Definition gt (a b : num) : bool := lt b a.

(** [a >= b] *)
Definition ge (a b : num) : bool :=
  match a, b with
  | Fin x, Fin y => Qle_bool y x
  | _, _ => false
  end.

(** [a == 0] *)
Definition is_zero (a : num) : bool :=
  match a with
  | Fin x => Qeq_bool x 0
  | NaN => false
  end.

(** [Math.min(a, b)] and [Math.max(a, b)]: NaN when an argument is NaN *)
Definition min (a b : num) : num :=
  match a, b with
  | Fin x, Fin y => Fin (if Qle_bool x y then x else y)
  | _, _ => NaN
  end.

Definition max (a b : num) : num :=
  match a, b with
  | Fin x, Fin y => Fin (if Qle_bool x y then y else x)
  | _, _ => NaN
  end.

(** an integer-valued Number used in pixel arithmetic *)
Definition of_Z (z : Z) : num := Fin (inject_Z z).

(** [ToInt32], applied by [&] and [^] to their operands *)
Definition ToInt32 (z : Z) : Z :=
  let m := z mod 2 ^ 32 in
  if m >=? 2 ^ 31 then m - 2 ^ 32 else m.

Definition band (a b : Z) : Z := Z.land (ToInt32 a) (ToInt32 b).
Definition bxor (a b : Z) : Z := Z.lxor (ToInt32 a) (ToInt32 b).

(** *** Arrays *)

(** [a[i]] *)
Definition get (a : array) (i : Z) : num :=
  if i <? 0 then NaN else nth (Z.to_nat i) a NaN.

(** [a[i] = v]: inside the array the element is replaced; past its end the
    array is extended, the skipped positions being holes; a negative [i] is
    not an index and leaves the elements alone. *)
Definition set (a : array) (i : Z) (v : num) : array :=
  if i <? 0 then a
  else
    let n := Z.to_nat i in
    if (n <? length a)%nat then firstn n a ++ v :: skipn (S n) a
    else a ++ repeat NaN (n - length a) ++ [v].

(** [a[i] += d] *)
Definition add_at (a : array) (i : Z) (d : num) : array :=
  set a i (add (get a i) d).

(** [Array(n)]: [n] holes *)
Definition holes (n : Z) : array := repeat NaN (Z.to_nat n).

(** [Array(n).fill(0)] *)
Definition zeros (n : Z) : array := repeat (Fin 0) (Z.to_nat n).

(** [a.splice(n)] for [0 <= n], as a statement: only the first [n] elements
    stay *)
Definition splice (a : array) (n : Z) : array := firstn (Z.to_nat n) a.

(** [l.slice(s, e)] *)
Definition slice {A : Type} (l : list A) (s e : Z) : list A :=
  let len := Z.of_nat (length l) in
  let from := if s <? 0 then Z.max (len + s) 0 else Z.min s len in
  let to := if e <? 0 then Z.max (len + e) 0 else Z.min e len in
  firstn (Z.to_nat (to - from)) (skipn (Z.to_nat from) l).

(** the indices of [for (let ri = from; ri < to; ++ri)] *)
Definition range (from to : Z) : list Z :=
  map (fun k => from + Z.of_nat k) (seq 0 (Z.to_nat (to - from))).

End JS.

(** ** Props, DOM readings and the refs of the component *)

Record Row : Type := mkRow {
  key : Z;
  height : option Q   (* [row[heightAttrName]]; [None] when undefined *)
}.

Record Props : Type := mkProps {
  list : list Row;
  defaultHeight : Q;
  headerHeight : Q;
  footerHeight : Q;
  viewportHeight : option Q;
  padding : option Q;
  hysteresis : Q
}.

Record Dom : Type := mkDom {
  scrollTop : Q;      (* viewport.scrollTop *)
  viewportTop : Q;    (* viewport.getBoundingClientRect().y *)
  windowHeight : Q    (* window.innerHeight *)
}.

Record State : Type := mkState {
  rowInfo : array;
  listLength : Z;
  startIdx : Z;
  endIdx : Z;
  startTop : num;
  endTop : num;
  vlist : Datatypes.list Row;
  sheetStyle : option num;   (* [None] is [{}], [Some t] is translateY(t px) *)
  screenHeight : num;
  viewportHeight2 : num
}.

Definition init : State :=
  mkState [] 0 0 0 (Fin 0) (Fin 0) [] None (Fin 0) (Fin 0).

Definition with_index (st : State) (info : array) (len : Z) : State :=
  mkState info len (startIdx st) (endIdx st) (startTop st) (endTop st)
          (vlist st) (sheetStyle st) (screenHeight st) (viewportHeight2 st).

Definition with_rowInfo (st : State) (info : array) : State :=
  with_index st info (listLength st).

Definition with_heights (st : State) (sh vh : num) : State :=
  mkState (rowInfo st) (listLength st) (startIdx st) (endIdx st)
          (startTop st) (endTop st) (vlist st) (sheetStyle st) sh vh.

(** the emitted events *)
Inductive Event : Type :=
| UpdateHeight (from to : Z).

(** [defaultPaddingRatio] *)
Definition defaultPaddingRatio : Q := 1 # 2.

(** ** The height index *)

(** [bpt]: the biggest power of two which is less than or equal to
    [listLength]; [Math.log2(0)] is -Infinity and [Math.pow(2, -Infinity)]
    is 0. *)
Definition bpt (st : State) : Z :=
  if listLength st <=? 0 then 0 else 2 ^ Z.log2 (listLength st).

(** [list[rowIdx]?.[heightAttrName] ?? defaultHeight] *)
Definition rowHeight (p : Props) (rowIdx : Z) : num :=
  if rowIdx <? 0 then Fin (defaultHeight p)
  else
    match nth_error (list p) (Z.to_nat rowIdx) with
    | Some r =>
        match height r with
        | Some h => Fin h
        | None => Fin (defaultHeight p)
        end
    | None => Fin (defaultHeight p)
    end.

(** the [while (bit < len)] loop of [update1]; [bit] is 1 doubled *)
Equations? update1_loop (len : Z) (diff : num) (bit : positive) (ri : Z)
  (info : array) : array by wf (Z.to_nat (len - Z.pos bit)) lt :=
  update1_loop len diff bit ri info with Z_lt_dec (Z.pos bit) len := {
    | left _ =>
        if JS.band ri (Z.pos bit) =? 0 then
          if ri + Z.pos bit >=? len then info
          else update1_loop len diff (bit~0) (ri + Z.pos bit)
                 (JS.add_at info ((ri + Z.pos bit) * 2 + 1) diff)
        else update1_loop len diff (bit~0) ri info
    | right _ => info }.
Proof. all: lia. Qed.

(** update rowInfo so that h(rowIdx) = newHeight *)
Definition update1 (p : Props) (st : State) (rowIdx : Z) : State :=
  let newHeight := rowHeight p rowIdx in
  let info := rowInfo st in
  let len := listLength st in
  let diff := JS.sub newHeight (JS.get info (rowIdx * 2)) in
  if JS.is_zero diff then st
  else
    let info := JS.add_at info (rowIdx * 2) diff in
    let info := JS.add_at info (rowIdx * 2 + 1) diff in
    with_rowInfo st (update1_loop len diff 1 rowIdx info).

(** update rowInfo accessing list[ri].height value in range ri=[from, to) *)
Definition updateRange (p : Props) (st : State) (from to : Z) : State :=
  let to := if to >? listLength st then listLength st else to in
  fold_left (update1 p) (JS.range from to) st.

(** the body of the [for] loop of [updateAll] *)
Definition fillRow (dh : num) (info : array) (ri : Z) : array :=
  let s := (JS.bxor ri (ri + 1) + 1) / 2 in
  let info := JS.set info (ri * 2) dh in
  JS.set info (ri * 2 + 1) (JS.mul dh (JS.of_Z s)).

(** special version of updateRange, used only when the initialization. *)
Definition updateAll (p : Props) (st : State) : State :=
  let len := Z.of_nat (length (list p)) in
  let dh := Fin (defaultHeight p) in
  with_index st (fold_left (fillRow dh) (JS.range 0 len) (JS.holes (len * 2)))
             len.

(** update rowInfo according to the current value of list *)
Definition update (p : Props) (st : State) : State :=
  let len := Z.of_nat (length (list p)) in
  let oldLen := listLength st in
  let st :=
    if oldLen =? 0 then updateAll p st
    else if len <? oldLen then with_index st (JS.splice (rowInfo st) (len * 2)) len
    else if len >? oldLen then
      let st := with_index st (rowInfo st ++ JS.zeros ((len - oldLen) * 2)) len in
      updateRange p st oldLen len
    else st in
  updateRange p st (startIdx st) (endIdx st).

(** the [while (bit <= upto)] loop of [getRowTop] *)
Equations? getRowTop_loop (info : array) (upto : Z) (bit : positive) (ri : Z)
  (sum : num) : num by wf (Z.to_nat (upto + 1 - Z.pos bit)) lt :=
  getRowTop_loop info upto bit ri sum with Z_le_dec (Z.pos bit) upto := {
    | left _ =>
        if negb (JS.band ri (Z.pos bit) =? 0) then
          getRowTop_loop info upto (bit~0) (ri - Z.pos bit)
            (JS.add sum (JS.get info (ri * 2 - 1)))
        else getRowTop_loop info upto (bit~0) ri sum
    | right _ => sum }.
Proof. all: lia. Qed.

(** calculate h(0)+h(1)+...+h(ri-1) *)
Definition getRowTop (st : State) (rowIdx : Z) : num :=
  let info := rowInfo st in
  let upto := Z.min rowIdx (listLength st) in
  getRowTop_loop info upto 1 rowIdx (Fin 0).

(** the [while (bit >= 1)] loop of [getRowIdx].  [bit] starts at [bpt], a
    power of two or 0, so [bit /= 2] is exact down to 1, and the 0.5 that
    follows ends the loop as the 0 of the integer division does. *)
Equations? getRowIdx_loop (info : array) (bit : Z) (ri : Z) (rest : num) : Z
  by wf (Z.to_nat bit) lt :=
  getRowIdx_loop info bit ri rest with Z_le_dec 1 bit := {
    | left _ =>
        let h := JS.get info ((ri + bit) * 2 - 1) in
        if JS.ge rest h then
          getRowIdx_loop info (bit / 2) (ri + bit) (JS.sub rest h)
        else getRowIdx_loop info (bit / 2) ri rest
    | right _ => ri }.
Proof. all: apply Z2Nat.inj_lt; try lia; try (apply Z.div_pos; lia); apply Z.div_lt; lia. Qed.

(** find ri where getRowTop(ri) <= rowTop < getRowTop(ri+1) *)
Definition getRowIdx (st : State) (rowTop : num) : Z :=
  if JS.lt rowTop (Fin 0) then -1
  else getRowIdx_loop (rowInfo st) (bpt st) 0 rowTop.

(** calculate h(0)+h(1)+...+h(list.length-1) *)
Definition getTotalRowHeight (st : State) : num :=
  getRowTop st (listLength st).

(** get first index of the visible portion of list *)
Definition getStartIdx (p : Props) (st : State) (topOffset padding2 : num) : Z :=
  let hy := Fin (hysteresis p) in
  let paddedTop1 := JS.sub topOffset (JS.mul padding2 (JS.add (Fin 1) hy)) in
  let paddedTop2 := JS.sub topOffset (JS.mul padding2 (JS.sub (Fin 1) hy)) in
  if JS.lt (startTop st) paddedTop1 || JS.gt (startTop st) paddedTop2 then
    Z.max 0 (getRowIdx st (JS.sub topOffset padding2))
  else startIdx st.

(** get last index+1 of the visible portion of list *)
Definition getEndIdx (p : Props) (st : State) (bottomOffset padding2 : num) : Z :=
  let hy := Fin (hysteresis p) in
  let paddedBottom1 := JS.add bottomOffset (JS.mul padding2 (JS.sub (Fin 1) hy)) in
  let paddedBottom2 := JS.add bottomOffset (JS.mul padding2 (JS.add (Fin 1) hy)) in
  if JS.lt (endTop st) paddedBottom1 || JS.gt (endTop st) paddedBottom2 then
    let len := listLength st in
    Z.min len (getRowIdx st (JS.add bottomOffset padding2) + 1)
  else endIdx st.

(** calculate visible portion of list and update vlist.  The result is the
    new state and the events handed to [nextTick]. *)
Definition redraw (p : Props) (d : Dom) (st : State)
  : State * Datatypes.list Event :=
  let st := update p st in
  let scrollTop := Fin (scrollTop d) in
  let viewportTop := Fin (viewportTop d) in
  let windowHeight := Fin (windowHeight d) in
  let screenHeight :=
    JS.add (JS.add (Fin (headerHeight p)) (getTotalRowHeight st))
           (Fin (footerHeight p)) in
  let viewportHeight2 :=
    match viewportHeight p with
    | None => screenHeight
    | Some v => Fin v
    end in
  let st := with_heights st screenHeight viewportHeight2 in
  let padding2 :=
    match padding p with
    | None => JS.mul (JS.min windowHeight viewportHeight2)
                     (Fin defaultPaddingRatio)
    | Some x => Fin x
    end in
  let visibleViewportTop := JS.max (Fin 0) (JS.neg viewportTop) in
  let topOffset :=
    JS.sub (JS.add scrollTop visibleViewportTop) (Fin (headerHeight p)) in
  let newStartIdx := getStartIdx p st topOffset padding2 in
  let visibleViewportHeight :=
    JS.min viewportHeight2 (JS.sub windowHeight viewportTop) in
  let bottomOffset :=
    JS.sub (JS.add scrollTop visibleViewportHeight) (Fin (headerHeight p)) in
  let newEndIdx := Z.max newStartIdx (getEndIdx p st bottomOffset padding2) in
  if negb (newStartIdx =? startIdx st) || negb (newEndIdx =? endIdx st) then
    let top := getRowTop st newStartIdx in
    (mkState (rowInfo st) (listLength st) newStartIdx newEndIdx
             top (getRowTop st newEndIdx)
             (JS.slice (list p) newStartIdx newEndIdx) (Some top)
             screenHeight viewportHeight2,
     [UpdateHeight newStartIdx newEndIdx])
  else (st, []).

(** *** The parts of [redraw], by name *)

(** [screenHeight], [viewportHeight2], [padding2], [topOffset] and
    [bottomOffset], from the props, the DOM readings and the index *)
Definition screenHeight_of (p : Props) (st : State) : num :=
  JS.add (JS.add (Fin (headerHeight p)) (getTotalRowHeight st))
         (Fin (footerHeight p)).

Definition viewportHeight2_of (p : Props) (st : State) : num :=
  match viewportHeight p with
  | None => screenHeight_of p st
  | Some v => Fin v
  end.

Definition padding2_of (p : Props) (d : Dom) (st : State) : num :=
  match padding p with
  | None => JS.mul (JS.min (Fin (windowHeight d)) (viewportHeight2_of p st))
                   (Fin defaultPaddingRatio)
  | Some x => Fin x
  end.

Definition topOffset_of (p : Props) (d : Dom) : num :=
  let visibleViewportTop := JS.max (Fin 0) (JS.neg (Fin (viewportTop d))) in
  JS.sub (JS.add (Fin (scrollTop d)) visibleViewportTop) (Fin (headerHeight p)).

Definition bottomOffset_of (p : Props) (d : Dom) (st : State) : num :=
  let visibleViewportHeight :=
    JS.min (viewportHeight2_of p st)
           (JS.sub (Fin (windowHeight d)) (Fin (viewportTop d))) in
  JS.sub (JS.add (Fin (scrollTop d)) visibleViewportHeight)
         (Fin (headerHeight p)).

(** the state after the first statements of [redraw]: [update()], then
    [screenHeight] and [viewportHeight2] are set *)
Definition sync (p : Props) (st : State) : State :=
  let st := update p st in
  with_heights st (screenHeight_of p st) (viewportHeight2_of p st).

(** [newStartIdx] and [newEndIdx], computed on that state *)
Definition newStartIdx_of (p : Props) (d : Dom) (st : State) : Z :=
  getStartIdx p st (topOffset_of p d) (padding2_of p d st).

Definition newEndIdx_of (p : Props) (d : Dom) (st : State) : Z :=
  Z.max (newStartIdx_of p d st)
        (getEndIdx p st (bottomOffset_of p d st) (padding2_of p d st)).

(** ** Specification-level notions *)

(** the stored height h(i), read from [rowInfo[2i]] *)
Definition cellQ (c : num) : Q :=
  match c with
  | Fin q => q
  | NaN => 0%Q
  end.

Definition heightAt (info : array) (i : Z) : Q := cellQ (JS.get info (i * 2)).

(** the direct sum h(0)+...+h(k-1), recomputed from the stored heights *)
Fixpoint prefixN (info : array) (n : nat) : Q :=
  match n with
  | O => 0%Q
  | S m => (prefixN info m + heightAt info (Z.of_nat m))%Q
  end.

Definition prefixSum (info : array) (k : Z) : Q := prefixN info (Z.to_nat k).

(** a number that is finite and equal to a rational *)
Definition is_fin (a : num) (q : Q) : Prop :=
  match a with
  | Fin x => (x == q)%Q
  | NaN => False
  end.

(** the largest power of two dividing a positive number *)
Fixpoint lowbit_pos (p : positive) : positive :=
  match p with
  | xO q => xO (lowbit_pos q)
  | _ => xH
  end.

Definition lowbit (x : Z) : Z :=
  match x with
  | Z.pos p => Z.pos (lowbit_pos p)
  | _ => 0
  end.

(** the size s of the trailing block that [rowInfo[2i+1]] accumulates *)
Definition blockSize (i : Z) : Z := lowbit (i + 1).

(** the sum h(i-s+1)+...+h(i) of the trailing block ending at i *)
Definition blockSum (info : array) (i : Z) : Q :=
  (prefixSum info (i + 1) - prefixSum info (i + 1 - blockSize i))%Q.

(** row [r] lies in the trailing block that ends at row [k] *)
Definition covers (k r : Z) : bool :=
  (k + 1 - blockSize k <=? r) && (r <=? k).

(** the structure documented at [rowInfo]: length 2N, a finite height at
    every even position and the sum of its trailing block after it *)
Definition acc_ok (st : State) : Prop :=
  Z.of_nat (length (rowInfo st)) = 2 * listLength st /\
  forall i, 0 <= i < listLength st ->
    exists h a, JS.get (rowInfo st) (i * 2) = Fin h /\
                JS.get (rowInfo st) (i * 2 + 1) = Fin a /\
                (a == blockSum (rowInfo st) i)%Q.

(** the same, as a test that can be run on a concrete state *)
Definition acc_okb (st : State) : bool :=
  (Z.of_nat (length (rowInfo st)) =? 2 * listLength st) &&
  forallb (fun i =>
             match JS.get (rowInfo st) (i * 2),
                   JS.get (rowInfo st) (i * 2 + 1) with
             | Fin _, Fin a => Qeq_bool a (blockSum (rowInfo st) i)
             | _, _ => false
             end)
          (JS.range 0 (listLength st)).

(** what [getRowIdx] has to establish for offset [q]: row [i] starts at or
    before [q], and the next row, when there is one, starts after [q] *)
Definition located (st : State) (q : Q) (i : Z) : Prop :=
  (prefixSum (rowInfo st) i <= q)%Q /\
  (i < listLength st -> (q < prefixSum (rowInfo st) (i + 1))%Q).

(** no stored height is negative *)
Definition nonneg_heights (st : State) : Prop :=
  forall i, 0 <= i < listLength st -> (0 <= heightAt (rowInfo st) i)%Q.

Definition nonneg_heightsb (st : State) : bool :=
  forallb (fun i => Qle_bool 0 (heightAt (rowInfo st) i))
          (JS.range 0 (listLength st)).

(** a list that a JavaScript array of two cells per row can index *)
Definition fits (p : Props) : Prop := Z.of_nat (length (list p)) < 2 ^ 31.

(** the row of the list carries the height that the index stores: the test
    with which [update1] returns early *)
Definition row_synced (p : Props) (st : State) (ri : Z) : Prop :=
  JS.is_zero (JS.sub (rowHeight p ri) (JS.get (rowInfo st) (ri * 2))) = true.

(** the rows of the current window carry the heights that the index stores *)
Definition window_synced (p : Props) (st : State) : Prop :=
  forall ri, startIdx st <= ri < endIdx st -> ri < listLength st ->
             row_synced p st ri.

(** the states of the component: the initial refs, and what the functions
    that write the refs produce; a point update is issued for a row of the
    index *)
Inductive reachable : State -> Prop :=
| reach_init : reachable init
| reach_updateAll p st :
    reachable st -> fits p -> reachable (updateAll p st)
| reach_update p st :
    reachable st -> fits p -> reachable (update p st)
| reach_update1 p st i :
    reachable st -> 0 <= i < listLength st -> reachable (update1 p st i)
| reach_redraw p d st :
    reachable st -> fits p -> reachable (fst (redraw p d st)).

(** [update] with this list does not take its growing branch: the index is
    empty, or the list is no longer than the index *)
Definition no_growth (p : Props) (st : State) : Prop :=
  listLength st = 0 \/ Z.of_nat (length (list p)) <= listLength st.

(** the reachable states in which no [update] has taken the growing branch *)
Inductive reachable_without_growth : State -> Prop :=
| steady_init : reachable_without_growth init
| steady_updateAll p st :
    reachable_without_growth st -> fits p ->
    reachable_without_growth (updateAll p st)
| steady_update p st :
    reachable_without_growth st -> fits p -> no_growth p st ->
    reachable_without_growth (update p st)
| steady_update1 p st i :
    reachable_without_growth st -> 0 <= i < listLength st ->
    reachable_without_growth (update1 p st i)
| steady_redraw p d st :
    reachable_without_growth st -> fits p -> no_growth p st ->
    reachable_without_growth (fst (redraw p d st)).

(** ** Scenarios *)

(** [n] rows with keys 0..n-1 and no measured height *)
Definition rows (n : nat) : Datatypes.list Row :=
  map (fun k => mkRow (Z.of_nat k) None) (seq 0 n).

Module Grow.
(** one row of default height 20, then a second row is appended *)
Definition props1 : Props := mkProps (rows 1) 20 0 0 None None (1 # 2).
Definition props2 : Props := mkProps (rows 2) 20 0 0 None None (1 # 2).
Definition st1 : State := update props1 init.
Definition st2 : State := update props2 st1.
End Grow.

Module Scenario.
(** N=5, defaultHeight=20, padding=0, hysteresis=0, viewportHeight=40, no
    header, no footer; the viewport sits at the top of a browser window of
    height [w] *)
Definition props : Props := mkProps (rows 5) 20 0 0 (Some 40%Q) (Some 0%Q) 0.
(** the same list after row 0 has been measured at 50 *)
Definition props' : Props :=
  mkProps (mkRow 0 (Some 50%Q) :: tl (rows 5)) 20 0 0 (Some 40%Q) (Some 0%Q) 0.
Definition dom (top w : Q) : Dom := mkDom top 0 w.
Definition step1 (w : Q) := redraw props (dom 0 w) init.
Definition step2 (w : Q) := redraw props' (dom 0 w) (fst (step1 w)).
Definition step3 (w : Q) := redraw props' (dom 90 w) (fst (step2 w)).
End Scenario.

Module Shrink.
(** ten rows of height 20, padding 20, hysteresis 1/2, viewport 40; the
    view is scrolled to 120, then the list shrinks to three rows and
    [redraw] runs before the DOM has changed [scrollTop] *)
Definition props10 : Props :=
  mkProps (rows 10) 20 0 0 (Some 40%Q) (Some 20%Q) (1 # 2).
Definition props3 : Props :=
  mkProps (rows 3) 20 0 0 (Some 40%Q) (Some 20%Q) (1 # 2).
Definition dom : Dom := mkDom 120 0 1000.
Definition step1 := redraw props10 dom init.
Definition step2 := redraw props3 dom (fst step1).
End Shrink.

Module Thrash.
(** ten rows of height 100, padding 10, hysteresis 1/2, viewport 40; a
    redraw at scrollTop 109, then one at 110 *)
Definition props : Props :=
  mkProps (rows 10) 100 0 0 (Some 40%Q) (Some 10%Q) (1 # 2).
Definition dom (top : Q) : Dom := mkDom top 0 1000.
Definition step1 := redraw props (dom 109) init.
Definition step2 := redraw props (dom 110) (fst step1).
End Thrash.

Module Resize.
(** the index of the scenario after its second redraw (rows 50, 20, 20, 20,
    20, window [0,1)), three rows appended, then the list cut back *)
Definition st : State := fst (Scenario.step2 40).
Definition props8 : Props :=
  mkProps (mkRow 0 (Some 50%Q) :: tl (rows 8)) 20 0 0 (Some 40%Q) (Some 0%Q) 0.
Definition props5 : Props := Scenario.props'.
End Resize.

Module Pending.
(** five rows, row 0 already carrying the height 50: the first redraw builds
    the index by [updateAll], with 20 for every row, and makes [0,3) the
    window; then the same rows with three more appended, then the five rows
    again *)
Definition props5 : Props := Scenario.props'.
Definition props8 : Props :=
  mkProps (mkRow 0 (Some 50%Q) :: tl (rows 8)) 20 0 0 (Some 40%Q) (Some 0%Q) 0.
Definition st : State := fst (redraw props5 (Scenario.dom 0 40) init).
End Pending.

Module Flat.
(** four rows of heights 20, 0, 0, 30: the indices 1, 2 and 3 share the
    prefix sum 20 *)
Definition props : Props :=
  mkProps [mkRow 0 (Some 20%Q); mkRow 1 (Some 0%Q); mkRow 2 (Some 0%Q);
           mkRow 3 (Some 30%Q)] 20 0 0 None None (1 # 2).
Definition st : State := updateRange props (updateAll props init) 0 4.
End Flat.

Module Stale.
(** one row of height 20, and a point update issued for index 1 *)
Definition props : Props := mkProps (rows 1) 20 0 0 None None (1 # 2).
Definition st : State := update props init.
End Stale.

(** ** The wrapper component that measures the rows

    [Vue3VscrollSimple] renders the rows of [vlist], each in an element whose
    id is the row's key followed by the component's [uid], and answers the
    [updateHeight] event by reading the rendered heights back into the rows.
    The rows are the objects of [props.list], taken to be distinct objects,
    so writing a height is an update of the list at the index of the row. *)

Module Simple.

(** [document.getElementById(key + uid)?.getBoundingClientRect().height]:
    the rendered height of the element of a row, if it has one *)
Definition Rendered : Type := Z -> option Q.

(** [props.list] and the ref [redrawSignal] *)
Record Refs : Type := mkRefs {
  list : Datatypes.list Row;
  redrawSignal : Z
}.

(** what [updateRow] does to its row: [None] when it returns early (no
    element, or the height attribute already equals the rendered height),
    [Some row'] when it writes the height and increments [redrawSignal] *)
Definition updateRow (dom : Rendered) (row : Row) : option Row :=
  match dom (key row) with
  | None => None
  | Some newHeight =>
      match height row with
      | Some h =>
          if Qeq_bool h newHeight then None
          else Some (mkRow (key row) (Some newHeight))
      | None => Some (mkRow (key row) (Some newHeight))
      end
  end.

(** [props.list[rowIdx]]: undefined outside the list *)
Definition lookup (l : Datatypes.list Row) (rowIdx : Z) : option Row :=
  if rowIdx <? 0 then None else nth_error l (Z.to_nat rowIdx).

(** the list after the object at [rowIdx] has been written *)
Definition store (l : Datatypes.list Row) (rowIdx : Z) (row : Row)
  : Datatypes.list Row :=
  firstn (Z.to_nat rowIdx) l ++ row :: skipn (S (Z.to_nat rowIdx)) l.

(** how a call ends: normally, or with the TypeError of reading an attribute
    of [undefined]; the refs are as the call left them *)
Inductive Outcome : Type :=
| Returned (st : Refs)
| Thrown (st : Refs).

(** the [for] loop of [updateHeight] over its remaining indices *)
Fixpoint updateHeight_loop (dom : Rendered) (idxs : Datatypes.list Z)
  (st : Refs) : Outcome :=
  match idxs with
  | [] => Returned st
  | rowIdx :: rest =>
      match lookup (list st) rowIdx with
      | None => Thrown st
      | Some row =>
          match updateRow dom row with
          | None => updateHeight_loop dom rest st
          | Some row' =>
              updateHeight_loop dom rest
                (mkRefs (store (list st) rowIdx row') (redrawSignal st + 1))
          end
      end
  end.

Definition updateHeight (dom : Rendered) (st : Refs) (from to : Z) : Outcome :=
  updateHeight_loop dom (JS.range from to) st.

End Simple.

(** the props of [Vue3Vscroll] when the wrapper passes a list on *)
Definition with_list (p : Props) (l : Datatypes.list Row) : Props :=
  mkProps l (defaultHeight p) (headerHeight p) (footerHeight p)
          (viewportHeight p) (padding p) (hysteresis p).

(** ** Further notions *)

(** two cells per row, each a finite number: no hole and no NaN *)
Definition fin_index (st : State) : Prop :=
  Z.of_nat (length (rowInfo st)) = 2 * listLength st /\
  forall i, 0 <= i < 2 * listLength st ->
    exists q, JS.get (rowInfo st) i = Fin q.

Definition fin_indexb (st : State) : bool :=
  (Z.of_nat (length (rowInfo st)) =? 2 * listLength st) &&
  forallb (fun i => match JS.get (rowInfo st) i with
                    | Fin _ => true
                    | NaN => false
                    end)
          (JS.range 0 (2 * listLength st)).

(** every stored height is positive *)
Definition pos_heights (st : State) : Prop :=
  forall i, 0 <= i < listLength st -> (0 < heightAt (rowInfo st) i)%Q.

Definition pos_heightsb (st : State) : bool :=
  forallb (fun i => negb (Qle_bool (heightAt (rowInfo st) i) 0))
          (JS.range 0 (listLength st)).

(** the row after [updateRow] has run on it *)
Definition measured (dom : Simple.Rendered) (row : Row) : Row :=
  match Simple.updateRow dom row with
  | Some row' => row'
  | None => row
  end.

(** [updateRow] writes the row at index [i] of the list *)
Definition changes (dom : Simple.Rendered) (l : Datatypes.list Row) (i : Z)
  : bool :=
  match Simple.lookup l i with
  | Some row =>
      match Simple.updateRow dom row with
      | Some _ => true
      | None => false
      end
  | None => false
  end.

(** a run of [redraw]s, as the debounced [onRedraw] issues them one after
    the other, each with the props and the DOM readings of its moment; the
    emitted events are collected in order *)
Fixpoint redraws (steps : Datatypes.list (Props * Dom)) (st : State)
  : State * Datatypes.list Event :=
  match steps with
  | [] => (st, [])
  | (p, d) :: rest =>
      let r := redraw p d st in
      let r' := redraws rest (fst r) in
      (fst r', snd r ++ snd r')
  end.

(** ** Whole numbers of pixels

    The Numbers of the script are binary64 floating-point numbers, and
    their [+], [-] and [*] round; [num] computes with exact rationals.  The
    two agree wherever every Number that the script forms is represented
    exactly.  That is so when the row heights are whole numbers of at most
    2^20 in absolute value and the offsets whole numbers of at most 2^40:
    the index has fewer than 2^31 rows, so every sum and difference that
    the functions of the index form is then a whole number below 2^53.  The
    properties below that speak of the value of a sum carry these
    conditions. *)

(** a whole number of absolute value at most [B] *)
Definition whole_upto (B : Z) (a : num) : Prop :=
  match a with
  | Fin q => exists z, - B <= z <= B /\ (q == inject_Z z)%Q
  | NaN => False
  end.

Definition whole_uptob (B : Z) (a : num) : bool :=
  match a with
  | Fin q =>
      let z := Qnum q / Z.pos (Qden q) in
      (z * Z.pos (Qden q) =? Qnum q) && (- B <=? z) && (z <=? B)
  | NaN => false
  end.

(** a height: a whole number of pixels, at most 2^20 in absolute value *)
Definition px (a : num) : Prop := whole_upto (2 ^ 20) a.
Definition pxb (a : num) : bool := whole_uptob (2 ^ 20) a.

(** an offset: a whole number of pixels, at most 2^40 in absolute value *)
Definition px_offset (a : num) : Prop := whole_upto (2 ^ 40) a.

(** every stored height is a whole number of pixels *)
Definition px_index (st : State) : Prop :=
  forall i, 0 <= i < listLength st -> px (JS.get (rowInfo st) (i * 2)).

Definition px_indexb (st : State) : bool :=
  forallb (fun i => pxb (JS.get (rowInfo st) (i * 2)))
          (JS.range 0 (listLength st)).

(** the default height and every height that a row of the list carries are
    whole numbers of pixels *)
Definition px_list (p : Props) : Prop :=
  px (Fin (defaultHeight p)) /\
  forall row h, In row (list p) -> height row = Some h -> px (Fin h).

Definition px_listb (p : Props) : bool :=
  pxb (Fin (defaultHeight p)) &&
  forallb (fun row => match height row with
                      | Some h => pxb (Fin h)
                      | None => true
                      end)
          (list p).

(** every rendered height is a whole number of pixels *)
Definition px_rendered (dom : Simple.Rendered) : Prop :=
  forall k h, dom k = Some h -> px (Fin h).

(** the hysteresis ratio is a multiple of 1/1024 between 0 and 1, so that
    the edges of the bands are represented exactly as well *)
Definition dyadic_hysteresis (p : Props) : Prop :=
  exists m, 0 <= m <= 1024 /\ (hysteresis p == inject_Z m / 1024)%Q.

Module GrowFlat.
(** one row of height 20, then two rows are appended, of heights 0 and 30 *)
Definition props1 : Props := mkProps (rows 1) 20 0 0 None None (1 # 2).
Definition props3 : Props :=
  mkProps [mkRow 0 None; mkRow 1 (Some 0%Q); mkRow 2 (Some 30%Q)]
          20 0 0 None None (1 # 2).
Definition st1 : State := update props1 init.
Definition st3 : State := update props3 st1.
End GrowFlat.

(** * The script on the Numbers of JavaScript

    The same functions once more, with every pixel quantity a binary64
    floating-point number and every operation the rounded one: [F64] holds
    the operators, [Dbl] the refs and the functions of [Vue3Vscroll.vue],
    statement by statement as above.  Indices, lengths and bit masks stay
    integers: the script keeps them far below 2^53. *)

Module F64.

(** [a + b], [a - b], [a * b] and [-a] of Numbers: binary64, rounded to
    nearest, ties to even *)
Definition add (a b : float) : float := PrimFloat.add a b.
Definition sub (a b : float) : float := PrimFloat.sub a b.
Definition mul (a b : float) : float := PrimFloat.mul a b.
Definition neg (a : float) : float := PrimFloat.opp a.

(** [a < b], [a > b], [a >= b] and [a <= b]: false when an operand is NaN *)
Definition lt (a b : float) : bool := PrimFloat.ltb a b.
Definition gt (a b : float) : bool := PrimFloat.ltb b a.
Definition ge (a b : float) : bool := PrimFloat.leb b a.
Definition le (a b : float) : bool := PrimFloat.leb a b.

(** [a == 0]: true of both zeros, false of NaN *)
Definition is_zero (a : float) : bool := PrimFloat.eqb a PrimFloat.zero.

Definition is_negative_zero (a : float) : bool :=
  match PrimFloat.classify a with
  | NZero => true
  | _ => false
  end.

(** [Math.min(a, b)] and [Math.max(a, b)]: NaN when an argument is NaN; -0
    counts as less than +0 *)
Definition min (a b : float) : float :=
  if PrimFloat.is_nan a || PrimFloat.is_nan b then PrimFloat.nan
  else if PrimFloat.ltb a b then a
  else if PrimFloat.ltb b a then b
  else if is_negative_zero a then a else b.

Definition max (a b : float) : float :=
  if PrimFloat.is_nan a || PrimFloat.is_nan b then PrimFloat.nan
  else if PrimFloat.ltb a b then b
  else if PrimFloat.ltb b a then a
  else if is_negative_zero a then b else a.

(** an integer of the script (a block size, below 2^31) as a Number *)
Definition of_Z (z : Z) : float :=
  if z <? 0 then PrimFloat.opp (PrimFloat.of_uint63 (Uint63.of_Z (- z)))
  else PrimFloat.of_uint63 (Uint63.of_Z z).

(** arrays of Numbers.  A hole, or a position past the end, reads as
    [undefined]; the script only adds to it, subtracts it or compares with
    it, which gives NaN or false as NaN itself does: it is stored as NaN. *)
Definition get (a : Datatypes.list float) (i : Z) : float :=
  if i <? 0 then PrimFloat.nan else nth (Z.to_nat i) a PrimFloat.nan.

Definition set (a : Datatypes.list float) (i : Z) (v : float) : Datatypes.list float :=
  if i <? 0 then a
  else
    let n := Z.to_nat i in
    if (n <? length a)%nat then firstn n a ++ v :: skipn (S n) a
    else a ++ repeat PrimFloat.nan (n - length a) ++ [v].

Definition add_at (a : Datatypes.list float) (i : Z) (d : float) : Datatypes.list float :=
  set a i (add (get a i) d).

Definition holes (n : Z) : Datatypes.list float := repeat PrimFloat.nan (Z.to_nat n).
Definition zeros (n : Z) : Datatypes.list float := repeat PrimFloat.zero (Z.to_nat n).
Definition splice (a : Datatypes.list float) (n : Z) : Datatypes.list float :=
  firstn (Z.to_nat n) a.

End F64.

Module Dbl.

Record Row : Type := mkRow {
  key : Z;
  height : option float   (* [row[heightAttrName]]; [None] when undefined *)
}.

Record Props : Type := mkProps {
  list : Datatypes.list Row;
  defaultHeight : float;
  headerHeight : float;
  footerHeight : float;
  viewportHeight : option float;
  padding : option float;
  hysteresis : float
}.

Record Dom : Type := mkDom {
  scrollTop : float;      (* viewport.scrollTop *)
  viewportTop : float;    (* viewport.getBoundingClientRect().y *)
  windowHeight : float    (* window.innerHeight *)
}.

Record State : Type := mkState {
  rowInfo : Datatypes.list float;
  listLength : Z;
  startIdx : Z;
  endIdx : Z;
  startTop : float;
  endTop : float;
  vlist : Datatypes.list Row;
  sheetStyle : option float;   (* [None] is [{}], [Some t] is translateY(t px) *)
  screenHeight : float;
  viewportHeight2 : float
}.

Definition init : State :=
  mkState [] 0 0 0 PrimFloat.zero PrimFloat.zero [] None
          PrimFloat.zero PrimFloat.zero.

Definition with_index (st : State) (info : Datatypes.list float) (len : Z)
  : State :=
  mkState info len (startIdx st) (endIdx st) (startTop st) (endTop st)
          (vlist st) (sheetStyle st) (screenHeight st) (viewportHeight2 st).

Definition with_rowInfo (st : State) (info : Datatypes.list float) : State :=
  with_index st info (listLength st).

Definition with_heights (st : State) (sh vh : float) : State :=
  mkState (rowInfo st) (listLength st) (startIdx st) (endIdx st)
          (startTop st) (endTop st) (vlist st) (sheetStyle st) sh vh.

(** [defaultPaddingRatio] *)
Definition defaultPaddingRatio : float := 0.5%float.

(** [bpt] *)
Definition bpt (st : State) : Z :=
  if listLength st <=? 0 then 0 else 2 ^ Z.log2 (listLength st).

(** [list[rowIdx]?.[heightAttrName] ?? defaultHeight] *)
Definition rowHeight (p : Props) (rowIdx : Z) : float :=
  if rowIdx <? 0 then defaultHeight p
  else
    match nth_error (list p) (Z.to_nat rowIdx) with
    | Some r =>
        match height r with
        | Some h => h
        | None => defaultHeight p
        end
    | None => defaultHeight p
    end.

(** the [while (bit < len)] loop of [update1] *)
Equations? update1_loop (len : Z) (diff : float) (bit : positive) (ri : Z)
  (info : Datatypes.list float) : Datatypes.list float
  by wf (Z.to_nat (len - Z.pos bit)) lt :=
  update1_loop len diff bit ri info with Z_lt_dec (Z.pos bit) len := {
    | left _ =>
        if JS.band ri (Z.pos bit) =? 0 then
          if ri + Z.pos bit >=? len then info
          else update1_loop len diff (bit~0) (ri + Z.pos bit)
                 (F64.add_at info ((ri + Z.pos bit) * 2 + 1) diff)
        else update1_loop len diff (bit~0) ri info
    | right _ => info }.
Proof. all: lia. Qed.

(** update rowInfo so that h(rowIdx) = newHeight *)
Definition update1 (p : Props) (st : State) (rowIdx : Z) : State :=
  let newHeight := rowHeight p rowIdx in
  let info := rowInfo st in
  let len := listLength st in
  let diff := F64.sub newHeight (F64.get info (rowIdx * 2)) in
  if F64.is_zero diff then st
  else
    let info := F64.add_at info (rowIdx * 2) diff in
    let info := F64.add_at info (rowIdx * 2 + 1) diff in
    with_rowInfo st (update1_loop len diff 1 rowIdx info).

(** update rowInfo accessing list[ri].height value in range ri=[from, to) *)
Definition updateRange (p : Props) (st : State) (from to : Z) : State :=
  let to := if to >? listLength st then listLength st else to in
  fold_left (update1 p) (JS.range from to) st.

(** the body of the [for] loop of [updateAll] *)
Definition fillRow (dh : float) (info : Datatypes.list float) (ri : Z)
  : Datatypes.list float :=
  let s := (JS.bxor ri (ri + 1) + 1) / 2 in
  let info := F64.set info (ri * 2) dh in
  F64.set info (ri * 2 + 1) (F64.mul dh (F64.of_Z s)).

(** special version of updateRange, used only when the initialization. *)
Definition updateAll (p : Props) (st : State) : State :=
  let len := Z.of_nat (length (list p)) in
  let dh := defaultHeight p in
  with_index st (fold_left (fillRow dh) (JS.range 0 len) (F64.holes (len * 2)))
             len.

(** update rowInfo according to the current value of list *)
Definition update (p : Props) (st : State) : State :=
  let len := Z.of_nat (length (list p)) in
  let oldLen := listLength st in
  let st :=
    if oldLen =? 0 then updateAll p st
    else if len <? oldLen then
      with_index st (F64.splice (rowInfo st) (len * 2)) len
    else if len >? oldLen then
      let st :=
        with_index st (rowInfo st ++ F64.zeros ((len - oldLen) * 2)) len in
      updateRange p st oldLen len
    else st in
  updateRange p st (startIdx st) (endIdx st).

(** the [while (bit <= upto)] loop of [getRowTop] *)
Equations? getRowTop_loop (info : Datatypes.list float) (upto : Z)
  (bit : positive) (ri : Z) (sum : float) : float
  by wf (Z.to_nat (upto + 1 - Z.pos bit)) lt :=
  getRowTop_loop info upto bit ri sum with Z_le_dec (Z.pos bit) upto := {
    | left _ =>
        if negb (JS.band ri (Z.pos bit) =? 0) then
          getRowTop_loop info upto (bit~0) (ri - Z.pos bit)
            (F64.add sum (F64.get info (ri * 2 - 1)))
        else getRowTop_loop info upto (bit~0) ri sum
    | right _ => sum }.
Proof. all: lia. Qed.

(** calculate h(0)+h(1)+...+h(ri-1) *)
Definition getRowTop (st : State) (rowIdx : Z) : float :=
  let info := rowInfo st in
  let upto := Z.min rowIdx (listLength st) in
  getRowTop_loop info upto 1 rowIdx PrimFloat.zero.

(** the [while (bit >= 1)] loop of [getRowIdx] *)
Equations? getRowIdx_loop (info : Datatypes.list float) (bit : Z) (ri : Z)
  (rest : float) : Z by wf (Z.to_nat bit) lt :=
  getRowIdx_loop info bit ri rest with Z_le_dec 1 bit := {
    | left _ =>
        let h := F64.get info ((ri + bit) * 2 - 1) in
        if F64.ge rest h then
          getRowIdx_loop info (bit / 2) (ri + bit) (F64.sub rest h)
        else getRowIdx_loop info (bit / 2) ri rest
    | right _ => ri }.
Proof. all: apply Z2Nat.inj_lt; try lia; try (apply Z.div_pos; lia); apply Z.div_lt; lia. Qed.

(** find ri where getRowTop(ri) <= rowTop < getRowTop(ri+1) *)
Definition getRowIdx (st : State) (rowTop : float) : Z :=
  if F64.lt rowTop PrimFloat.zero then -1
  else getRowIdx_loop (rowInfo st) (bpt st) 0 rowTop.

(** calculate h(0)+h(1)+...+h(list.length-1) *)
Definition getTotalRowHeight (st : State) : float :=
  getRowTop st (listLength st).

(** [paddedTop1], [paddedTop2], [paddedBottom1] and [paddedBottom2]: the
    edges of the two hysteresis bands, as the script computes them *)
Definition paddedTop1 (p : Props) (topOffset padding2 : float) : float :=
  F64.sub topOffset (F64.mul padding2 (F64.add PrimFloat.one (hysteresis p))).

Definition paddedTop2 (p : Props) (topOffset padding2 : float) : float :=
  F64.sub topOffset (F64.mul padding2 (F64.sub PrimFloat.one (hysteresis p))).

Definition paddedBottom1 (p : Props) (bottomOffset padding2 : float) : float :=
  F64.add bottomOffset
          (F64.mul padding2 (F64.sub PrimFloat.one (hysteresis p))).

Definition paddedBottom2 (p : Props) (bottomOffset padding2 : float) : float :=
  F64.add bottomOffset
          (F64.mul padding2 (F64.add PrimFloat.one (hysteresis p))).

(** get first index of the visible portion of list *)
Definition getStartIdx (p : Props) (st : State) (topOffset padding2 : float)
  : Z :=
  if F64.lt (startTop st) (paddedTop1 p topOffset padding2)
     || F64.gt (startTop st) (paddedTop2 p topOffset padding2) then
    Z.max 0 (getRowIdx st (F64.sub topOffset padding2))
  else startIdx st.

(** get last index+1 of the visible portion of list *)
Definition getEndIdx (p : Props) (st : State) (bottomOffset padding2 : float)
  : Z :=
  if F64.lt (endTop st) (paddedBottom1 p bottomOffset padding2)
     || F64.gt (endTop st) (paddedBottom2 p bottomOffset padding2) then
    let len := listLength st in
    Z.min len (getRowIdx st (F64.add bottomOffset padding2) + 1)
  else endIdx st.

(** calculate visible portion of list and update vlist *)
Definition redraw (p : Props) (d : Dom) (st : State)
  : State * Datatypes.list Event :=
  let st := update p st in
  let scrollTop := scrollTop d in
  let viewportTop := viewportTop d in
  let windowHeight := windowHeight d in
  let screenHeight :=
    F64.add (F64.add (headerHeight p) (getTotalRowHeight st))
            (footerHeight p) in
  let viewportHeight2 :=
    match viewportHeight p with
    | None => screenHeight
    | Some v => v
    end in
  let st := with_heights st screenHeight viewportHeight2 in
  let padding2 :=
    match padding p with
    | None => F64.mul (F64.min windowHeight viewportHeight2)
                      defaultPaddingRatio
    | Some x => x
    end in
  let visibleViewportTop := F64.max PrimFloat.zero (F64.neg viewportTop) in
  let topOffset :=
    F64.sub (F64.add scrollTop visibleViewportTop) (headerHeight p) in
  let newStartIdx := getStartIdx p st topOffset padding2 in
  let visibleViewportHeight :=
    F64.min viewportHeight2 (F64.sub windowHeight viewportTop) in
  let bottomOffset :=
    F64.sub (F64.add scrollTop visibleViewportHeight) (headerHeight p) in
  let newEndIdx := Z.max newStartIdx (getEndIdx p st bottomOffset padding2) in
  if negb (newStartIdx =? startIdx st) || negb (newEndIdx =? endIdx st) then
    let top := getRowTop st newStartIdx in
    (mkState (rowInfo st) (listLength st) newStartIdx newEndIdx
             top (getRowTop st newEndIdx)
             (JS.slice (list p) newStartIdx newEndIdx) (Some top)
             screenHeight viewportHeight2,
     [UpdateHeight newStartIdx newEndIdx])
  else (st, []).

(** the parts of [redraw], by name, as for the exact numbers above *)
Definition screenHeight_of (p : Props) (st : State) : float :=
  F64.add (F64.add (headerHeight p) (getTotalRowHeight st)) (footerHeight p).

Definition viewportHeight2_of (p : Props) (st : State) : float :=
  match viewportHeight p with
  | None => screenHeight_of p st
  | Some v => v
  end.

Definition padding2_of (p : Props) (d : Dom) (st : State) : float :=
  match padding p with
  | None => F64.mul (F64.min (windowHeight d) (viewportHeight2_of p st))
                    defaultPaddingRatio
  | Some x => x
  end.

Definition topOffset_of (p : Props) (d : Dom) : float :=
  let visibleViewportTop := F64.max PrimFloat.zero (F64.neg (viewportTop d)) in
  F64.sub (F64.add (scrollTop d) visibleViewportTop) (headerHeight p).

Definition bottomOffset_of (p : Props) (d : Dom) (st : State) : float :=
  let visibleViewportHeight :=
    F64.min (viewportHeight2_of p st)
            (F64.sub (windowHeight d) (viewportTop d)) in
  F64.sub (F64.add (scrollTop d) visibleViewportHeight) (headerHeight p).

Definition sync (p : Props) (st : State) : State :=
  let st := update p st in
  with_heights st (screenHeight_of p st) (viewportHeight2_of p st).

Definition newStartIdx_of (p : Props) (d : Dom) (st : State) : Z :=
  getStartIdx p st (topOffset_of p d) (padding2_of p d st).

Definition newEndIdx_of (p : Props) (d : Dom) (st : State) : Z :=
  Z.max (newStartIdx_of p d st)
        (getEndIdx p st (bottomOffset_of p d st) (padding2_of p d st)).

(** [n] rows with keys 0..n-1 and no measured height *)
Definition rows (n : nat) : Datatypes.list Row :=
  map (fun k => mkRow (Z.of_nat k) None) (seq 0 n).

End Dbl.

Module Calm64.
(** ten rows of height 20, padding 20, hysteresis 1, viewport 40; a redraw
    at scrollTop 30, then one at 35 *)
Definition props : Dbl.Props :=
  Dbl.mkProps (Dbl.rows 10) 20%float 0%float 0%float
              (Some 40%float) (Some 20%float) 1%float.
Definition dom (top : float) : Dbl.Dom := Dbl.mkDom top 0%float 1000%float.
Definition step1 := Dbl.redraw props (dom 30%float) Dbl.init.
End Calm64.

(** a decimal literal denotes the nearest Number, as it does in the script *)
Set Warnings "-inexact-float".

Module Band64.
(** a hundred rows of height 40.9, padding 384, hysteresis 0.15, viewport
    400; a redraw at scrollTop 465.8, then one at 523.4 *)
Definition props : Dbl.Props :=
  Dbl.mkProps (Dbl.rows 100) 40.9%float 0%float 0%float
              (Some 400%float) (Some 384%float) 0.15%float.
Definition dom (top : float) : Dbl.Dom := Dbl.mkDom top 0%float 1000%float.
Definition step1 := Dbl.redraw props (dom 465.8%float) Dbl.init.
Definition step2 := Dbl.redraw props (dom 523.4%float) (fst step1).
End Band64.

Module Flat64.
(** the rows of [Flat], heights 20, 0, 0 and 30, on Numbers *)
Definition props : Dbl.Props :=
  Dbl.mkProps [Dbl.mkRow 0 (Some 20%float); Dbl.mkRow 1 (Some 0%float);
               Dbl.mkRow 2 (Some 0%float); Dbl.mkRow 3 (Some 30%float)]
              20%float 0%float 0%float None None 0.5%float.
Definition st : Dbl.State :=
  Dbl.updateRange props (Dbl.updateAll props Dbl.init) 0 4.
End Flat64.

Module Once64.
(** one row built with the default height 100, whose list height is 18.4,
    updated twice *)
Definition props : Dbl.Props :=
  Dbl.mkProps [Dbl.mkRow 0 (Some 18.4%float)] 100%float 0%float 0%float
              None None 0.5%float.
Definition st0 : Dbl.State := Dbl.updateAll props Dbl.init.
Definition st1 : Dbl.State := Dbl.update1 props st0 0.
Definition st2 : Dbl.State := Dbl.update1 props st1 0.
End Once64.

Module Tenth64.
(** five rows of default height 10.1 *)
Definition props : Dbl.Props :=
  Dbl.mkProps (Dbl.rows 5) 10.1%float 0%float 0%float None None 0.5%float.
Definition st : Dbl.State := Dbl.updateAll props Dbl.init.
End Tenth64.

Module Round64.
(** four rows of heights 50.3, 41.6, 41.6 and 24, built by [updateAll] and
    one [updateRange] over all rows *)
Definition props : Dbl.Props :=
  Dbl.mkProps [Dbl.mkRow 0 (Some 50.3%float); Dbl.mkRow 1 (Some 41.6%float);
               Dbl.mkRow 2 (Some 41.6%float); Dbl.mkRow 3 (Some 24%float)]
              20%float 0%float 0%float None None 0.5%float.
Definition st : Dbl.State :=
  Dbl.updateRange props (Dbl.updateAll props Dbl.init) 0 4.
End Round64.

(** * Properties *)

(** ** The loops, unfolded once *)

Lemma update1_loop_eq len diff bit ri info :
  update1_loop len diff bit ri info =
  if Z.pos bit <? len then
    if JS.band ri (Z.pos bit) =? 0 then
      if ri + Z.pos bit >=? len then info
      else update1_loop len diff (bit~0) (ri + Z.pos bit)
             (JS.add_at info ((ri + Z.pos bit) * 2 + 1) diff)
    else update1_loop len diff (bit~0) ri info
  else info.
Proof.
  rewrite update1_loop_equation_1 at 1.
  destruct (Z_lt_dec (Z.pos bit) len) as [H | H]; simpl.
  - apply Z.ltb_lt in H. rewrite H. reflexivity.
  - apply Z.ltb_nlt in H. rewrite H. reflexivity.
Qed.

Lemma getRowTop_loop_eq info upto bit ri sum :
  getRowTop_loop info upto bit ri sum =
  if Z.pos bit <=? upto then
    if negb (JS.band ri (Z.pos bit) =? 0) then
      getRowTop_loop info upto (bit~0) (ri - Z.pos bit)
        (JS.add sum (JS.get info (ri * 2 - 1)))
    else getRowTop_loop info upto (bit~0) ri sum
  else sum.
Proof.
  rewrite getRowTop_loop_equation_1 at 1.
  destruct (Z_le_dec (Z.pos bit) upto) as [H | H]; simpl.
  - apply Z.leb_le in H. rewrite H. reflexivity.
  - apply Z.leb_nle in H. rewrite H. reflexivity.
Qed.

Lemma getRowIdx_loop_eq info bit ri rest :
  getRowIdx_loop info bit ri rest =
  if 1 <=? bit then
    let h := JS.get info ((ri + bit) * 2 - 1) in
    if JS.ge rest h then
      getRowIdx_loop info (bit / 2) (ri + bit) (JS.sub rest h)
    else getRowIdx_loop info (bit / 2) ri rest
  else ri.
Proof.
  rewrite getRowIdx_loop_equation_1 at 1.
  destruct (Z_le_dec 1 bit) as [H | H]; simpl.
  - apply Z.leb_le in H. rewrite H. reflexivity.
  - apply Z.leb_nle in H. rewrite H. reflexivity.
Qed.

(** [redraw] in terms of its named parts *)
Lemma redraw_eq p d st :
  redraw p d st =
  let st' := sync p st in
  let newStartIdx := newStartIdx_of p d st' in
  let newEndIdx := newEndIdx_of p d st' in
  if negb (newStartIdx =? startIdx st') || negb (newEndIdx =? endIdx st') then
    (mkState (rowInfo st') (listLength st') newStartIdx newEndIdx
             (getRowTop st' newStartIdx) (getRowTop st' newEndIdx)
             (JS.slice (list p) newStartIdx newEndIdx)
             (Some (getRowTop st' newStartIdx))
             (screenHeight st') (viewportHeight2 st'),
     [UpdateHeight newStartIdx newEndIdx])
  else (st', []).
Proof. reflexivity. Qed.

(** ** The refs that the height index does not own *)

Lemma update1_frame p st i :
  listLength (update1 p st i) = listLength st /\
  startIdx (update1 p st i) = startIdx st /\
  endIdx (update1 p st i) = endIdx st /\
  startTop (update1 p st i) = startTop st /\
  endTop (update1 p st i) = endTop st /\
  vlist (update1 p st i) = vlist st /\
  sheetStyle (update1 p st i) = sheetStyle st.
Proof.
  unfold update1.
  destruct (JS.is_zero _); simpl; repeat split; reflexivity.
Qed.

Lemma fold_update1_frame p l : forall st,
  listLength (fold_left (update1 p) l st) = listLength st /\
  startIdx (fold_left (update1 p) l st) = startIdx st /\
  endIdx (fold_left (update1 p) l st) = endIdx st /\
  startTop (fold_left (update1 p) l st) = startTop st /\
  endTop (fold_left (update1 p) l st) = endTop st /\
  vlist (fold_left (update1 p) l st) = vlist st /\
  sheetStyle (fold_left (update1 p) l st) = sheetStyle st.
Proof.
  induction l as [| i l IH]; intros st; simpl.
  - repeat split; reflexivity.
  - destruct (IH (update1 p st i)) as (H1 & H2 & H3 & H4 & H5 & H6 & H7).
    destruct (update1_frame p st i) as (G1 & G2 & G3 & G4 & G5 & G6 & G7).
    repeat split; congruence.
Qed.

Lemma updateRange_frame p st from to :
  listLength (updateRange p st from to) = listLength st /\
  startIdx (updateRange p st from to) = startIdx st /\
  endIdx (updateRange p st from to) = endIdx st /\
  startTop (updateRange p st from to) = startTop st /\
  endTop (updateRange p st from to) = endTop st /\
  vlist (updateRange p st from to) = vlist st /\
  sheetStyle (updateRange p st from to) = sheetStyle st.
Proof. unfold updateRange. apply fold_update1_frame. Qed.

Lemma update_frame p st :
  startIdx (update p st) = startIdx st /\
  endIdx (update p st) = endIdx st /\
  startTop (update p st) = startTop st /\
  endTop (update p st) = endTop st /\
  vlist (update p st) = vlist st /\
  sheetStyle (update p st) = sheetStyle st.
Proof.
  unfold update.
  match goal with
  | |- context [updateRange p ?s (startIdx ?s) (endIdx ?s)] =>
      destruct (updateRange_frame p s (startIdx s) (endIdx s))
        as (_ & H2 & H3 & H4 & H5 & H6 & H7);
      assert (G : startIdx s = startIdx st /\ endIdx s = endIdx st /\
                  startTop s = startTop st /\ endTop s = endTop st /\
                  vlist s = vlist st /\ sheetStyle s = sheetStyle st)
  end.
  { destruct (listLength st =? 0); [simpl; repeat split; reflexivity |].
    destruct (_ <? _); [simpl; repeat split; reflexivity |].
    destruct (_ >? _); [| repeat split; reflexivity].
    match goal with
    | |- context [updateRange p ?s ?a ?b] =>
        destruct (updateRange_frame p s a b) as (_ & K2 & K3 & K4 & K5 & K6 & K7)
    end.
    simpl in *. repeat split; assumption. }
  destruct G as (G2 & G3 & G4 & G5 & G6 & G7).
  repeat split; congruence.
Qed.

Lemma sync_frame p st :
  startIdx (sync p st) = startIdx st /\
  endIdx (sync p st) = endIdx st /\
  startTop (sync p st) = startTop st /\
  endTop (sync p st) = endTop st /\
  vlist (sync p st) = vlist st /\
  sheetStyle (sync p st) = sheetStyle st.
Proof. unfold sync. simpl. apply update_frame. Qed.

Lemma redraw_index p d st :
  rowInfo (fst (redraw p d st)) = rowInfo (update p st) /\
  listLength (fst (redraw p d st)) = listLength (update p st) /\
  (0 <= startIdx st -> 0 <= startIdx (fst (redraw p d st))).
Proof.
  rewrite redraw_eq. cbv zeta.
  destruct (sync_frame p st) as (F1 & _).
  destruct (negb _ || negb _) eqn:E; cbn [fst rowInfo listLength startIdx].
  - split; [reflexivity |]. split; [reflexivity |].
    intros Hs. unfold newStartIdx_of, getStartIdx. cbv zeta.
    match goal with
    | |- context [if ?c then Z.max 0 ?x else _] => destruct c
    end; [lia | rewrite F1; exact Hs].
  - split; [reflexivity |]. split; [reflexivity |].
    intros Hs. rewrite F1. exact Hs.
Qed.

(** ** Arrays *)

Lemma range_In from to ri : In ri (JS.range from to) <-> from <= ri < to.
Proof.
  unfold JS.range. rewrite in_map_iff. split.
  - intros (k & <- & Hk). apply in_seq in Hk. lia.
  - intros H. exists (Z.to_nat (ri - from)). split.
    + rewrite Z2Nat.id; lia.
    + apply in_seq. lia.
Qed.

Lemma range_nil from to : to <= from -> JS.range from to = [].
Proof.
  intros H. unfold JS.range.
  replace (Z.to_nat (to - from)) with 0%nat by lia. reflexivity.
Qed.

Lemma range_snoc from to :
  from <= to -> JS.range from (to + 1) = JS.range from to ++ [to].
Proof.
  intros H. unfold JS.range.
  replace (Z.to_nat (to + 1 - from)) with (S (Z.to_nat (to - from))) by lia.
  rewrite seq_S, map_app. cbn [map]. do 3 f_equal. lia.
Qed.

Lemma get_firstn (a : array) k i :
  i < Z.of_nat k -> JS.get (firstn k a) i = JS.get a i.
Proof.
  intros Hi. unfold JS.get.
  destruct (Z.ltb_spec i 0) as [Hn | Hn]; [reflexivity |].
  - rewrite <- (firstn_skipn k a) at 2.
    destruct (Nat.lt_ge_cases (Z.to_nat i) (length (firstn k a))) as [Hl | Hl].
    + rewrite app_nth1 by exact Hl. reflexivity.
    + rewrite (nth_overflow (firstn k a)) by exact Hl.
      rewrite length_firstn in Hl.
      rewrite nth_overflow; [reflexivity |].
      rewrite length_app, length_firstn, length_skipn. lia.
Qed.

Lemma get_overflow (a : array) i :
  Z.of_nat (length a) <= i -> JS.get a i = NaN.
Proof.
  intros H. unfold JS.get.
  destruct (Z.ltb_spec i 0) as [Hn | Hn]; [reflexivity |].
  apply nth_overflow. lia.
Qed.

Lemma nth_replace (a : array) v : forall n m,
  (n < length a)%nat ->
  nth m (firstn n a ++ v :: skipn (S n) a) NaN =
  if (m =? n)%nat then v else nth m a NaN.
Proof.
  induction a as [| x a IH]; intros n m Hn; simpl in Hn; [lia |].
  destruct n as [| n]; destruct m as [| m]; try reflexivity.
  simpl. apply IH. lia.
Qed.

Lemma set_length_ge (a : array) i v :
  (length a <= length (JS.set a i v))%nat.
Proof.
  unfold JS.set. destruct (i <? 0); [lia |].
  destruct (Nat.ltb_spec (Z.to_nat i) (length a)) as [H | H].
  - rewrite length_app, length_firstn. cbn [length]. rewrite length_skipn. lia.
  - rewrite length_app. lia.
Qed.

Lemma set_length_in (a : array) i v :
  0 <= i < Z.of_nat (length a) -> length (JS.set a i v) = length a.
Proof.
  intros Hi. unfold JS.set.
  destruct (Z.ltb_spec i 0) as [Hn | Hn]; [lia |].
  destruct (Nat.ltb_spec (Z.to_nat i) (length a)) as [H | H]; [| lia].
  rewrite length_app, length_firstn. cbn [length]. rewrite length_skipn. lia.
Qed.

(** a write at or above position [k] leaves the first [k] cells alone *)
Lemma set_firstn (a : array) i v k :
  (k <= length a)%nat -> Z.of_nat k <= i ->
  firstn k (JS.set a i v) = firstn k a.
Proof.
  intros Hk Hi. unfold JS.set.
  destruct (Z.ltb_spec i 0) as [Hn | Hn]; [reflexivity |].
  destruct (Nat.ltb_spec (Z.to_nat i) (length a)) as [H | H].
  - rewrite firstn_app, length_firstn.
    replace (k - Nat.min (Z.to_nat i) (length a))%nat with 0%nat by lia.
    simpl. rewrite app_nil_r, firstn_firstn. f_equal. lia.
  - rewrite firstn_app.
    replace (k - length a)%nat with 0%nat by lia.
    simpl. rewrite app_nil_r. reflexivity.
Qed.

Lemma get_set_same (a : array) i v :
  0 <= i < Z.of_nat (length a) -> JS.get (JS.set a i v) i = v.
Proof.
  intros Hi. unfold JS.set, JS.get.
  destruct (Z.ltb_spec i 0) as [Hn | Hn]; [lia |].
  destruct (Nat.ltb_spec (Z.to_nat i) (length a)) as [H | H]; [| lia].
  rewrite nth_replace by exact H. rewrite Nat.eqb_refl. reflexivity.
Qed.

Lemma get_set_other (a : array) i j v :
  0 <= i < Z.of_nat (length a) -> i <> j ->
  JS.get (JS.set a i v) j = JS.get a j.
Proof.
  intros Hi Hij. unfold JS.set, JS.get.
  destruct (Z.ltb_spec i 0) as [Hn | Hn]; [lia |].
  destruct (Nat.ltb_spec (Z.to_nat i) (length a)) as [H | H]; [| lia].
  destruct (Z.ltb_spec j 0) as [Hj | Hj]; [reflexivity |].
  rewrite nth_replace by exact H.
  destruct (Nat.eqb_spec (Z.to_nat j) (Z.to_nat i)) as [E | E]; [lia | reflexivity].
Qed.

Lemma add_at_firstn (a : array) i d k :
  (k <= length a)%nat -> Z.of_nat k <= i ->
  firstn k (JS.add_at a i d) = firstn k a.
Proof. intros. unfold JS.add_at. apply set_firstn; assumption. Qed.

Lemma add_at_length_ge (a : array) i d :
  (length a <= length (JS.add_at a i d))%nat.
Proof. unfold JS.add_at. apply set_length_ge. Qed.

Lemma add_at_length_in (a : array) i d :
  0 <= i < Z.of_nat (length a) -> length (JS.add_at a i d) = length a.
Proof. intros H. unfold JS.add_at. apply set_length_in. exact H. Qed.

Lemma get_add_at_same (a : array) i d :
  0 <= i < Z.of_nat (length a) ->
  JS.get (JS.add_at a i d) i = JS.add (JS.get a i) d.
Proof. intros H. unfold JS.add_at. apply get_set_same. exact H. Qed.

Lemma get_add_at_other (a : array) i j d :
  0 <= i < Z.of_nat (length a) -> i <> j ->
  JS.get (JS.add_at a i d) j = JS.get a j.
Proof. intros H Hij. unfold JS.add_at. apply get_set_other; assumption. Qed.

(** ** Powers of two and bits *)

Lemma lowbit_double x : 0 < x -> lowbit (2 * x) = 2 * lowbit x.
Proof. destruct x; intros H; try lia. reflexivity. Qed.

Lemma lowbit_odd x : 0 <= x -> lowbit (2 * x + 1) = 1.
Proof. destruct x; intros H; try lia; reflexivity. Qed.

Lemma lowbit_pos_lt x : 0 < x -> 0 < lowbit x.
Proof. destruct x; intros H; try lia. reflexivity. Qed.

Lemma lowbit_le x : 0 < x -> lowbit x <= x.
Proof.
  destruct x as [| q | q]; intros H; try lia. cbn [lowbit].
  induction q as [q IH | q IH |]; cbn [lowbit_pos]; lia.
Qed.

Lemma lowbit_pow2_mul (p : nat) m :
  0 < m -> lowbit (2 ^ Z.of_nat p * m) = 2 ^ Z.of_nat p * lowbit m.
Proof.
  intros Hm. induction p as [| p IH].
  - change (2 ^ Z.of_nat 0) with 1. rewrite !Z.mul_1_l. reflexivity.
  - rewrite Nat2Z.inj_succ, Z.pow_succ_r by lia.
    rewrite <- !Z.mul_assoc, lowbit_double, IH; [reflexivity |].
    apply Z.mul_pos_pos; [apply Z.pow_pos_nonneg; lia | exact Hm].
Qed.

(** the block that ends below a multiple of 2^(p+1) plus 2^p has size 2^p *)
Lemma lowbit_half_step (p : nat) ri :
  0 <= ri -> ri mod 2 ^ Z.of_nat (S p) = 0 ->
  lowbit (ri + 2 ^ Z.of_nat p) = 2 ^ Z.of_nat p.
Proof.
  intros H0 Hm.
  assert (Hp : 0 < 2 ^ Z.of_nat (S p)) by (apply Z.pow_pos_nonneg; lia).
  apply Z.div_exact in Hm; [| lia].
  set (c := ri / 2 ^ Z.of_nat (S p)) in *.
  assert (Hc : 0 <= c) by (apply Z.div_pos; lia).
  rewrite Nat2Z.inj_succ, Z.pow_succ_r in Hm by lia.
  replace (ri + 2 ^ Z.of_nat p) with (2 ^ Z.of_nat p * (2 * c + 1)) by lia.
  rewrite lowbit_pow2_mul by lia.
  rewrite lowbit_odd by lia. lia.
Qed.

Lemma lowbit_low_bits (p : nat) : forall c j,
  0 <= c -> 0 < j < 2 ^ Z.of_nat p ->
  lowbit (c * 2 ^ Z.of_nat p + j) = lowbit j.
Proof.
  induction p as [| p IH]; intros c j Hc Hj.
  - change (2 ^ Z.of_nat 0) with 1 in Hj. lia.
  - assert (Hq : 0 < 2 ^ Z.of_nat p) by (apply Z.pow_pos_nonneg; lia).
    assert (Es : 2 ^ Z.of_nat (S p) = 2 * 2 ^ Z.of_nat p)
      by (rewrite Nat2Z.inj_succ, Z.pow_succ_r by lia; reflexivity).
    rewrite Es in *.
    assert (Hcq : 0 <= c * 2 ^ Z.of_nat p) by (apply Z.mul_nonneg_nonneg; lia).
    destruct (Z.Even_or_Odd j) as [[j' Hj'] | [j' Hj']]; subst j.
    + replace (c * (2 * 2 ^ Z.of_nat p) + 2 * j')
        with (2 * (c * 2 ^ Z.of_nat p + j')) by lia.
      rewrite !lowbit_double by lia. rewrite IH by lia. reflexivity.
    + replace (c * (2 * 2 ^ Z.of_nat p) + (2 * j' + 1))
        with (2 * (c * 2 ^ Z.of_nat p + j') + 1) by lia.
      rewrite !lowbit_odd by lia. reflexivity.
Qed.

Lemma lowbit_multiple (p : nat) x :
  0 < x -> x mod 2 ^ Z.of_nat p = 0 -> 2 ^ Z.of_nat p <= lowbit x.
Proof.
  intros Hx Hm.
  assert (Hq : 0 < 2 ^ Z.of_nat p) by (apply Z.pow_pos_nonneg; lia).
  apply Z.div_exact in Hm; [| lia].
  set (c := x / 2 ^ Z.of_nat p) in *.
  assert (Hc : 0 < c).
  { destruct (Z.lt_trichotomy c 0) as [H | [H | H]]; [| | exact H].
    - assert (2 ^ Z.of_nat p * c <= 0) by (apply Z.mul_nonneg_nonpos; lia). lia.
    - rewrite H in Hm. lia. }
  rewrite Hm, lowbit_pow2_mul by exact Hc.
  pose proof (lowbit_pos_lt c Hc) as Hl.
  assert (2 ^ Z.of_nat p * 1 <= 2 ^ Z.of_nat p * lowbit c)
    by (apply Z.mul_le_mono_nonneg_l; lia).
  lia.
Qed.

Lemma mod_pow2_half (p : nat) ri :
  ri mod 2 ^ Z.of_nat (S p) = 0 ->
  ri mod 2 ^ Z.of_nat p = 0 /\ (ri + 2 ^ Z.of_nat p) mod 2 ^ Z.of_nat p = 0.
Proof.
  intros Hm.
  assert (Hq : 0 < 2 ^ Z.of_nat p) by (apply Z.pow_pos_nonneg; lia).
  assert (Hp : 0 < 2 ^ Z.of_nat (S p)) by (apply Z.pow_pos_nonneg; lia).
  apply Z.div_exact in Hm; [| lia].
  set (c := ri / 2 ^ Z.of_nat (S p)) in *.
  rewrite Nat2Z.inj_succ, Z.pow_succ_r in Hm by lia.
  split.
  - replace ri with (2 * c * 2 ^ Z.of_nat p) by lia.
    apply Z.mod_mul. lia.
  - replace (ri + 2 ^ Z.of_nat p) with ((2 * c + 1) * 2 ^ Z.of_nat p) by lia.
    apply Z.mod_mul. lia.
Qed.

Lemma ToInt32_small z : 0 <= z < 2 ^ 31 -> JS.ToInt32 z = z.
Proof.
  intros H. unfold JS.ToInt32.
  rewrite Z.mod_small by lia.
  destruct (Z.geb_spec z (2 ^ 31)); [lia | reflexivity].
Qed.

Lemma land_pow2 a (p : nat) :
  Z.land a (2 ^ Z.of_nat p) =
  if Z.testbit a (Z.of_nat p) then 2 ^ Z.of_nat p else 0.
Proof.
  apply Z.bits_inj'. intros n Hn.
  rewrite Z.land_spec, Z.pow2_bits_eqb by lia.
  destruct (Z.eqb_spec (Z.of_nat p) n) as [E | E].
  - rewrite <- E, andb_true_r.
    destruct (Z.testbit a (Z.of_nat p)) eqn:T.
    + rewrite Z.pow2_bits_true by lia. reflexivity.
    + rewrite Z.bits_0. reflexivity.
  - rewrite andb_false_r.
    destruct (Z.testbit a (Z.of_nat p)).
    + rewrite Z.pow2_bits_false by lia. reflexivity.
    + rewrite Z.bits_0. reflexivity.
Qed.

(** [(ri & bit) == 0] for an index and a mask below 2^31 *)
Lemma band_pow2 ri (p : nat) :
  0 <= ri < 2 ^ 31 -> 2 ^ Z.of_nat p < 2 ^ 31 ->
  (JS.band ri (2 ^ Z.of_nat p) =? 0) = negb (Z.testbit ri (Z.of_nat p)).
Proof.
  intros Hri Hp.
  assert (Hq : 0 < 2 ^ Z.of_nat p) by (apply Z.pow_pos_nonneg; lia).
  unfold JS.band. rewrite !ToInt32_small by lia.
  rewrite land_pow2. destruct (Z.testbit ri (Z.of_nat p)); simpl.
  - apply Z.eqb_neq. lia.
  - reflexivity.
Qed.

(** bit p of a multiple of 2^p: set, and the rest is a multiple of 2^(p+1),
    or clear, and the number itself is one *)
Lemma testbit_split (p : nat) ri :
  0 <= ri -> ri mod 2 ^ Z.of_nat p = 0 ->
  (Z.testbit ri (Z.of_nat p) = true /\
   2 ^ Z.of_nat p <= ri /\ (ri - 2 ^ Z.of_nat p) mod 2 ^ Z.of_nat (S p) = 0) \/
  (Z.testbit ri (Z.of_nat p) = false /\ ri mod 2 ^ Z.of_nat (S p) = 0).
Proof.
  intros H0 Hm.
  assert (Hq : 0 < 2 ^ Z.of_nat p) by (apply Z.pow_pos_nonneg; lia).
  assert (Es : 2 ^ Z.of_nat (S p) = 2 * 2 ^ Z.of_nat p)
    by (rewrite Nat2Z.inj_succ, Z.pow_succ_r by lia; reflexivity).
  apply Z.div_exact in Hm; [| lia].
  set (c := ri / 2 ^ Z.of_nat p) in *.
  assert (Hc : 0 <= c) by (apply Z.div_pos; lia).
  destruct (Z.Even_or_Odd c) as [[k Hk] | [k Hk]].
  - right. split.
    + apply Z.testbit_false; [lia |]. fold c. rewrite Hk.
      rewrite Z.mul_comm. apply Z.mod_mul. lia.
    + rewrite Es. subst c. rewrite Hk in Hm.
      replace ri with (k * (2 * 2 ^ Z.of_nat p)) by lia.
      apply Z.mod_mul. lia.
  - left. split; [| split].
    + apply Z.testbit_true; [lia |]. fold c. rewrite Hk.
      rewrite Z.add_comm, Z.mul_comm, Z.mod_add by lia. reflexivity.
    + assert (Hk0 : 0 <= k * 2 ^ Z.of_nat p)
        by (apply Z.mul_nonneg_nonneg; lia).
      subst c. rewrite Hk in Hm. lia.
    + rewrite Es. subst c. rewrite Hk in Hm.
      replace (ri - 2 ^ Z.of_nat p) with (k * (2 * 2 ^ Z.of_nat p)) by lia.
      apply Z.mod_mul. lia.
Qed.

(** bit p of [ri] when [ri + 1] is a multiple of 2^p *)
Lemma testbit_pred_split (p : nat) ri :
  0 <= ri -> (ri + 1) mod 2 ^ Z.of_nat p = 0 ->
  (Z.testbit ri (Z.of_nat p) = false /\
   (ri + 1 + 2 ^ Z.of_nat p) mod 2 ^ Z.of_nat (S p) = 0) \/
  (Z.testbit ri (Z.of_nat p) = true /\
   (ri + 1) mod 2 ^ Z.of_nat (S p) = 0).
Proof.
  intros H0 Hm.
  assert (Hq : 0 < 2 ^ Z.of_nat p) by (apply Z.pow_pos_nonneg; lia).
  assert (Es : 2 ^ Z.of_nat (S p) = 2 * 2 ^ Z.of_nat p)
    by (rewrite Nat2Z.inj_succ, Z.pow_succ_r by lia; reflexivity).
  apply Z.div_exact in Hm; [| lia].
  set (c := (ri + 1) / 2 ^ Z.of_nat p) in *.
  assert (Hd : ri / 2 ^ Z.of_nat p = c - 1).
  { symmetry. apply (Z.div_unique ri (2 ^ Z.of_nat p) (c - 1) (2 ^ Z.of_nat p - 1)); lia. }
  destruct (Z.Even_or_Odd c) as [[k Hk] | [k Hk]].
  - right. split.
    + apply Z.testbit_true; [lia |]. rewrite Hd, Hk.
      replace (2 * k - 1) with (1 + (k - 1) * 2) by lia.
      rewrite Z.mod_add by lia. reflexivity.
    + rewrite Es, Hm, Hk.
      replace (2 ^ Z.of_nat p * (2 * k)) with (k * (2 * 2 ^ Z.of_nat p)) by lia.
      apply Z.mod_mul. lia.
  - left. split.
    + apply Z.testbit_false; [lia |]. rewrite Hd, Hk.
      replace (2 * k + 1 - 1) with (k * 2) by lia.
      apply Z.mod_mul. lia.
    + rewrite Es, Hm, Hk.
      replace (2 ^ Z.of_nat p * (2 * k + 1) + 2 ^ Z.of_nat p)
        with ((k + 1) * (2 * 2 ^ Z.of_nat p)) by lia.
      apply Z.mod_mul. lia.
Qed.

Lemma lxor_odd_even a b : Z.lxor (2 * a + 1) (2 * b) = 2 * Z.lxor a b + 1.
Proof.
  apply Z.bits_inj'. intros n Hn. rewrite Z.lxor_spec.
  destruct (Z.eq_dec n 0) as [-> | Hn0].
  - rewrite !Z.testbit_odd_0, Z.testbit_even_0. reflexivity.
  - replace n with (Z.succ (n - 1)) by lia.
    rewrite !Z.testbit_odd_succ, Z.testbit_even_succ, Z.lxor_spec by lia.
    reflexivity.
Qed.

Lemma lxor_even_odd a b : Z.lxor (2 * a) (2 * b + 1) = 2 * Z.lxor a b + 1.
Proof. rewrite Z.lxor_comm, lxor_odd_even, Z.lxor_comm. reflexivity. Qed.

(** [(x-1) ^ x] is a run of ones up to the lowest set bit of [x] *)
Lemma lxor_pred_pos (p : positive) :
  Z.lxor (Z.pos p - 1) (Z.pos p) + 1 = 2 * Z.pos (lowbit_pos p).
Proof.
  induction p as [q IH | q IH |].
  - replace (Z.pos q~1 - 1) with (2 * Z.pos q) by lia.
    replace (Z.pos q~1) with (2 * Z.pos q + 1) by lia.
    rewrite lxor_even_odd, Z.lxor_nilpotent. reflexivity.
  - replace (Z.pos q~0 - 1) with (2 * (Z.pos q - 1) + 1) by lia.
    replace (Z.pos q~0) with (2 * Z.pos q) at 1 by lia.
    rewrite lxor_odd_even. cbn [lowbit_pos].
    replace (Z.pos (lowbit_pos q)~0) with (2 * Z.pos (lowbit_pos q)) by lia.
    lia.
  - reflexivity.
Qed.

(** [((ri ^ ri+1) + 1) / 2] is the block size of row [ri] *)
Lemma updateAll_blockSize ri :
  0 <= ri -> ri + 1 < 2 ^ 31 ->
  (JS.bxor ri (ri + 1) + 1) / 2 = blockSize ri.
Proof.
  intros H0 H1. unfold JS.bxor, blockSize.
  rewrite !ToInt32_small by lia.
  destruct (ri + 1) as [| q | q] eqn:E; try lia.
  replace ri with (Z.pos q - 1) by lia.
  rewrite lxor_pred_pos. cbn [lowbit].
  rewrite Z.mul_comm. apply Z.div_mul. lia.
Qed.

(** ** Prefix sums and blocks *)

Lemma prefixSum_nonpos info k : k <= 0 -> prefixSum info k = 0%Q.
Proof.
  intros H. unfold prefixSum. replace (Z.to_nat k) with 0%nat by lia.
  reflexivity.
Qed.

Lemma prefixSum_succ info k :
  0 <= k ->
  prefixSum info (k + 1) = (prefixSum info k + heightAt info k)%Q.
Proof.
  intros H. unfold prefixSum.
  replace (Z.to_nat (k + 1)) with (S (Z.to_nat k)) by lia.
  cbn [prefixN]. rewrite Z2Nat.id by exact H. reflexivity.
Qed.

(** with no negative height the prefix sums do not decrease *)
Lemma prefixSum_mono st :
  nonneg_heights st ->
  forall n a, 0 <= a -> a + Z.of_nat n <= listLength st ->
    (prefixSum (rowInfo st) a <= prefixSum (rowInfo st) (a + Z.of_nat n))%Q.
Proof.
  intros Hnn. induction n as [| n IH]; intros a Ha Hb.
  - replace (a + Z.of_nat 0) with a by lia. apply Qle_refl.
  - replace (a + Z.of_nat (S n)) with (a + Z.of_nat n + 1) by lia.
    rewrite prefixSum_succ by lia.
    specialize (IH a Ha ltac:(lia)).
    specialize (Hnn (a + Z.of_nat n) ltac:(lia)).
    lra.
Qed.

Lemma prefixSum_le st a b :
  nonneg_heights st -> 0 <= a <= b -> b <= listLength st ->
  (prefixSum (rowInfo st) a <= prefixSum (rowInfo st) b)%Q.
Proof.
  intros Hnn Hab Hb.
  replace b with (a + Z.of_nat (Z.to_nat (b - a))) by lia.
  apply prefixSum_mono; [exact Hnn | lia | lia].
Qed.

Lemma prefixSum_firstn (a : array) k : forall n : nat,
  Z.of_nat n * 2 <= Z.of_nat k ->
  prefixSum (firstn k a) (Z.of_nat n) = prefixSum a (Z.of_nat n).
Proof.
  induction n as [| n IH]; intros Hn; [reflexivity |].
  rewrite Nat2Z.inj_succ, <- Z.add_1_r, !prefixSum_succ by lia.
  rewrite IH by lia. unfold heightAt. rewrite get_firstn by lia. reflexivity.
Qed.

Lemma prefixSum_truncate (a : array) k j :
  j * 2 <= Z.of_nat k -> prefixSum (firstn k a) j = prefixSum a j.
Proof.
  intros Hj. destruct (Z.le_gt_cases j 0) as [Hle | Hgt].
  - rewrite !prefixSum_nonpos by exact Hle. reflexivity.
  - rewrite <- (Z2Nat.id j) by lia. apply prefixSum_firstn. lia.
Qed.

Lemma inject_Z_sub a b : (inject_Z (a - b) == inject_Z a - inject_Z b)%Q.
Proof.
  unfold Z.sub. rewrite inject_Z_plus, inject_Z_opp. reflexivity.
Qed.

(** the prefix sums of an index whose first [n] heights are all [dh] *)
Lemma prefixSum_const (a : array) dh : forall n : nat,
  (forall i, 0 <= i < Z.of_nat n -> JS.get a (i * 2) = Fin dh) ->
  (prefixSum a (Z.of_nat n) == inject_Z (Z.of_nat n) * dh)%Q.
Proof.
  induction n as [| n IH]; intros H.
  - simpl. unfold prefixSum. simpl. ring.
  - rewrite Nat2Z.inj_succ, <- Z.add_1_r, prefixSum_succ by lia.
    rewrite IH by (intros i Hi; apply H; lia).
    unfold heightAt. rewrite H by lia. cbn [cellQ].
    rewrite inject_Z_plus. ring.
Qed.

(** prefix sums and block sums when one height changes by [d] *)
Lemma prefixSum_bump (a b : array) N r d :
  0 <= r ->
  (forall k, 0 <= k < N ->
     (heightAt b k == heightAt a k + (if k =? r then d else 0))%Q) ->
  forall n : nat, Z.of_nat n <= N ->
    (prefixSum b (Z.of_nat n) ==
     prefixSum a (Z.of_nat n) + (if r <? Z.of_nat n then d else 0))%Q.
Proof.
  intros Hr Hh. induction n as [| n IH]; intros Hn.
  - unfold prefixSum. simpl.
    destruct (Z.ltb_spec r 0); [lia | ring].
  - rewrite Nat2Z.inj_succ, <- Z.add_1_r, !prefixSum_succ by lia.
    rewrite IH by lia. rewrite Hh by lia.
    destruct (Z.eqb_spec (Z.of_nat n) r) as [E | E];
      destruct (Z.ltb_spec r (Z.of_nat n));
      destruct (Z.ltb_spec r (Z.of_nat n + 1)); try lia; ring.
Qed.

Lemma blockSum_bump (a b : array) N r d k :
  0 <= r ->
  (forall j, 0 <= j < N ->
     (heightAt b j == heightAt a j + (if j =? r then d else 0))%Q) ->
  0 <= k < N ->
  (blockSum b k == blockSum a k + (if covers k r then d else 0))%Q.
Proof.
  intros Hr Hh Hk.
  pose proof (lowbit_pos_lt (k + 1) ltac:(lia)) as Hs1.
  pose proof (lowbit_le (k + 1) ltac:(lia)) as Hs2.
  fold (blockSize k) in Hs1, Hs2.
  unfold blockSum, covers.
  pose proof (prefixSum_bump a b N r d Hr Hh (Z.to_nat (k + 1)) ltac:(lia)) as P1.
  pose proof (prefixSum_bump a b N r d Hr Hh (Z.to_nat (k + 1 - blockSize k))
                ltac:(lia)) as P2.
  rewrite !Z2Nat.id in P1, P2 by lia.
  rewrite P1, P2.
  destruct (Z.ltb_spec r (k + 1));
    destruct (Z.ltb_spec r (k + 1 - blockSize k));
    destruct (Z.leb_spec (k + 1 - blockSize k) r);
    destruct (Z.leb_spec r k); try lia; cbn [andb]; ring.
Qed.

Lemma covers_self r : 0 <= r -> covers r r = true.
Proof.
  intros Hr. unfold covers.
  pose proof (lowbit_pos_lt (r + 1) ltac:(lia)) as Hl. fold (blockSize r) in Hl.
  apply andb_true_iff. split; [apply Z.leb_le | apply Z.leb_le]; lia.
Qed.

Lemma covers_below k r : k < r -> covers k r = false.
Proof.
  intros H. unfold covers. apply andb_false_iff. right. apply Z.leb_gt. exact H.
Qed.

(** between the end [ri] of an aligned block that contains [r] and the end
    of the next block of the same size, no block reaches back to [r] *)
Lemma covers_gap (p : nat) ri r k :
  0 <= r <= ri -> (ri + 1) mod 2 ^ Z.of_nat p = 0 ->
  ri < k < ri + 2 ^ Z.of_nat p ->
  covers k r = false.
Proof.
  intros Hr Hm Hk.
  assert (Hq : 0 < 2 ^ Z.of_nat p) by (apply Z.pow_pos_nonneg; lia).
  apply Z.div_exact in Hm; [| lia].
  set (c := (ri + 1) / 2 ^ Z.of_nat p) in *.
  assert (Hc : 0 <= c) by (apply Z.div_pos; lia).
  unfold covers, blockSize.
  replace (k + 1) with (c * 2 ^ Z.of_nat p + (k - ri)) by lia.
  rewrite lowbit_low_bits by lia.
  pose proof (lowbit_le (k - ri) ltac:(lia)) as Hl.
  apply andb_false_iff. left. apply Z.leb_gt. lia.
Qed.

(** the block that ends where the next aligned block of double size ends
    contains [r] *)
Lemma covers_step (p : nat) ri r :
  0 <= ri -> ri + 1 - 2 ^ Z.of_nat p <= r <= ri ->
  (ri + 1 + 2 ^ Z.of_nat p) mod 2 ^ Z.of_nat (S p) = 0 ->
  covers (ri + 2 ^ Z.of_nat p) r = true.
Proof.
  intros H0 Hr Hm.
  assert (Hq : 0 < 2 ^ Z.of_nat p) by (apply Z.pow_pos_nonneg; lia).
  assert (Es : 2 ^ Z.of_nat (S p) = 2 * 2 ^ Z.of_nat p)
    by (rewrite Nat2Z.inj_succ, Z.pow_succ_r by lia; reflexivity).
  pose proof (lowbit_multiple (S p) (ri + 1 + 2 ^ Z.of_nat p) ltac:(lia) Hm) as Hl.
  unfold covers, blockSize.
  replace (ri + 2 ^ Z.of_nat p + 1) with (ri + 1 + 2 ^ Z.of_nat p) by lia.
  apply andb_true_iff. split; apply Z.leb_le; lia.
Qed.

Lemma acc_ok_length st : acc_ok st -> 0 <= listLength st.
Proof. intros [H _]. lia. Qed.

(** the accumulator cell read by the descent of [getRowIdx] at [ri + bit] *)
Lemma acc_ok_block st (p : nat) ri :
  acc_ok st ->
  0 <= ri -> ri mod 2 ^ Z.of_nat (S p) = 0 ->
  ri + 2 ^ Z.of_nat p <= listLength st ->
  exists a,
    JS.get (rowInfo st) ((ri + 2 ^ Z.of_nat p) * 2 - 1) = Fin a /\
    (a == prefixSum (rowInfo st) (ri + 2 ^ Z.of_nat p)
          - prefixSum (rowInfo st) ri)%Q.
Proof.
  intros [HL Hacc] H0 Hm Hle.
  assert (Hq : 0 < 2 ^ Z.of_nat p) by (apply Z.pow_pos_nonneg; lia).
  destruct (Hacc (ri + 2 ^ Z.of_nat p - 1)) as (h & a & _ & Ha & Hs); [lia |].
  exists a. split.
  - rewrite <- Ha. f_equal. lia.
  - rewrite Hs. unfold blockSum, blockSize.
    replace (ri + 2 ^ Z.of_nat p - 1 + 1) with (ri + 2 ^ Z.of_nat p) by lia.
    rewrite lowbit_half_step by assumption.
    replace (ri + 2 ^ Z.of_nat p - 2 ^ Z.of_nat p) with ri by lia.
    reflexivity.
Qed.

Lemma acc_ok_ext st st' :
  rowInfo st' = rowInfo st -> listLength st' = listLength st ->
  acc_ok st -> acc_ok st'.
Proof. unfold acc_ok. intros -> ->. exact (fun H => H). Qed.

(** the runnable tests decide what they test *)
Lemma acc_okb_sound st : acc_okb st = true -> acc_ok st.
Proof.
  unfold acc_okb, acc_ok. intros H.
  apply andb_true_iff in H. destruct H as [HL Hall].
  apply Z.eqb_eq in HL. split; [exact HL |].
  intros i Hi. rewrite forallb_forall in Hall.
  specialize (Hall i (proj2 (range_In 0 (listLength st) i) Hi)).
  destruct (JS.get (rowInfo st) (i * 2)) as [h |]; [| discriminate].
  destruct (JS.get (rowInfo st) (i * 2 + 1)) as [a |]; [| discriminate].
  exists h, a. repeat split. apply Qeq_bool_iff. exact Hall.
Qed.

Lemma nonneg_heightsb_sound st : nonneg_heightsb st = true -> nonneg_heights st.
Proof.
  unfold nonneg_heightsb, nonneg_heights. intros H i Hi.
  rewrite forallb_forall in H.
  apply Qle_bool_iff. apply H. apply range_In. exact Hi.
Qed.

(** ** Whole numbers of pixels *)

Lemma whole_uptob_sound B a : whole_uptob B a = true -> whole_upto B a.
Proof.
  destruct a as [q |]; [| discriminate]. unfold whole_uptob, whole_upto.
  cbv zeta. intros H.
  apply andb_true_iff in H. destruct H as [H Hu].
  apply andb_true_iff in H. destruct H as [He Hl].
  apply Z.eqb_eq in He. apply Z.leb_le in Hl, Hu.
  exists (Qnum q / Z.pos (Qden q)). split; [lia |].
  unfold Qeq. cbn [Qnum Qden inject_Z]. lia.
Qed.

Lemma px_indexb_sound st : px_indexb st = true -> px_index st.
Proof.
  unfold px_indexb, px_index. intros H i Hi.
  rewrite forallb_forall in H.
  apply (whole_uptob_sound (2 ^ 20)).
  apply (H i). apply range_In. exact Hi.
Qed.

Lemma px_listb_sound p : px_listb p = true -> px_list p.
Proof.
  unfold px_listb, px_list. intros H.
  apply andb_true_iff in H. destruct H as [Hd Hl].
  split; [apply (whole_uptob_sound (2 ^ 20)); exact Hd |].
  intros row h Hin Hh. rewrite forallb_forall in Hl.
  specialize (Hl row Hin). rewrite Hh in Hl.
  apply (whole_uptob_sound (2 ^ 20)). exact Hl.
Qed.

(** ** [updateAll] builds the accumulator structure *)

Lemma updateAll_listLength p st :
  listLength (updateAll p st) = Z.of_nat (length (list p)).
Proof. reflexivity. Qed.

Lemma fold_fillRow dh len : forall m : nat,
  Z.of_nat m <= len ->
  Z.of_nat (length (fold_left (fillRow dh) (JS.range 0 (Z.of_nat m))
                               (JS.holes (len * 2)))) = 2 * len /\
  forall i, 0 <= i < Z.of_nat m ->
    JS.get (fold_left (fillRow dh) (JS.range 0 (Z.of_nat m))
                      (JS.holes (len * 2))) (i * 2) = dh /\
    JS.get (fold_left (fillRow dh) (JS.range 0 (Z.of_nat m))
                      (JS.holes (len * 2))) (i * 2 + 1) =
    JS.mul dh (JS.of_Z ((JS.bxor i (i + 1) + 1) / 2)).
Proof.
  induction m as [| m IH]; intros Hm.
  - split; [| intros i Hi; lia].
    change (JS.range 0 (Z.of_nat 0)) with (@nil Z). cbn [fold_left].
    unfold JS.holes. rewrite repeat_length. lia.
  - destruct (IH ltac:(lia)) as [HL Hget].
    rewrite Nat2Z.inj_succ, <- Z.add_1_r, range_snoc, fold_left_app by lia.
    set (a := fold_left (fillRow dh) (JS.range 0 (Z.of_nat m))
                        (JS.holes (len * 2))) in *.
    cbn [fold_left]. unfold fillRow.
    set (r := Z.of_nat m) in *.
    set (v := JS.mul dh (JS.of_Z ((JS.bxor r (r + 1) + 1) / 2))).
    assert (L1 : length (JS.set a (r * 2) dh) = length a)
      by (apply set_length_in; lia).
    assert (L2 : length (JS.set (JS.set a (r * 2) dh) (r * 2 + 1) v) = length a)
      by (rewrite set_length_in; [exact L1 | lia]).
    split; [rewrite L2; exact HL |].
    intros i Hi.
    destruct (Z.eq_dec i r) as [-> | Hne].
    + split.
      * rewrite get_set_other by lia. apply get_set_same. lia.
      * apply get_set_same. lia.
    + destruct (Hget i ltac:(lia)) as [G1 G2].
      rewrite !get_set_other by lia. split; assumption.
Qed.

(** the structure documented at [rowInfo] holds after [updateAll] *)
Lemma updateAll_acc_ok p st : fits p -> acc_ok (updateAll p st).
Proof.
  intros Hfit. unfold fits in Hfit. unfold updateAll, acc_ok.
  cbn [rowInfo listLength with_index].
  set (len := Z.of_nat (length (list p))) in *.
  set (dh := defaultHeight p).
  destruct (fold_fillRow (Fin dh) len (length (list p)) ltac:(lia)) as [HL Hget].
  fold len in HL, Hget.
  set (a := fold_left (fillRow (Fin dh)) (JS.range 0 len) (JS.holes (len * 2))) in *.
  split; [exact HL |].
  intros i Hi. destruct (Hget i Hi) as [G1 G2].
  exists dh, (dh * inject_Z (blockSize i))%Q.
  split; [exact G1 |]. split.
  - rewrite G2, updateAll_blockSize by lia. reflexivity.
  - assert (Hs : 0 < blockSize i <= i + 1).
    { unfold blockSize. split; [apply lowbit_pos_lt | apply lowbit_le]; lia. }
    assert (P : forall k, 0 <= k <= len ->
                          (prefixSum a k == inject_Z k * dh)%Q).
    { intros k Hk. rewrite <- (Z2Nat.id k) by lia.
      apply prefixSum_const. intros j Hj. apply Hget. lia. }
    unfold blockSum. rewrite !P by lia.
    rewrite inject_Z_sub. ring.
Qed.

(** ** A point update keeps the accumulator structure *)

(** a point update for a row whose height the index already stores returns
    at [if(diff == 0) return] *)
Lemma update1_synced p st ri : row_synced p st ri -> update1 p st ri = st.
Proof. unfold row_synced, update1. intros ->. reflexivity. Qed.

Lemma fold_update1_synced p l : forall st,
  (forall ri, In ri l -> row_synced p st ri) ->
  fold_left (update1 p) l st = st.
Proof.
  induction l as [| ri l IH]; intros st H; simpl; [reflexivity |].
  rewrite update1_synced by (apply H; left; reflexivity).
  apply IH. intros r Hr. apply H. right. exact Hr.
Qed.

Lemma updateRange_synced p st from to :
  (forall ri, from <= ri < to -> ri < listLength st -> row_synced p st ri) ->
  updateRange p st from to = st.
Proof.
  intros H. unfold updateRange. apply fold_update1_synced.
  intros ri Hri. apply range_In in Hri.
  destruct (to >? listLength st) eqn:E.
  - apply H; lia.
  - rewrite Z.gtb_ltb in E. apply Z.ltb_ge in E. apply H; lia.
Qed.

Section Propagation.

(** [a0] is [rowInfo] before the update of row [r], [e] the array whose
    height cells the loop has to leave alone, [D] the difference *)
Variables (a0 e : array) (N r : Z) (D : num).
Hypothesis HN : N < 2 ^ 31.
Hypothesis Hr : 0 <= r < N.

(** the loop adds [D] to the accumulator cell of every row whose block
    contains [r], and to no other cell *)
Lemma update1_loop_cells : forall n (p : nat) bit ri info,
  Z.pos bit = 2 ^ Z.of_nat p ->
  (Z.to_nat (N - Z.pos bit) < n)%nat ->
  r <= ri < N ->
  (ri + 1) mod 2 ^ Z.of_nat p = 0 ->
  ri + 1 - 2 ^ Z.of_nat p <= r ->
  Z.of_nat (length info) = 2 * N ->
  (forall k, 0 <= k < N -> JS.get info (k * 2) = JS.get e (k * 2)) ->
  (forall k, 0 <= k < N ->
     JS.get info (k * 2 + 1) =
     if covers k r && (k <=? ri) then JS.add (JS.get a0 (k * 2 + 1)) D
     else JS.get a0 (k * 2 + 1)) ->
  Z.of_nat (length (update1_loop N D bit ri info)) = 2 * N /\
  (forall k, 0 <= k < N ->
     JS.get (update1_loop N D bit ri info) (k * 2) = JS.get e (k * 2)) /\
  (forall k, 0 <= k < N ->
     JS.get (update1_loop N D bit ri info) (k * 2 + 1) =
     if covers k r then JS.add (JS.get a0 (k * 2 + 1)) D
     else JS.get a0 (k * 2 + 1)).
Proof.
  induction n as [| n IH]; intros p bit ri info Hbit Hn Hri Hm Hlo HL He Ho;
    [lia |].
  assert (Hq : 0 < 2 ^ Z.of_nat p) by (apply Z.pow_pos_nonneg; lia).
  rewrite update1_loop_eq.
  destruct (Z.ltb_spec (Z.pos bit) N) as [Hlt | Hge].
  - assert (Eb : Z.pos bit~0 = 2 ^ Z.of_nat (S p)).
    { rewrite Nat2Z.inj_succ, Z.pow_succ_r, <- Hbit by lia. reflexivity. }
    assert (Es : 2 ^ Z.of_nat (S p) = 2 * 2 ^ Z.of_nat p)
      by (rewrite Nat2Z.inj_succ, Z.pow_succ_r by lia; reflexivity).
    rewrite Hbit, band_pow2 by lia.
    destruct (testbit_pred_split p ri) as [(T & Hm') | (T & Hm')];
      try lia; try assumption; rewrite T; cbn [negb].
    + (* bit p of ri is clear: move to the end of the next block *)
      destruct (Z.geb_spec (ri + 2 ^ Z.of_nat p) N) as [Hout | Hin].
      * split; [exact HL |]. split; [exact He |].
        intros k Hk. rewrite (Ho k Hk).
        destruct (Z.leb_spec k ri) as [Hle | Hgt].
        -- rewrite andb_true_r. reflexivity.
        -- rewrite andb_false_r.
           rewrite (covers_gap p ri r k) by (try assumption; lia).
           reflexivity.
      * set (ri' := ri + 2 ^ Z.of_nat p) in *.
        assert (Hidx : 0 <= ri' * 2 + 1 < Z.of_nat (length info)) by lia.
        apply (IH (S p)); try assumption; try lia.
        -- replace (ri' + 1) with (ri + 1 + 2 ^ Z.of_nat p) by (unfold ri'; lia).
           exact Hm'.
        -- rewrite add_at_length_in by exact Hidx. exact HL.
        -- intros k Hk. rewrite get_add_at_other by lia. apply He. exact Hk.
        -- intros k Hk.
           destruct (Z.eq_dec k ri') as [-> | Hne].
           ++ rewrite get_add_at_same by exact Hidx.
              rewrite (Ho ri' Hk).
              replace (ri' <=? ri) with false by (symmetry; apply Z.leb_gt; lia).
              rewrite andb_false_r.
              unfold ri'. rewrite covers_step by (try assumption; lia).
              fold ri'. rewrite Z.leb_refl. reflexivity.
           ++ rewrite get_add_at_other by lia. rewrite (Ho k Hk).
              destruct (Z.leb_spec k ri) as [Hle | Hgt].
              ** replace (k <=? ri') with true by (symmetry; apply Z.leb_le; lia).
                 reflexivity.
              ** rewrite andb_false_r.
                 destruct (Z.leb_spec k ri') as [Hle' | Hgt'].
                 --- rewrite (covers_gap p ri r k) by (try assumption; lia).
                     reflexivity.
                 --- rewrite andb_false_r. reflexivity.
    + (* bit p of ri is set: the block of double size ends at ri as well *)
      apply (IH (S p)); try assumption; lia.
  - (* bit >= len: every row is at or below ri *)
    assert (Hall : N - 1 <= ri).
    { apply Z.div_exact in Hm; [| lia].
      set (c := (ri + 1) / 2 ^ Z.of_nat p) in *.
      assert (0 < c) by nia. nia. }
    split; [exact HL |]. split; [exact He |].
    intros k Hk. rewrite (Ho k Hk).
    replace (k <=? ri) with true by (symmetry; apply Z.leb_le; lia).
    rewrite andb_true_r. reflexivity.
Qed.

End Propagation.

Lemma rowHeight_fin p ri : exists v, rowHeight p ri = Fin v.
Proof.
  unfold rowHeight. destruct (ri <? 0); [eexists; reflexivity |].
  destruct (nth_error (list p) (Z.to_nat ri)) as [row |]; [| eexists; reflexivity].
  destruct (height row); eexists; reflexivity.
Qed.

(** the cells of [rowInfo] after a point update of row [r] that changes the
    height by [D] *)
Lemma update1_cells p st r :
  Z.of_nat (length (rowInfo st)) = 2 * listLength st ->
  listLength st < 2 ^ 31 ->
  0 <= r < listLength st ->
  JS.is_zero (JS.sub (rowHeight p r) (JS.get (rowInfo st) (r * 2))) = false ->
  let D := JS.sub (rowHeight p r) (JS.get (rowInfo st) (r * 2)) in
  Z.of_nat (length (rowInfo (update1 p st r))) = 2 * listLength st /\
  (forall k, 0 <= k < listLength st ->
     JS.get (rowInfo (update1 p st r)) (k * 2) =
     if k =? r then JS.add (JS.get (rowInfo st) (k * 2)) D
     else JS.get (rowInfo st) (k * 2)) /\
  (forall k, 0 <= k < listLength st ->
     JS.get (rowInfo (update1 p st r)) (k * 2 + 1) =
     if covers k r then JS.add (JS.get (rowInfo st) (k * 2 + 1)) D
     else JS.get (rowInfo st) (k * 2 + 1)).
Proof.
  intros HL HN Hr Hz D. unfold update1. cbv zeta. rewrite Hz. fold D.
  cbn [rowInfo with_rowInfo with_index].
  set (a0 := rowInfo st) in *. set (N := listLength st) in *.
  set (a1 := JS.add_at (JS.add_at a0 (r * 2) D) (r * 2 + 1) D).
  assert (L0 : length (JS.add_at a0 (r * 2) D) = length a0)
    by (apply add_at_length_in; lia).
  assert (L1 : length a1 = length a0)
    by (unfold a1; rewrite add_at_length_in; [exact L0 | lia]).
  assert (E1 : forall k, 0 <= k < N ->
             JS.get a1 (k * 2) =
             if k =? r then JS.add (JS.get a0 (k * 2)) D else JS.get a0 (k * 2)).
  { intros k Hk. unfold a1. rewrite get_add_at_other by lia.
    destruct (Z.eqb_spec k r) as [-> | Hne].
    - apply get_add_at_same. lia.
    - apply get_add_at_other; lia. }
  destruct (update1_loop_cells a0 a1 N r D HN Hr (S (Z.to_nat (N - 1))) 0%nat
              1%positive r a1) as (G1 & G2 & G3); try lia.
  - change (2 ^ Z.of_nat 0) with 1. apply Z.mod_1_r.
  - intros k Hk. reflexivity.
  - intros k Hk. unfold a1.
    destruct (Z.eq_dec k r) as [-> | Hne].
    + rewrite get_add_at_same by lia. rewrite get_add_at_other by lia.
      rewrite covers_self by lia. rewrite Z.leb_refl. reflexivity.
    + rewrite !get_add_at_other by lia.
      destruct (Z.leb_spec k r) as [Hle | Hgt].
      * rewrite covers_below by lia. reflexivity.
      * rewrite andb_false_r. reflexivity.
  - split; [exact G1 |]. split; [| exact G3].
    intros k Hk. rewrite G2 by exact Hk. apply E1. exact Hk.
Qed.

(** the structure documented at [rowInfo] is kept by [update1] at a row of
    the index *)
Lemma update1_acc_ok p st r :
  acc_ok st -> listLength st < 2 ^ 31 -> 0 <= r < listLength st ->
  acc_ok (update1 p st r).
Proof.
  intros Hok HN Hr.
  destruct (JS.is_zero (JS.sub (rowHeight p r) (JS.get (rowInfo st) (r * 2))))
    eqn:Hz.
  { rewrite update1_synced by exact Hz. exact Hok. }
  destruct Hok as [HL Hacc].
  destruct (update1_cells p st r HL HN Hr Hz) as (G1 & G2 & G3).
  destruct (update1_frame p st r) as (FL & _).
  destruct (rowHeight_fin p r) as [v Hv].
  destruct (Hacc r Hr) as (hr & cr & Hhr & _ & _).
  rewrite Hv, Hhr in G2, G3. cbn [JS.sub] in G2, G3.
  set (d := (v - hr)%Q) in *.
  assert (Hh : forall j, 0 <= j < listLength st ->
             (heightAt (rowInfo (update1 p st r)) j ==
              heightAt (rowInfo st) j + (if j =? r then d else 0))%Q).
  { intros j Hj. unfold heightAt. rewrite (G2 j Hj).
    destruct (Hacc j Hj) as (h & c & Hh & _ & _). rewrite Hh.
    destruct (j =? r); cbn [JS.add cellQ]; ring. }
  split; [rewrite FL; exact G1 |].
  rewrite FL. intros k Hk.
  destruct (Hacc k Hk) as (h & c & Hh0 & Hc0 & Hs0).
  pose proof (blockSum_bump (rowInfo st) (rowInfo (update1 p st r))
                (listLength st) r d k ltac:(lia) Hh Hk) as Hb.
  rewrite (G2 k Hk), (G3 k Hk), Hh0, Hc0.
  destruct (covers k r); destruct (k =? r); cbn [JS.add];
    eexists; eexists; (split; [reflexivity |]); (split; [reflexivity |]);
    rewrite Hb, Hs0; ring.
Qed.

Lemma fold_update1_acc_ok p l : forall st,
  acc_ok st -> listLength st < 2 ^ 31 ->
  (forall ri, In ri l -> 0 <= ri < listLength st) ->
  acc_ok (fold_left (update1 p) l st).
Proof.
  induction l as [| ri l IH]; intros st Hok HN Hin; simpl; [exact Hok |].
  destruct (update1_frame p st ri) as (FL & _).
  apply IH.
  - apply update1_acc_ok; [exact Hok | exact HN |]. apply Hin. left. reflexivity.
  - rewrite FL. exact HN.
  - intros r Hr. rewrite FL. apply Hin. right. exact Hr.
Qed.

(** [updateRange] from a row index that is not negative keeps the structure *)
Lemma updateRange_acc_ok p st from to :
  acc_ok st -> listLength st < 2 ^ 31 -> 0 <= from ->
  acc_ok (updateRange p st from to).
Proof.
  intros Hok HN Hf. unfold updateRange.
  apply fold_update1_acc_ok; [exact Hok | exact HN |].
  intros ri Hri. apply range_In in Hri.
  destruct (Z.gtb_spec to (listLength st)); lia.
Qed.

(** ** Truncation keeps the accumulator structure *)

Lemma truncate_acc_ok st n :
  acc_ok st -> 0 <= n <= listLength st ->
  acc_ok (with_index st (JS.splice (rowInfo st) (n * 2)) n).
Proof.
  intros [HL Hacc] Hn. unfold acc_ok, JS.splice.
  cbn [rowInfo listLength with_index].
  split; [rewrite length_firstn; lia |].
  intros i Hi. destruct (Hacc i ltac:(lia)) as (h & c & Hh & Hc & Hs).
  exists h, c. rewrite !get_firstn by lia.
  split; [exact Hh |]. split; [exact Hc |].
  rewrite Hs. unfold blockSum.
  pose proof (lowbit_pos_lt (i + 1) ltac:(lia)) as Hs1.
  pose proof (lowbit_le (i + 1) ltac:(lia)) as Hs2.
  fold (blockSize i) in Hs1, Hs2.
  rewrite !prefixSum_truncate by lia. reflexivity.
Qed.

(** ** Prefix sums from the accumulator *)

Lemma getRowTop_loop_spec st k :
  acc_ok st -> listLength st < 2 ^ 31 -> 0 <= k <= listLength st ->
  forall n (p : nat) bit ri s,
    Z.pos bit = 2 ^ Z.of_nat p ->
    (Z.to_nat (k + 1 - Z.pos bit) < n)%nat ->
    0 <= ri <= k ->
    ri mod 2 ^ Z.of_nat p = 0 ->
    (s + prefixSum (rowInfo st) ri == prefixSum (rowInfo st) k)%Q ->
    is_fin (getRowTop_loop (rowInfo st) k bit ri (Fin s))
           (prefixSum (rowInfo st) k).
Proof.
  intros Hok HN Hk.
  induction n as [| n IH]; intros p bit ri s Hbit Hn Hri Hm Hs; [lia |].
  rewrite getRowTop_loop_eq.
  destruct (Z.leb_spec (Z.pos bit) k) as [Hle | Hgt].
  - assert (Eb : Z.pos bit~0 = 2 ^ Z.of_nat (S p)).
    { rewrite Nat2Z.inj_succ, Z.pow_succ_r, <- Hbit by lia. reflexivity. }
    rewrite Hbit, band_pow2 by lia. rewrite negb_involutive.
    destruct (testbit_split p ri) as [(T & Hge & Hm') | (T & Hm')];
      try lia; try assumption; rewrite T.
    + destruct (acc_ok_block st p (ri - 2 ^ Z.of_nat p) Hok)
        as (a & Ha & Hsum); try lia; try assumption.
      replace (ri - 2 ^ Z.of_nat p + 2 ^ Z.of_nat p) with ri in Ha, Hsum by lia.
      rewrite Ha. cbn [JS.add].
      apply (IH (S p)); try assumption; try lia.
      lra.
    + apply (IH (S p)); try assumption; lia.
  - assert (E : ri = 0).
    { rewrite Z.mod_small in Hm by lia. exact Hm. }
    subst ri. rewrite prefixSum_nonpos in Hs by lia.
    simpl. lra.
Qed.

(** [getRowTop] on an index with the accumulator structure: the direct sum
    of the stored heights *)
Lemma getRowTop_prefixSum st k :
  acc_ok st -> listLength st < 2 ^ 31 -> 0 <= k <= listLength st ->
  is_fin (getRowTop st k) (prefixSum (rowInfo st) k).
Proof.
  intros Hok HN Hk. unfold getRowTop.
  rewrite Z.min_l by lia.
  apply (getRowTop_loop_spec st k Hok HN Hk (S (Z.to_nat k)) 0%nat);
    [reflexivity | lia | lia | | lra].
  change (2 ^ Z.of_nat 0) with 1. apply Z.mod_1_r.
Qed.

(** ** Locating a row *)

Section Locate.

Variable st : State.
Hypothesis Hok : acc_ok st.
Variable q : Q.

Lemma getRowIdx_loop_spec : forall (p : nat) ri r,
  0 <= ri <= listLength st ->
  ri mod 2 ^ Z.of_nat p = 0 ->
  (r == q - prefixSum (rowInfo st) ri)%Q ->
  (0 <= r)%Q ->
  (ri + 2 ^ Z.of_nat p <= listLength st ->
   (q < prefixSum (rowInfo st) (ri + 2 ^ Z.of_nat p))%Q) ->
  ri <= getRowIdx_loop (rowInfo st) (2 ^ Z.of_nat p / 2) ri (Fin r) <= listLength st /\
  located st q (getRowIdx_loop (rowInfo st) (2 ^ Z.of_nat p / 2) ri (Fin r)).
Proof.
  induction p as [| p IH]; intros ri r Hri Hm Hr H0 Hup.
  - change (2 ^ Z.of_nat 0 / 2) with 0.
    rewrite getRowIdx_loop_eq. simpl.
    split; [lia |]. split; [lra |].
    intros Hlt. apply Hup. change (2 ^ Z.of_nat 0) with 1. lia.
  - assert (Hq : 0 < 2 ^ Z.of_nat p) by (apply Z.pow_pos_nonneg; lia).
    assert (Eb : 2 ^ Z.of_nat (S p) / 2 = 2 ^ Z.of_nat p).
    { rewrite Nat2Z.inj_succ, Z.pow_succ_r by lia.
      rewrite Z.mul_comm. apply Z.div_mul. lia. }
    assert (Es : 2 ^ Z.of_nat (S p) = 2 ^ Z.of_nat p + 2 ^ Z.of_nat p).
    { rewrite Nat2Z.inj_succ, Z.pow_succ_r by lia. lia. }
    destruct (mod_pow2_half p ri Hm) as [Hm1 Hm2].
    rewrite Eb, getRowIdx_loop_eq.
    destruct (Z.leb_spec 1 (2 ^ Z.of_nat p)) as [_ | Hbad]; [| lia].
    cbv zeta.
    destruct (Z.le_gt_cases (ri + 2 ^ Z.of_nat p) (listLength st)) as [Hin | Hout].
    + destruct (acc_ok_block st p ri Hok) as (a & Ha & Hs); try lia; try assumption.
      rewrite Ha. cbn [JS.ge JS.sub].
      destruct (Qle_bool a r) eqn:Hcmp.
      * apply Qle_bool_iff in Hcmp.
        destruct (IH (ri + 2 ^ Z.of_nat p) (r - a)%Q) as [Hb Hl];
          try lia; try assumption; try lra.
        { intros Hle. rewrite <- Z.add_assoc, <- Es. apply Hup. lia. }
        split; [lia | exact Hl].
      * assert (Hlt : (r < a)%Q).
        { apply Qnot_le_lt. intros Hle. apply Qle_bool_iff in Hle. congruence. }
        apply IH; try lia; try assumption.
        intros _. lra.
    + rewrite get_overflow by (destruct Hok as [HL _]; lia).
      cbn [JS.ge].
      apply IH; try lia; try assumption.
Qed.

(** [getRowIdx] on a well-formed index, for an offset that is not negative:
    the row found starts at or before the offset, and the next row, when
    there is one, starts after it *)
Lemma getRowIdx_locate :
  (0 <= q)%Q ->
  0 <= getRowIdx st (Fin q) <= listLength st /\
  located st q (getRowIdx st (Fin q)).
Proof.
  intros H0. unfold getRowIdx, JS.lt.
  assert (E : Qle_bool 0 q = true) by (apply Qle_bool_iff; exact H0).
  rewrite E. cbn [negb]. unfold bpt.
  pose proof (acc_ok_length st Hok) as HN.
  destruct (Z.leb_spec (listLength st) 0) as [Hz | Hpos].
  - rewrite getRowIdx_loop_eq. simpl.
    split; [lia |]. split.
    + rewrite prefixSum_nonpos by lia. exact H0.
    + intros Hlt. lia.
  - pose proof (Z.log2_spec (listLength st) Hpos) as [Hlo Hhi].
    pose proof (Z.log2_nonneg (listLength st)) as Hlog.
    assert (Eb : 2 ^ Z.log2 (listLength st) = 2 ^ Z.of_nat (S (Z.to_nat (Z.log2 (listLength st)))) / 2).
    { rewrite Nat2Z.inj_succ, Z2Nat.id, Z.pow_succ_r by lia.
      rewrite Z.mul_comm. symmetry. apply Z.div_mul. lia. }
    rewrite Eb.
    apply getRowIdx_loop_spec.
    + lia.
    + apply Z.mod_0_l. apply Z.pow_nonzero; lia.
    + rewrite prefixSum_nonpos by lia. lra.
    + exact H0.
    + intros Hle. rewrite Nat2Z.inj_succ, Z2Nat.id in Hle by lia.
      rewrite Z.add_0_l in Hle. lia.
Qed.

End Locate.

(** the three cases of [getRowIdx] on an index with the accumulator
    structure and no negative height: the sentinel -1 before the start, the
    only row that contains the offset, and N past the end *)
Lemma getRowIdx_correct st q :
  acc_ok st -> nonneg_heights st ->
  ((q < 0)%Q -> getRowIdx st (Fin q) = -1) /\
  ((0 <= q < prefixSum (rowInfo st) (listLength st))%Q ->
   0 <= getRowIdx st (Fin q) < listLength st /\
   (prefixSum (rowInfo st) (getRowIdx st (Fin q)) <= q
    < prefixSum (rowInfo st) (getRowIdx st (Fin q) + 1))%Q /\
   forall j, 0 <= j < listLength st ->
     (prefixSum (rowInfo st) j <= q < prefixSum (rowInfo st) (j + 1))%Q ->
     j = getRowIdx st (Fin q)) /\
  ((0 <= q)%Q -> (prefixSum (rowInfo st) (listLength st) <= q)%Q ->
   getRowIdx st (Fin q) = listLength st).
Proof.
  intros Hok Hnn. split; [| split].
  - intros Hq. unfold getRowIdx, JS.lt.
    destruct (Qle_bool 0 q) eqn:E; [| reflexivity].
    apply Qle_bool_iff in E. lra.
  - intros [H0 Ht].
    destruct (getRowIdx_locate st Hok q H0) as [Hb [Hle Hnext]].
    set (i := getRowIdx st (Fin q)) in *.
    assert (Hlt : i < listLength st).
    { destruct (Z.eq_dec i (listLength st)) as [E | E]; [| lia].
      rewrite E in Hle. lra. }
    specialize (Hnext Hlt).
    split; [lia |]. split; [split; assumption |].
    intros j Hj [Hj1 Hj2].
    destruct (Z.lt_trichotomy j i) as [Hji | [Hji | Hji]]; [| exact Hji |].
    + pose proof (prefixSum_le st (j + 1) i Hnn ltac:(lia) ltac:(lia)). lra.
    + pose proof (prefixSum_le st (i + 1) j Hnn ltac:(lia) ltac:(lia)). lra.
  - intros H0 Ht.
    destruct (getRowIdx_locate st Hok q H0) as [Hb [Hle Hnext]].
    set (i := getRowIdx st (Fin q)) in *.
    destruct (Z.eq_dec i (listLength st)) as [E | E]; [exact E |].
    specialize (Hnext ltac:(lia)).
    pose proof (prefixSum_le st (i + 1) (listLength st) Hnn ltac:(lia) ltac:(lia)).
    lra.
Qed.

(** ** The index without growth *)

(** [update] keeps the structure when it initializes or truncates *)
Lemma update_acc_ok p st :
  acc_ok st -> listLength st < 2 ^ 31 -> 0 <= startIdx st ->
  fits p -> no_growth p st ->
  acc_ok (update p st) /\ listLength (update p st) < 2 ^ 31.
Proof.
  intros Hok HN Hs Hfit Hng. unfold fits in Hfit. unfold update.
  pose proof (acc_ok_length st Hok) as H0.
  set (len := Z.of_nat (length (list p))) in *.
  assert (Hmid : forall s, acc_ok s -> listLength s < 2 ^ 31 ->
                           startIdx s = startIdx st ->
           acc_ok (updateRange p s (startIdx s) (endIdx s)) /\
           listLength (updateRange p s (startIdx s) (endIdx s)) < 2 ^ 31).
  { intros s Hoks HNs Hss.
    destruct (updateRange_frame p s (startIdx s) (endIdx s)) as (FL & _).
    split; [apply updateRange_acc_ok; (assumption || lia) | rewrite FL; exact HNs]. }
  destruct (Z.eqb_spec (listLength st) 0) as [Hz | Hnz].
  - apply Hmid; [apply updateAll_acc_ok; exact Hfit | exact Hfit | reflexivity].
  - destruct Hng as [Hz | Hle]; [lia |]. fold len in Hle.
    destruct (Z.ltb_spec len (listLength st)) as [Hlt | Hge].
    + apply Hmid; [apply truncate_acc_ok; [exact Hok | lia] | exact Hfit | reflexivity].
    + destruct (Z.gtb_spec len (listLength st)) as [Hgt | _]; [lia |].
      apply Hmid; [exact Hok | exact HN | reflexivity].
Qed.

(** every state reached without growth has the documented structure *)
Lemma steady_acc_ok st :
  reachable_without_growth st ->
  acc_ok st /\ listLength st < 2 ^ 31 /\ 0 <= startIdx st.
Proof.
  induction 1 as [| p st Hst IH Hfit | p st Hst IH Hfit Hng
                  | p st i Hst IH Hi | p d st Hst IH Hfit Hng].
  - split; [| split; simpl; lia].
    split; [reflexivity | intros i Hi; simpl in Hi; lia].
  - destruct IH as (Hok & HN & Hs).
    split; [apply updateAll_acc_ok; exact Hfit |].
    split; [exact Hfit | exact Hs].
  - destruct IH as (Hok & HN & Hs).
    destruct (update_acc_ok p st Hok HN Hs Hfit Hng) as [Hok' HN'].
    destruct (update_frame p st) as (F1 & _).
    split; [exact Hok' |]. split; [exact HN' | rewrite F1; exact Hs].
  - destruct IH as (Hok & HN & Hs).
    destruct (update1_frame p st i) as (FL & F1 & _).
    split; [apply update1_acc_ok; assumption |].
    split; [rewrite FL; exact HN | rewrite F1; exact Hs].
  - destruct IH as (Hok & HN & Hs).
    destruct (update_acc_ok p st Hok HN Hs Hfit Hng) as [Hok' HN'].
    destruct (redraw_index p d st) as (E1 & E2 & E3).
    split; [exact (acc_ok_ext _ _ E1 E2 Hok') |].
    split; [rewrite E2; exact HN' | exact (E3 Hs)].
Qed.

(** without growth, [getRowTop] is the direct sum of the stored heights *)
Lemma steady_getRowTop st k :
  reachable_without_growth st -> 0 <= k <= listLength st ->
  is_fin (getRowTop st k) (prefixSum (rowInfo st) k).
Proof.
  intros Hst Hk. destruct (steady_acc_ok st Hst) as (Hok & HN & _).
  apply getRowTop_prefixSum; assumption.
Qed.

(** without growth, [getRowIdx] locates the row of an offset *)
Lemma steady_getRowIdx st q :
  reachable_without_growth st -> (0 <= q)%Q ->
  0 <= getRowIdx st (Fin q) <= listLength st /\
  located st q (getRowIdx st (Fin q)).
Proof.
  intros Hst Hq. destruct (steady_acc_ok st Hst) as (Hok & _).
  apply getRowIdx_locate; assumption.
Qed.

(** ** Ties between rows of height 0 *)

(** C10, as the code has it.  Tie-breaking of locate: on an index with the
    accumulator structure whose heights are whole numbers of pixels, none
    negative, for a whole offset with 0 <= offset < total height,
    [getRowIdx(offset)] is a row index whose prefix sum is at most the
    offset, and it is the largest such index; when several indices share a
    prefix sum equal to the offset (rows of height 0), it is the greatest of
    them. *)
Theorem getRowIdx_greatest st q :
  acc_ok st ->
  nonneg_heights st ->
  listLength st < 2 ^ 31 ->
  px_index st ->
  px_offset (Fin q) ->
  (0 <= q < prefixSum (rowInfo st) (listLength st))%Q ->
  let i := getRowIdx st (Fin q) in
  0 <= i < listLength st /\
  (prefixSum (rowInfo st) i <= q)%Q /\
  (forall j, 0 <= j <= listLength st ->
             (prefixSum (rowInfo st) j <= q)%Q -> j <= i) /\
  (forall j, 0 <= j <= listLength st ->
             (prefixSum (rowInfo st) j == q)%Q ->
             j <= i /\ (prefixSum (rowInfo st) i == q)%Q).
Proof.
  intros Hok Hnn _ _ _ [H0 Ht] i.
  destruct (getRowIdx_locate st Hok q H0) as [Hb [Hle Hnext]].
  fold i in Hb, Hle, Hnext.
  assert (Hlt : i < listLength st).
  { destruct (Z.eq_dec i (listLength st)) as [E | E]; [| lia].
    rewrite E in Hle. lra. }
  specialize (Hnext Hlt).
  assert (Hmax : forall j, 0 <= j <= listLength st ->
                           (prefixSum (rowInfo st) j <= q)%Q -> j <= i).
  { intros j Hj Hjq.
    destruct (Z.le_gt_cases j i) as [Hji | Hji]; [exact Hji |].
    pose proof (prefixSum_le st (i + 1) j Hnn ltac:(lia) ltac:(lia)) as Hm.
    lra. }
  split; [lia |]. split; [exact Hle |]. split; [exact Hmax |].
  intros j Hj Hjq.
  assert (Hji : j <= i) by (apply Hmax; [exact Hj | lra]).
  split; [exact Hji |].
  pose proof (prefixSum_le st j i Hnn ltac:(lia) ltac:(lia)) as Hm.
  lra.
Qed.

Lemma getRowIdx_greatest_witness :
  let i := getRowIdx Flat.st (Fin 20) in
  0 <= i < listLength Flat.st /\
  (prefixSum (rowInfo Flat.st) i <= 20)%Q /\
  (forall j, 0 <= j <= listLength Flat.st ->
             (prefixSum (rowInfo Flat.st) j <= 20)%Q -> j <= i) /\
  (forall j, 0 <= j <= listLength Flat.st ->
             (prefixSum (rowInfo Flat.st) j == 20)%Q ->
             j <= i /\ (prefixSum (rowInfo Flat.st) i == 20)%Q).
Proof.
  apply (getRowIdx_greatest Flat.st 20).
  - apply acc_okb_sound. vm_compute. reflexivity.
  - apply nonneg_heightsb_sound. vm_compute. reflexivity.
  - vm_compute. reflexivity.
  - apply px_indexb_sound. vm_compute. reflexivity.
  - apply (whole_uptob_sound (2 ^ 40)). vm_compute. reflexivity.
  - split; vm_compute; [discriminate | reflexivity].
Defined.

(** C10, as the claim states it, fails in two ways.  On an index that has
    grown: one row of height 20, then two rows of heights 0 and 30 are
    appended; the row tops are 0, 20, 20 and the total is 50, so the largest
    index whose prefix sum is at most 10 is 0, and [getRowIdx(10)] returns
    2, whose prefix sum is 20.  And on the Numbers of the script, with the
    structure intact: heights 50.3, 41.6, 41.6 and 24; the top of row 3 is
    133.5 and the total 157.5, both by [getRowTop] and by adding the stored
    heights one by one, and [getRowIdx(133.5)] returns 2. *)
Lemma getRowIdx_greatest_counterexample :
  reachable GrowFlat.st3 /\
  map (prefixSum (rowInfo GrowFlat.st3)) [0; 1; 2; 3] = [0; 20; 20; 50]%Q /\
  getRowIdx GrowFlat.st3 (Fin 10) = 2 /\
  ~ (prefixSum (rowInfo GrowFlat.st3) (getRowIdx GrowFlat.st3 (Fin 10))
     <= 10)%Q /\
  map (fun i => F64.get (Dbl.rowInfo Round64.st) (i * 2)) [0; 1; 2; 3] =
    [50.3; 41.6; 41.6; 24]%float /\
  F64.add (F64.add 50.3 41.6) 41.6 = 133.5%float /\
  Dbl.getRowTop Round64.st 3 = 133.5%float /\
  Dbl.getTotalRowHeight Round64.st = 157.5%float /\
  Dbl.getRowIdx Round64.st 133.5%float = 2.
Proof.
  split.
  { unfold GrowFlat.st3, GrowFlat.st1.
    apply reach_update; [apply reach_update; [apply reach_init |] |];
      vm_compute; reflexivity. }
  repeat split; try (vm_compute; reflexivity).
  vm_compute. intros H. apply H. reflexivity.
Qed.

(** rows 1 and 2 have height 0: offset 20 is the top of rows 1, 2 and 3, and
    the descent returns 3 *)
Example getRowIdx_flat :
  map (prefixSum (rowInfo Flat.st)) [0; 1; 2; 3; 4] = [0; 20; 20; 20; 50]%Q /\
  getRowIdx Flat.st (Fin 20) = 3.
Proof. split; vm_compute; reflexivity. Qed.

(** ** Growing the index *)

(** C1.  One row of height 20, then [update] with a list of two rows: the
    accumulator cell of the new row does not receive the height of row 0, and
    [getRowTop(2)] is 20 where the stored heights sum to 40. *)
Theorem getRowTop_after_grow :
  reachable Grow.st2 /\
  listLength Grow.st2 = 2 /\
  getRowTop Grow.st2 2 = Fin 20 /\
  (prefixSum (rowInfo Grow.st2) 2 == 40)%Q /\
  ~ is_fin (getRowTop Grow.st2 2) (prefixSum (rowInfo Grow.st2) 2).
Proof.
  split.
  { unfold Grow.st2, Grow.st1.
    apply reach_update; [apply reach_update; [apply reach_init |] |];
      vm_compute; reflexivity. }
  repeat split; try (vm_compute; reflexivity).
  vm_compute. discriminate.
Qed.

(** C2.  In the same grown index the heights are 20 and 20, so offset 25
    lies in row 1 (20 <= 25 < 40), and [getRowIdx(25)] returns 2. *)
Theorem getRowIdx_after_grow :
  reachable Grow.st2 /\
  (prefixSum (rowInfo Grow.st2) 1 <= 25 < prefixSum (rowInfo Grow.st2) 2)%Q /\
  (0 <= 25 < prefixSum (rowInfo Grow.st2) (listLength Grow.st2))%Q /\
  getRowIdx Grow.st2 (Fin 25) = 2.
Proof.
  split.
  { unfold Grow.st2, Grow.st1.
    apply reach_update; [apply reach_update; [apply reach_init |] |];
      vm_compute; reflexivity. }
  repeat split; try (vm_compute; reflexivity); vm_compute; discriminate.
Qed.

(** C3.  In the same grown index rowInfo has length 2N = 4, but for i = 1,
    whose block size is 2, [rowInfo[3]] is 20 and not h(0)+h(1) = 40. *)
Theorem rowInfo_after_grow :
  Grow.st2 = update Grow.props2 Grow.st1 /\
  listLength Grow.st2 = 2 /\
  rowInfo Grow.st2 = [Fin 20; Fin 20; Fin 20; Fin 20] /\
  blockSize 1 = 2 /\
  (blockSum (rowInfo Grow.st2) 1 == 40)%Q /\
  ~ acc_ok Grow.st2.
Proof.
  repeat split; try (vm_compute; reflexivity).
  intros [_ H].
  assert (HN : listLength Grow.st2 = 2) by (vm_compute; reflexivity).
  assert (H1 : 0 <= 1 < listLength Grow.st2) by lia.
  destruct (H 1 H1) as (h & a & _ & Ha & Hs).
  vm_compute in Ha. injection Ha as <-. vm_compute in Hs. discriminate Hs.
Qed.

(** ** Growing and shrinking back *)

(** the propagation loop of [update1] writes above the updated row only *)
Lemma update1_loop_firstn k len diff : forall n bit ri info,
  (Z.to_nat (len - Z.pos bit) < n)%nat ->
  (k <= length info)%nat -> Z.of_nat k <= ri * 2 ->
  firstn k (update1_loop len diff bit ri info) = firstn k info /\
  (length info <= length (update1_loop len diff bit ri info))%nat.
Proof.
  induction n as [| n IH]; intros bit ri info Hn Hk Hri; [lia |].
  rewrite update1_loop_eq.
  destruct (Z.ltb_spec (Z.pos bit) len) as [Hlt | Hge]; [| split; [reflexivity | lia]].
  destruct (JS.band ri (Z.pos bit) =? 0).
  - destruct (ri + Z.pos bit >=? len); [split; [reflexivity | lia] |].
    pose proof (add_at_length_ge info ((ri + Z.pos bit) * 2 + 1) diff) as Hl.
    destruct (IH (bit~0)%positive (ri + Z.pos bit)
                 (JS.add_at info ((ri + Z.pos bit) * 2 + 1) diff)) as [E L];
      try lia.
    split; [| lia].
    rewrite E. apply add_at_firstn; lia.
  - apply IH; lia.
Qed.

(** a point update at row [ri] leaves the cells of the rows below [ri] alone *)
Lemma update1_firstn p st ri k :
  (k <= length (rowInfo st))%nat -> Z.of_nat k <= ri * 2 ->
  firstn k (rowInfo (update1 p st ri)) = firstn k (rowInfo st) /\
  (length (rowInfo st) <= length (rowInfo (update1 p st ri)))%nat.
Proof.
  intros Hk Hri. unfold update1.
  destruct (JS.is_zero _); [split; [reflexivity | lia] |].
  cbn [rowInfo with_rowInfo with_index].
  set (d := JS.sub _ _).
  pose proof (add_at_length_ge (rowInfo st) (ri * 2) d) as L1.
  pose proof (add_at_length_ge (JS.add_at (rowInfo st) (ri * 2) d)
                (ri * 2 + 1) d) as L2.
  destruct (update1_loop_firstn k (listLength st) d
              (S (Z.to_nat (listLength st - 1))) 1 ri
              (JS.add_at (JS.add_at (rowInfo st) (ri * 2) d) (ri * 2 + 1) d))
    as [E L]; try lia.
  split; [| lia].
  rewrite E, add_at_firstn, add_at_firstn by lia. reflexivity.
Qed.

Lemma rowHeight_synced_prefix p (a a' : array) k ri :
  firstn k a' = firstn k a -> 0 <= ri -> ri * 2 < Z.of_nat k ->
  JS.is_zero (JS.sub (rowHeight p ri) (JS.get a (ri * 2))) = true ->
  JS.is_zero (JS.sub (rowHeight p ri) (JS.get a' (ri * 2))) = true.
Proof.
  intros E H0 Hk H.
  rewrite <- (get_firstn a' k) by exact Hk.
  rewrite E, get_firstn by exact Hk. exact H.
Qed.

(** point updates that are either above row [N] or for a row whose stored
    height is current leave the cells of the first [N] rows alone *)
Lemma fold_update1_keeps p (info0 : array) N l :
  Z.of_nat (length info0) = 2 * N ->
  (forall ri, In ri l ->
     N <= ri \/
     (0 <= ri < N /\
      JS.is_zero (JS.sub (rowHeight p ri) (JS.get info0 (ri * 2))) = true)) ->
  forall st,
    firstn (length info0) (rowInfo st) = info0 ->
    firstn (length info0) (rowInfo (fold_left (update1 p) l st)) = info0.
Proof.
  intros HL. induction l as [| ri l IH]; intros H st E; simpl; [exact E |].
  apply IH; [intros r Hr; apply H; right; exact Hr |].
  assert (Hlen : (length info0 <= length (rowInfo st))%nat).
  { rewrite <- E at 1. rewrite length_firstn. lia. }
  destruct (H ri (or_introl eq_refl)) as [Hge | [Hri Hz]].
  - destruct (update1_firstn p st ri (length info0)) as [E' _]; try lia.
    rewrite E'. exact E.
  - rewrite update1_synced; [exact E |].
    unfold row_synced.
    apply (rowHeight_synced_prefix p info0 (rowInfo st) (length info0));
      try lia; [| exact Hz].
    rewrite E. symmetry. apply firstn_all.
Qed.

(** [update] with a list no shorter than the index: the length becomes that
    of the list, the cells of the old rows stay *)
Lemma update_grow_keeps p st :
  Z.of_nat (length (rowInfo st)) = 2 * listLength st ->
  0 <= startIdx st ->
  listLength st < Z.of_nat (length (list p)) ->
  window_synced p st ->
  listLength (update p st) = Z.of_nat (length (list p)) /\
  firstn (length (rowInfo st)) (rowInfo (update p st)) = rowInfo st.
Proof.
  intros HL Hs HM Hw. unfold update.
  destruct (Z.eqb_spec (listLength st) 0) as [H0 | H0].
  - split.
    + destruct (updateRange_frame p (updateAll p st)
                  (startIdx (updateAll p st)) (endIdx (updateAll p st)))
        as (F & _).
      rewrite F. apply updateAll_listLength.
    + assert (E : rowInfo st = []) by (destruct (rowInfo st); [reflexivity | cbn [length] in HL; lia]).
      rewrite E. reflexivity.
  - destruct (Z.ltb_spec (Z.of_nat (length (list p))) (listLength st)) as [H1 | H1];
      [lia |].
    destruct (Z.gtb_spec (Z.of_nat (length (list p))) (listLength st)) as [H2 | H2];
      [| lia].
    set (M := Z.of_nat (length (list p))) in *.
    set (sa := with_index st (rowInfo st ++ JS.zeros ((M - listLength st) * 2)) M).
    set (sb := updateRange p sa (listLength st) M).
    destruct (updateRange_frame p sa (listLength st) M)
      as (Fb1 & Fb2 & Fb3 & _).
    destruct (updateRange_frame p sb (startIdx sb) (endIdx sb)) as (Fc1 & _).
    fold sb in Fb1, Fb2, Fb3.
    split; [rewrite Fc1, Fb1; reflexivity |].
    assert (Ea : firstn (length (rowInfo st)) (rowInfo sa) = rowInfo st).
    { unfold sa. cbn [rowInfo with_index].
      rewrite firstn_app, Nat.sub_diag, firstn_all. simpl.
      apply app_nil_r. }
    assert (Eb : firstn (length (rowInfo st)) (rowInfo sb) = rowInfo st).
    { unfold sb, updateRange.
      apply (fold_update1_keeps p (rowInfo st) (listLength st)); [exact HL | | exact Ea].
      intros ri Hri. apply range_In in Hri. left. lia. }
    unfold updateRange.
    apply (fold_update1_keeps p (rowInfo st) (listLength st)); [exact HL | | exact Eb].
    intros ri Hri. apply range_In in Hri.
    destruct (Z.le_gt_cases (listLength st) ri) as [Hge | Hlt]; [left; exact Hge |].
    right. rewrite Fb2 in Hri. simpl in Hri. split; [lia |].
    apply Hw; [| exact Hlt].
    rewrite Fb3 in Hri. simpl in Hri.
    destruct (Z.gtb_spec (endIdx st) (listLength sb)); lia.
Qed.

(** [update] with a list shorter than the index truncates [rowInfo] *)
Lemma update_shrink p st info0 :
  firstn (length info0) (rowInfo st) = info0 ->
  Z.of_nat (length info0) = 2 * Z.of_nat (length (list p)) ->
  Z.of_nat (length (list p)) < listLength st ->
  (forall ri, startIdx st <= ri < endIdx st ->
              ri < Z.of_nat (length (list p)) ->
              JS.is_zero (JS.sub (rowHeight p ri) (JS.get info0 (ri * 2))) = true) ->
  rowInfo (update p st) = info0 /\
  listLength (update p st) = Z.of_nat (length (list p)).
Proof.
  intros E HL HN Hw. unfold update.
  destruct (Z.eqb_spec (listLength st) 0) as [H0 | H0]; [lia |].
  destruct (Z.ltb_spec (Z.of_nat (length (list p))) (listLength st)) as [H1 | H1];
    [| lia].
  set (N := Z.of_nat (length (list p))) in *.
  assert (Es : JS.splice (rowInfo st) (N * 2) = info0).
  { unfold JS.splice. replace (Z.to_nat (N * 2)) with (length info0) by lia.
    exact E. }
  rewrite Es.
  rewrite updateRange_synced; [split; reflexivity |].
  intros ri Hri Hlt. unfold row_synced. cbn [rowInfo with_index].
  apply Hw; assumption.
Qed.

(** [update] with a list as long as the index, whose window rows carry the
    stored heights, changes nothing *)
Lemma update_same p st :
  Z.of_nat (length (rowInfo st)) = 2 * listLength st ->
  0 <= startIdx st ->
  Z.of_nat (length (list p)) = listLength st ->
  window_synced p st ->
  rowInfo (update p st) = rowInfo st /\
  listLength (update p st) = listLength st.
Proof.
  intros HL Hs HN Hw. unfold update.
  destruct (Z.eqb_spec (listLength st) 0) as [H0 | H0].
  - assert (E : list p = []) by (destruct (list p); [reflexivity | cbn [length] in HN; lia]).
    assert (E' : rowInfo st = [])
      by (destruct (rowInfo st); [reflexivity | cbn [length] in HL; lia]).
    unfold updateAll. rewrite E. cbn [length Z.of_nat].
    unfold updateRange. cbn [listLength with_index startIdx endIdx].
    rewrite range_nil by (destruct (Z.gtb_spec (endIdx st) 0); lia).
    simpl. rewrite E', H0. split; reflexivity.
  - rewrite HN, Z.ltb_irrefl, Z.gtb_ltb, Z.ltb_irrefl.
    rewrite updateRange_synced; [split; reflexivity | exact Hw].
Qed.

(** growing by [update] and shrinking back by [update] restores the index *)
Lemma resize_restores p1 p2 st :
  Z.of_nat (length (rowInfo st)) = 2 * listLength st ->
  0 <= startIdx st ->
  listLength st <= Z.of_nat (length (list p1)) ->
  Z.of_nat (length (list p2)) = listLength st ->
  window_synced p1 st ->
  window_synced p2 st ->
  rowInfo (update p2 (update p1 st)) = rowInfo st /\
  listLength (update p2 (update p1 st)) = listLength st.
Proof.
  intros HL Hs HM HN Hw1 Hw2.
  destruct (update_frame p1 st) as (F1 & F2 & _).
  destruct (Z.eq_dec (Z.of_nat (length (list p1))) (listLength st)) as [Heq | Hne].
  - destruct (update_same p1 st HL Hs Heq Hw1) as [E1 L1].
    assert (Hw2' : window_synced p2 (update p1 st)).
    { intros ri Hri Hlt. unfold row_synced. rewrite E1.
      apply Hw2; congruence. }
    assert (HL' : Z.of_nat (length (rowInfo (update p1 st))) =
                  2 * listLength (update p1 st)) by congruence.
    assert (Hs' : 0 <= startIdx (update p1 st)) by congruence.
    assert (HN' : Z.of_nat (length (list p2)) = listLength (update p1 st))
      by congruence.
    destruct (update_same p2 (update p1 st) HL' Hs' HN' Hw2') as [E2 L2].
    split; congruence.
  - destruct (update_grow_keeps p1 st HL Hs) as [L1 E1]; [lia | exact Hw1 |].
    destruct (update_shrink p2 (update p1 st) (rowInfo st)) as [E2 L2];
      try assumption; try lia.
    + intros ri Hri Hlt. apply Hw2; congruence.
    + split; congruence.
Qed.

(** C8, as the code has it.  Resize round-trip: from an index of length N,
    [update] with a list of length M >= N and then [update] with a list of
    length N restore [getRowTop(k)] for every k <= N, when the rows of the
    current window carry in both lists the heights that the index stores. *)
Theorem resize_round_trip p1 p2 st :
  Z.of_nat (length (rowInfo st)) = 2 * listLength st ->
  0 <= startIdx st ->
  listLength st <= Z.of_nat (length (list p1)) ->
  Z.of_nat (length (list p2)) = listLength st ->
  window_synced p1 st ->
  window_synced p2 st ->
  forall k, k <= listLength st ->
    getRowTop (update p2 (update p1 st)) k = getRowTop st k.
Proof.
  intros HL Hs HM HN Hw1 Hw2 k Hk.
  destruct (resize_restores p1 p2 st HL Hs HM HN Hw1 Hw2) as [E L].
  unfold getRowTop. rewrite E, L. reflexivity.
Qed.

Lemma resize_round_trip_witness :
  getRowTop (update Resize.props5 (update Resize.props8 Resize.st)) 5 =
  getRowTop Resize.st 5.
Proof.
  apply (resize_round_trip Resize.props8 Resize.props5 Resize.st).
  - vm_compute. reflexivity.
  - vm_compute. discriminate.
  - vm_compute. discriminate.
  - vm_compute. reflexivity.
  - intros ri H1 H2.
    assert (Es : startIdx Resize.st = 0) by (vm_compute; reflexivity).
    assert (Ee : endIdx Resize.st = 1) by (vm_compute; reflexivity).
    assert (E : ri = 0) by lia.
    subst ri. vm_compute. reflexivity.
  - intros ri H1 H2.
    assert (Es : startIdx Resize.st = 0) by (vm_compute; reflexivity).
    assert (Ee : endIdx Resize.st = 1) by (vm_compute; reflexivity).
    assert (E : ri = 0) by lia.
    subst ri. vm_compute. reflexivity.
  - vm_compute. discriminate.
Defined.

(** C8, as the claim states it, fails: [update] also re-reads the heights of
    the rows of the current window.  The index was built by [updateAll] with
    20 for row 0 while the list says 50; growing from 5 to 8 rows and
    shrinking back to 5 leaves [getRowTop(1)] at 50 where it was 20. *)
Lemma resize_round_trip_counterexample :
  reachable Pending.st /\
  listLength Pending.st = 5 /\
  Z.of_nat (length (list Pending.props8)) = 8 /\
  Z.of_nat (length (list Pending.props5)) = 5 /\
  firstn 5 (list Pending.props8) = list Pending.props5 /\
  (startIdx Pending.st, endIdx Pending.st) = (0, 3) /\
  getRowTop Pending.st 1 = Fin 20 /\
  getRowTop (update Pending.props5 (update Pending.props8 Pending.st)) 1 = Fin 50.
Proof.
  split.
  { unfold Pending.st. apply reach_redraw; [apply reach_init |].
    vm_compute. reflexivity. }
  repeat split; vm_compute; reflexivity.
Qed.

(** ** Point updates outside the index *)

(** C9, as the code has it.  The guard is in [updateRange], the only caller
    of [update1]: it clamps its upper bound to [listLength], so a range that
    starts at an index [i >= listLength] issues no point update and leaves
    the state, hence [rowInfo], its length and every prefix sum, unchanged. *)
Theorem updateRange_out_of_range p st i to :
  listLength st <= i ->
  updateRange p st i to = st.
Proof.
  intros Hi. unfold updateRange.
  rewrite range_nil; [reflexivity |].
  destruct (to >? listLength st) eqn:E; [lia |].
  rewrite Z.gtb_ltb in E. apply Z.ltb_ge in E. lia.
Qed.

Lemma updateRange_out_of_range_witness :
  updateRange Stale.props Stale.st 1 2 = Stale.st.
Proof.
  apply (updateRange_out_of_range Stale.props Stale.st 1 2).
  vm_compute. discriminate.
Defined.

(** C9, as the claim states it, fails: [update1] itself has no range test.
    At index 1 of a one-row index, [rowInfo[2]] is undefined, the difference
    is NaN, which is not [== 0], and the two writes extend [rowInfo] from
    length 2 to length 4. *)
Lemma update1_out_of_range_counterexample :
  listLength Stale.st = 1 /\
  rowInfo Stale.st = [Fin 20; Fin 20] /\
  rowInfo (update1 Stale.props Stale.st 1) = [Fin 20; Fin 20; NaN; NaN] /\
  update1 Stale.props Stale.st 1 <> Stale.st.
Proof.
  repeat split; try (vm_compute; reflexivity).
  intros H. apply (f_equal rowInfo) in H. vm_compute in H. discriminate H.
Qed.

(** ** The window computation *)

(** [redraw] when the candidate window is the current one: the branch that
    writes the window refs is skipped *)
Lemma redraw_skip p d st :
  newStartIdx_of p d (sync p st) = startIdx st ->
  newEndIdx_of p d (sync p st) = endIdx st ->
  redraw p d st = (sync p st, []).
Proof.
  intros Hs He. rewrite redraw_eq. cbv zeta.
  destruct (sync_frame p st) as (F1 & F2 & _).
  rewrite Hs, He, F1, F2, !Z.eqb_refl. reflexivity.
Qed.

(** C6. No-change frame condition: when [redraw] computes a [newStartIdx]
    equal to the current [startIdx] and a [newEndIdx] equal to the current
    [endIdx], the refs [startIdx], [endIdx], [startTop], [endTop], [vlist]
    and [sheetStyle] are left as they were and no [updateHeight] event is
    emitted. *)
Theorem redraw_no_change p d st :
  newStartIdx_of p d (sync p st) = startIdx st ->
  newEndIdx_of p d (sync p st) = endIdx st ->
  startIdx (fst (redraw p d st)) = startIdx st /\
  endIdx (fst (redraw p d st)) = endIdx st /\
  startTop (fst (redraw p d st)) = startTop st /\
  endTop (fst (redraw p d st)) = endTop st /\
  vlist (fst (redraw p d st)) = vlist st /\
  sheetStyle (fst (redraw p d st)) = sheetStyle st /\
  snd (redraw p d st) = [].
Proof.
  intros Hs He. rewrite (redraw_skip p d st Hs He). simpl.
  destruct (sync_frame p st) as (F1 & F2 & F3 & F4 & F5 & F6).
  repeat split; assumption.
Qed.

Lemma redraw_no_change_witness :
  let p := Scenario.props' in
  let d := Scenario.dom 0 40 in
  let st := fst (Scenario.step2 40) in
  startIdx (fst (redraw p d st)) = startIdx st /\
  endIdx (fst (redraw p d st)) = endIdx st /\
  startTop (fst (redraw p d st)) = startTop st /\
  endTop (fst (redraw p d st)) = endTop st /\
  vlist (fst (redraw p d st)) = vlist st /\
  sheetStyle (fst (redraw p d st)) = sheetStyle st /\
  snd (redraw p d st) = [].
Proof.
  apply (redraw_no_change Scenario.props' (Scenario.dom 0 40)
           (fst (Scenario.step2 40))); vm_compute; reflexivity.
Defined.

(** ** The hysteresis test on the Numbers of the script *)

Lemma dbl_redraw_eq p d st :
  Dbl.redraw p d st =
  let st' := Dbl.sync p st in
  let newStartIdx := Dbl.newStartIdx_of p d st' in
  let newEndIdx := Dbl.newEndIdx_of p d st' in
  if negb (newStartIdx =? Dbl.startIdx st')
     || negb (newEndIdx =? Dbl.endIdx st') then
    (Dbl.mkState (Dbl.rowInfo st') (Dbl.listLength st') newStartIdx newEndIdx
                 (Dbl.getRowTop st' newStartIdx) (Dbl.getRowTop st' newEndIdx)
                 (JS.slice (Dbl.list p) newStartIdx newEndIdx)
                 (Some (Dbl.getRowTop st' newStartIdx))
                 (Dbl.screenHeight st') (Dbl.viewportHeight2 st'),
     [UpdateHeight newStartIdx newEndIdx])
  else (st', []).
Proof. reflexivity. Qed.

Lemma dbl_update1_frame p st i :
  Dbl.listLength (Dbl.update1 p st i) = Dbl.listLength st /\
  Dbl.startIdx (Dbl.update1 p st i) = Dbl.startIdx st /\
  Dbl.endIdx (Dbl.update1 p st i) = Dbl.endIdx st /\
  Dbl.startTop (Dbl.update1 p st i) = Dbl.startTop st /\
  Dbl.endTop (Dbl.update1 p st i) = Dbl.endTop st /\
  Dbl.vlist (Dbl.update1 p st i) = Dbl.vlist st /\
  Dbl.sheetStyle (Dbl.update1 p st i) = Dbl.sheetStyle st.
Proof.
  unfold Dbl.update1.
  destruct (F64.is_zero _); simpl; repeat split; reflexivity.
Qed.

Lemma dbl_fold_update1_frame p l : forall st,
  Dbl.listLength (fold_left (Dbl.update1 p) l st) = Dbl.listLength st /\
  Dbl.startIdx (fold_left (Dbl.update1 p) l st) = Dbl.startIdx st /\
  Dbl.endIdx (fold_left (Dbl.update1 p) l st) = Dbl.endIdx st /\
  Dbl.startTop (fold_left (Dbl.update1 p) l st) = Dbl.startTop st /\
  Dbl.endTop (fold_left (Dbl.update1 p) l st) = Dbl.endTop st /\
  Dbl.vlist (fold_left (Dbl.update1 p) l st) = Dbl.vlist st /\
  Dbl.sheetStyle (fold_left (Dbl.update1 p) l st) = Dbl.sheetStyle st.
Proof.
  induction l as [| i l IH]; intros st; simpl.
  - repeat split; reflexivity.
  - destruct (IH (Dbl.update1 p st i)) as (H1 & H2 & H3 & H4 & H5 & H6 & H7).
    destruct (dbl_update1_frame p st i) as (G1 & G2 & G3 & G4 & G5 & G6 & G7).
    repeat split; congruence.
Qed.

Lemma dbl_updateRange_frame p st from to :
  Dbl.listLength (Dbl.updateRange p st from to) = Dbl.listLength st /\
  Dbl.startIdx (Dbl.updateRange p st from to) = Dbl.startIdx st /\
  Dbl.endIdx (Dbl.updateRange p st from to) = Dbl.endIdx st /\
  Dbl.startTop (Dbl.updateRange p st from to) = Dbl.startTop st /\
  Dbl.endTop (Dbl.updateRange p st from to) = Dbl.endTop st /\
  Dbl.vlist (Dbl.updateRange p st from to) = Dbl.vlist st /\
  Dbl.sheetStyle (Dbl.updateRange p st from to) = Dbl.sheetStyle st.
Proof. unfold Dbl.updateRange. apply dbl_fold_update1_frame. Qed.

(** [update] writes none of the window refs *)
Lemma dbl_update_frame p st :
  Dbl.startIdx (Dbl.update p st) = Dbl.startIdx st /\
  Dbl.endIdx (Dbl.update p st) = Dbl.endIdx st /\
  Dbl.startTop (Dbl.update p st) = Dbl.startTop st /\
  Dbl.endTop (Dbl.update p st) = Dbl.endTop st /\
  Dbl.vlist (Dbl.update p st) = Dbl.vlist st /\
  Dbl.sheetStyle (Dbl.update p st) = Dbl.sheetStyle st.
Proof.
  unfold Dbl.update.
  match goal with
  | |- context [Dbl.updateRange p ?s (Dbl.startIdx ?s) (Dbl.endIdx ?s)] =>
      destruct (dbl_updateRange_frame p s (Dbl.startIdx s) (Dbl.endIdx s))
        as (_ & H2 & H3 & H4 & H5 & H6 & H7);
      assert (G : Dbl.startIdx s = Dbl.startIdx st /\
                  Dbl.endIdx s = Dbl.endIdx st /\
                  Dbl.startTop s = Dbl.startTop st /\
                  Dbl.endTop s = Dbl.endTop st /\
                  Dbl.vlist s = Dbl.vlist st /\
                  Dbl.sheetStyle s = Dbl.sheetStyle st)
  end.
  { destruct (Dbl.listLength st =? 0); [simpl; repeat split; reflexivity |].
    destruct (_ <? _); [simpl; repeat split; reflexivity |].
    destruct (_ >? _); [| repeat split; reflexivity].
    match goal with
    | |- context [Dbl.updateRange p ?s ?a ?b] =>
        destruct (dbl_updateRange_frame p s a b)
          as (_ & K2 & K3 & K4 & K5 & K6 & K7)
    end.
    simpl in *. repeat split; assumption. }
  destruct G as (G2 & G3 & G4 & G5 & G6 & G7).
  repeat split; congruence.
Qed.

Lemma dbl_sync_frame p st :
  Dbl.startIdx (Dbl.sync p st) = Dbl.startIdx st /\
  Dbl.endIdx (Dbl.sync p st) = Dbl.endIdx st /\
  Dbl.startTop (Dbl.sync p st) = Dbl.startTop st /\
  Dbl.endTop (Dbl.sync p st) = Dbl.endTop st /\
  Dbl.vlist (Dbl.sync p st) = Dbl.vlist st /\
  Dbl.sheetStyle (Dbl.sync p st) = Dbl.sheetStyle st.
Proof. unfold Dbl.sync. simpl. apply dbl_update_frame. Qed.

(** the order of binary64: comparing the other way round turns the result
    round *)
Lemma SFcompare_antisym x y :
  SFcompare y x = match SFcompare x y with
                  | Some c => Some (CompOpp c)
                  | None => None
                  end.
Proof.
  destruct x as [sx | sx | | sx mx ex], y as [sy | sy | | sy my ey]; cbn;
    try reflexivity;
    try (destruct sx; reflexivity); try (destruct sy; reflexivity);
    try (destruct sx, sy; reflexivity).
  change (PosDef.Pos.compare_cont Eq my mx) with (Pos.compare my mx).
  change (PosDef.Pos.compare_cont Eq mx my) with (Pos.compare mx my).
  destruct sx, sy; try reflexivity;
    rewrite (Z.compare_antisym ex ey); destruct (ex ?= ey)%Z; cbn;
    try reflexivity;
    rewrite (Pos.compare_antisym mx my); destruct (mx ?= my)%positive;
    reflexivity.
Qed.

(** [a <= b] of Numbers excludes [b < a], which is [a > b] *)
Lemma le_not_lt (a b : float) : F64.le a b = true -> F64.lt b a = false.
Proof.
  unfold F64.le, F64.lt. rewrite leb_spec, ltb_spec. unfold SFleb, SFltb.
  rewrite (SFcompare_antisym (Prim2SF a) (Prim2SF b)).
  destruct (SFcompare (Prim2SF a) (Prim2SF b)) as [[| |] |]; cbn; congruence.
Qed.

Lemma le_not_gt (a b : float) : F64.le a b = true -> F64.gt a b = false.
Proof. exact (le_not_lt a b). Qed.

(** C4, as the code has it.  The hysteresis test compares the cached
    position of each boundary with a band around the current padded offset.
    With the edges of the bands the Numbers that the script computes:
    when [startTop] lies between [paddedTop1] and [paddedTop2] and [endTop]
    between [paddedBottom1] and [paddedBottom2], [redraw] keeps the window
    indices, the visible slice and the sheet position, and emits no
    [updateHeight]. *)
Theorem hysteresis_keeps_window p d st :
  F64.le (Dbl.paddedTop1 p (Dbl.topOffset_of p d)
                         (Dbl.padding2_of p d (Dbl.sync p st)))
         (Dbl.startTop st) = true ->
  F64.le (Dbl.startTop st)
         (Dbl.paddedTop2 p (Dbl.topOffset_of p d)
                         (Dbl.padding2_of p d (Dbl.sync p st))) = true ->
  F64.le (Dbl.paddedBottom1 p (Dbl.bottomOffset_of p d (Dbl.sync p st))
                            (Dbl.padding2_of p d (Dbl.sync p st)))
         (Dbl.endTop st) = true ->
  F64.le (Dbl.endTop st)
         (Dbl.paddedBottom2 p (Dbl.bottomOffset_of p d (Dbl.sync p st))
                            (Dbl.padding2_of p d (Dbl.sync p st))) = true ->
  Dbl.startIdx st <= Dbl.endIdx st ->
  Dbl.startIdx (fst (Dbl.redraw p d st)) = Dbl.startIdx st /\
  Dbl.endIdx (fst (Dbl.redraw p d st)) = Dbl.endIdx st /\
  Dbl.vlist (fst (Dbl.redraw p d st)) = Dbl.vlist st /\
  Dbl.sheetStyle (fst (Dbl.redraw p d st)) = Dbl.sheetStyle st /\
  snd (Dbl.redraw p d st) = [].
Proof.
  intros Ha1 Ha2 He1 He2 Hle.
  destruct (dbl_sync_frame p st) as (F1 & F2 & F3 & F4 & F5 & F6).
  assert (Hs : Dbl.newStartIdx_of p d (Dbl.sync p st) = Dbl.startIdx st).
  { unfold Dbl.newStartIdx_of, Dbl.getStartIdx. rewrite F3.
    rewrite (le_not_lt _ _ Ha1), (le_not_gt _ _ Ha2). exact F1. }
  assert (Hn : Dbl.newEndIdx_of p d (Dbl.sync p st) = Dbl.endIdx st).
  { unfold Dbl.newEndIdx_of. rewrite Hs.
    unfold Dbl.getEndIdx. rewrite F4.
    rewrite (le_not_lt _ _ He1), (le_not_gt _ _ He2). cbn [orb].
    rewrite F2. lia. }
  rewrite dbl_redraw_eq. cbv zeta. rewrite Hs, Hn, F1, F2, !Z.eqb_refl.
  cbn [negb orb fst snd]. repeat split; assumption.
Qed.

Lemma hysteresis_keeps_window_witness :
  let p := Calm64.props in
  let st := fst Calm64.step1 in
  let d := Calm64.dom 35%float in
  Dbl.startIdx (fst (Dbl.redraw p d st)) = Dbl.startIdx st /\
  Dbl.endIdx (fst (Dbl.redraw p d st)) = Dbl.endIdx st /\
  Dbl.vlist (fst (Dbl.redraw p d st)) = Dbl.vlist st /\
  Dbl.sheetStyle (fst (Dbl.redraw p d st)) = Dbl.sheetStyle st /\
  snd (Dbl.redraw p d st) = [].
Proof.
  apply (hysteresis_keeps_window Calm64.props (Calm64.dom 35%float)
           (fst Calm64.step1)).
  - vm_compute. reflexivity.
  - vm_compute. reflexivity.
  - vm_compute. reflexivity.
  - vm_compute. reflexivity.
  - vm_compute. discriminate.
Defined.

(** the edges are the computed ones, not the exact ones: a hundred rows of
    height 40.9, padding 384, hysteresis 0.15.  The redraw at scrollTop
    465.8 sets the window [2,31) with [startTop] 81.8.  At scrollTop 523.4
    the exact lower edge 523.4 - 384 * 1.15 is 81.8, but the script computes
    81.80000000000001: [startTop] is below it, the start is recomputed and
    the window moves to [3,31). *)
Example hysteresis_band_rounding :
  (Dbl.startIdx (fst Band64.step1), Dbl.endIdx (fst Band64.step1)) = (2, 31) /\
  Dbl.startTop (fst Band64.step1) = 81.8%float /\
  F64.lt (Dbl.startTop (fst Band64.step1))
         (Dbl.paddedTop1 Band64.props 523.4%float 384%float) = true /\
  (Dbl.startIdx (fst Band64.step2), Dbl.endIdx (fst Band64.step2)) = (3, 31) /\
  snd Band64.step2 = [UpdateHeight 3 31].
Proof. repeat split; vm_compute; reflexivity. Qed.

(** C4, as the claim states it, fails: after a redraw at scrollTop 109 (rows
    of height 100, padding 10, hysteresis 1/2), a scroll by 1, less than
    padding*hysteresis = 5, moves the window from [0,2) to [1,2) and emits a
    new slice and an [updateHeight] request. *)
Lemma hysteresis_suppression_counterexample :
  (Qabs (scrollTop (Thrash.dom 110) - scrollTop (Thrash.dom 109)) < 10 * (1 # 2))%Q /\
  padding Thrash.props = Some 10%Q /\ hysteresis Thrash.props = 1 # 2 /\
  (startIdx (fst Thrash.step1), endIdx (fst Thrash.step1)) = (0, 2) /\
  (startIdx (fst Thrash.step2), endIdx (fst Thrash.step2)) = (1, 2) /\
  vlist (fst Thrash.step2) <> vlist (fst Thrash.step1) /\
  snd Thrash.step2 = [UpdateHeight 1 2].
Proof.
  repeat split; try (vm_compute; reflexivity); vm_compute; discriminate.
Qed.

(** with an explicit viewport height and an explicit padding, a browser
    window at least as tall as the viewport does not enter the computation *)
Lemma redraw_tall_window p t v x w st :
  viewportHeight p = Some v ->
  padding p = Some x ->
  (v <= w)%Q ->
  redraw p (mkDom t 0 w) st = redraw p (mkDom t 0 v) st.
Proof.
  intros Hv Hx Hw.
  assert (E : forall s, bottomOffset_of p (mkDom t 0 w) s =
                        bottomOffset_of p (mkDom t 0 v) s).
  { intros s. unfold bottomOffset_of, viewportHeight2_of. rewrite Hv.
    cbn [windowHeight viewportTop scrollTop JS.sub JS.min JS.add].
    assert (E1 : Qle_bool v (w - 0) = true) by (apply Qle_bool_iff; lra).
    assert (E2 : Qle_bool v (v - 0) = true) by (apply Qle_bool_iff; lra).
    rewrite E1, E2. reflexivity. }
  rewrite !redraw_eq. unfold newEndIdx_of, newStartIdx_of.
  rewrite E. unfold padding2_of. rewrite Hx. reflexivity.
Qed.

(** C5, as the code has it.  With N=5, defaultHeight=20, padding=0,
    hysteresis=0, viewportHeight=40, no header and no footer, the viewport at
    the top of a browser window at least 40 high: the initial [redraw] at
    scrollTop=0 yields the window [0,3); after row 0 is measured at 50 the
    redraw at scrollTop=0 yields [0,1); the redraw at scrollTop=90 yields
    [3,5). *)
Theorem scenario_windows (w : Q) :
  (40 <= w)%Q ->
  (startIdx (fst (Scenario.step1 w)), endIdx (fst (Scenario.step1 w))) = (0, 3) /\
  (startIdx (fst (Scenario.step2 w)), endIdx (fst (Scenario.step2 w))) = (0, 1) /\
  (startIdx (fst (Scenario.step3 w)), endIdx (fst (Scenario.step3 w))) = (3, 5).
Proof.
  intros Hw.
  assert (E1 : Scenario.step1 w = Scenario.step1 40).
  { unfold Scenario.step1, Scenario.dom.
    apply (redraw_tall_window Scenario.props 0 40 0 w init);
      [reflexivity | reflexivity | exact Hw]. }
  assert (E2 : Scenario.step2 w = Scenario.step2 40).
  { unfold Scenario.step2, Scenario.dom. rewrite E1.
    apply (redraw_tall_window Scenario.props' 0 40 0 w);
      [reflexivity | reflexivity | exact Hw]. }
  assert (E3 : Scenario.step3 w = Scenario.step3 40).
  { unfold Scenario.step3, Scenario.dom. rewrite E2.
    apply (redraw_tall_window Scenario.props' 90 40 0 w);
      [reflexivity | reflexivity | exact Hw]. }
  rewrite E1, E2, E3. vm_compute. repeat split; reflexivity.
Qed.

Lemma scenario_windows_witness :
  (startIdx (fst (Scenario.step1 600)), endIdx (fst (Scenario.step1 600))) = (0, 3) /\
  (startIdx (fst (Scenario.step2 600)), endIdx (fst (Scenario.step2 600))) = (0, 1) /\
  (startIdx (fst (Scenario.step3 600)), endIdx (fst (Scenario.step3 600))) = (3, 5).
Proof.
  apply (scenario_windows 600). vm_compute. discriminate.
Defined.

(** C5, as the claim states it, fails: the initial redraw ends the window
    at 3, not 2 (offset 40 is the top of row 2, so row 2 is the located row),
    and at scrollTop=90 the window starts at row 3, whose top is 90, not at
    row 4. *)
Lemma scenario_counterexample :
  ~ ((startIdx (fst (Scenario.step1 600)), endIdx (fst (Scenario.step1 600))) = (0, 2) /\
     (startIdx (fst (Scenario.step2 600)), endIdx (fst (Scenario.step2 600))) = (0, 1) /\
     (startIdx (fst (Scenario.step3 600)), endIdx (fst (Scenario.step3 600))) = (4, 5)).
Proof.
  vm_compute. intros (H & _). discriminate H.
Qed.

(** after [redraw] the window refs satisfy 0 <= startIdx <= endIdx, when
    they did before *)
Lemma redraw_window_ordered p d st :
  0 <= startIdx st <= endIdx st ->
  0 <= startIdx (fst (redraw p d st)) <= endIdx (fst (redraw p d st)).
Proof.
  intros Hw. destruct (redraw_index p d st) as (_ & _ & H0).
  split; [apply H0; lia |].
  rewrite redraw_eq. cbv zeta.
  destruct (sync_frame p st) as (F1 & F2 & _).
  destruct (negb (newStartIdx_of p d (sync p st) =? startIdx (sync p st))
            || negb (newEndIdx_of p d (sync p st) =? endIdx (sync p st)));
    cbn [fst startIdx endIdx].
  - unfold newEndIdx_of. lia.
  - rewrite F1, F2. lia.
Qed.

(** C7.  A redraw after the list has shrunk from ten rows to three, with the
    start boundary inside its hysteresis band: the kept [startIdx] 5 is not
    clamped to the new length 3, the window becomes [5,5) and its cached
    positions become NaN. *)
Theorem window_range_after_shrink :
  reachable (fst Shrink.step2) /\
  (startIdx (fst Shrink.step1), endIdx (fst Shrink.step1)) = (5, 10) /\
  listLength (fst Shrink.step2) = 3 /\
  (startIdx (fst Shrink.step2), endIdx (fst Shrink.step2)) = (5, 5) /\
  ~ endIdx (fst Shrink.step2) <= listLength (fst Shrink.step2) /\
  startTop (fst Shrink.step2) = NaN /\
  endTop (fst Shrink.step2) = NaN.
Proof.
  split.
  { unfold Shrink.step2, Shrink.step1.
    apply reach_redraw; [apply reach_redraw; [apply reach_init |] |];
      vm_compute; reflexivity. }
  repeat split; try (vm_compute; reflexivity).
  vm_compute. intros H. apply H. reflexivity.
Qed.

Lemma lt_NaN_l x : JS.lt NaN x = false.
Proof. reflexivity. Qed.

Lemma lt_NaN_r x : JS.lt x NaN = false.
Proof. destruct x; reflexivity. Qed.

(** once the cached positions are NaN both hysteresis tests are false, so
    both boundaries are kept at every later [redraw], whatever the list and
    the scroll offset *)
Lemma redraw_stuck_on_NaN p d st :
  startTop st = NaN -> endTop st = NaN -> startIdx st <= endIdx st ->
  redraw p d st = (sync p st, []).
Proof.
  intros Hs He Hle.
  destruct (sync_frame p st) as (F1 & F2 & F3 & F4 & _).
  assert (Es : newStartIdx_of p d (sync p st) = startIdx st).
  { unfold newStartIdx_of, getStartIdx, JS.gt. rewrite F3, Hs.
    cbv zeta. rewrite lt_NaN_l, lt_NaN_r. exact F1. }
  apply redraw_skip; [exact Es |].
  unfold newEndIdx_of. rewrite Es.
  unfold getEndIdx, JS.gt. rewrite F4, He. cbv zeta.
  rewrite lt_NaN_l, lt_NaN_r. cbn [orb]. rewrite F2. lia.
Qed.

(** * Further properties of the code *)

(** ** Finite cells *)

Lemma fin_indexb_sound st : fin_indexb st = true -> fin_index st.
Proof.
  unfold fin_indexb, fin_index. intros H.
  apply andb_true_iff in H. destruct H as [HL Hall].
  apply Z.eqb_eq in HL. split; [exact HL |].
  intros i Hi. rewrite forallb_forall in Hall.
  specialize (Hall i (proj2 (range_In 0 (2 * listLength st) i) Hi)).
  destruct (JS.get (rowInfo st) i) as [q |]; [exists q; reflexivity | discriminate].
Qed.

Lemma pos_heightsb_sound st : pos_heightsb st = true -> pos_heights st.
Proof.
  unfold pos_heightsb, pos_heights. intros H i Hi.
  rewrite forallb_forall in H.
  specialize (H i (proj2 (range_In 0 (listLength st) i) Hi)).
  apply negb_true_iff in H. apply Qnot_le_lt. intros Hle.
  apply Qle_bool_iff in Hle. congruence.
Qed.

Lemma pos_heights_nonneg st : pos_heights st -> nonneg_heights st.
Proof. intros H i Hi. apply Qlt_le_weak. apply H. exact Hi. Qed.

Lemma acc_ok_fin_index st : acc_ok st -> fin_index st.
Proof.
  intros [HL Hacc]. split; [exact HL |].
  intros i Hi.
  destruct (Z.Even_or_Odd i) as [[k Hk] | [k Hk]].
  - destruct (Hacc k ltac:(lia)) as (h & a & Hh & _ & _).
    exists h. rewrite <- Hh. f_equal. lia.
  - destruct (Hacc k ltac:(lia)) as (h & a & _ & Ha & _).
    exists a. rewrite <- Ha. f_equal. lia.
Qed.

(** the cell of a row after a point update of that row holds the height of
    the list *)
Lemma synced_after_add p ri hr :
  JS.is_zero
    (JS.sub (rowHeight p ri)
            (JS.add (Fin hr) (JS.sub (rowHeight p ri) (Fin hr)))) = true.
Proof.
  destruct (rowHeight_fin p ri) as [v ->]. cbn [JS.sub JS.add JS.is_zero].
  apply Qeq_bool_iff. ring.
Qed.

(** [update1] at a row of an index with finite cells: the cells stay finite,
    the row stores the height of the list, the other heights are left *)
Lemma update1_fin_index p st r :
  fin_index st -> listLength st < 2 ^ 31 -> 0 <= r < listLength st ->
  fin_index (update1 p st r) /\
  row_synced p (update1 p st r) r /\
  (forall k, 0 <= k < listLength st -> k <> r ->
     JS.get (rowInfo (update1 p st r)) (k * 2) = JS.get (rowInfo st) (k * 2)).
Proof.
  intros [HL Hfin] HN Hr.
  destruct (JS.is_zero (JS.sub (rowHeight p r) (JS.get (rowInfo st) (r * 2))))
    eqn:Hz.
  { rewrite update1_synced by exact Hz.
    split; [split; assumption |]. split; [exact Hz | reflexivity]. }
  destruct (update1_cells p st r HL HN Hr Hz) as (G1 & G2 & G3).
  destruct (update1_frame p st r) as (FL & _).
  destruct (rowHeight_fin p r) as [v Hv].
  destruct (Hfin (r * 2) ltac:(lia)) as [hr Hhr].
  split; [| split].
  - split; [rewrite FL; exact G1 |].
    rewrite FL. intros i Hi.
    destruct (Z.Even_or_Odd i) as [[k Hk] | [k Hk]].
    + replace i with (k * 2) by lia. rewrite G2 by lia.
      destruct (Hfin (k * 2) ltac:(lia)) as [h Hh]. rewrite Hh, Hv, Hhr.
      destruct (k =? r); eexists; reflexivity.
    + replace i with (k * 2 + 1) by lia. rewrite G3 by lia.
      destruct (Hfin (k * 2 + 1) ltac:(lia)) as [h Hh]. rewrite Hh, Hv, Hhr.
      destruct (covers k r); eexists; reflexivity.
  - unfold row_synced. rewrite G2 by exact Hr. rewrite Z.eqb_refl, Hhr.
    apply synced_after_add.
  - intros k Hk Hne. rewrite G2 by exact Hk.
    destruct (Z.eqb_spec k r); [contradiction | reflexivity].
Qed.

(** a run of point updates at rows of the index: every updated row stores
    the height of the list, the heights of the other rows are left *)
Lemma fold_update1_fin_index p l : forall st,
  fin_index st -> listLength st < 2 ^ 31 ->
  (forall ri, In ri l -> 0 <= ri < listLength st) ->
  fin_index (fold_left (update1 p) l st) /\
  (forall ri, In ri l -> row_synced p (fold_left (update1 p) l st) ri) /\
  (forall k, 0 <= k < listLength st -> ~ In k l ->
     JS.get (rowInfo (fold_left (update1 p) l st)) (k * 2) =
     JS.get (rowInfo st) (k * 2)).
Proof.
  induction l as [| r l IH]; intros st Hfin HN Hin; cbn [fold_left].
  - split; [exact Hfin |]. split; [intros ri [] | reflexivity].
  - destruct (update1_fin_index p st r Hfin HN (Hin r (or_introl eq_refl)))
      as (Hfin1 & Hs1 & Hk1).
    destruct (update1_frame p st r) as (FL & _).
    destruct (IH (update1 p st r) Hfin1) as (Hfin2 & Hs2 & Hk2).
    { rewrite FL. exact HN. }
    { intros ri Hri. rewrite FL. apply Hin. right. exact Hri. }
    rewrite FL in Hk2.
    split; [exact Hfin2 |]. split.
    + intros ri [<- | Hri]; [| apply Hs2; exact Hri].
      destruct (in_dec Z.eq_dec r l) as [Hrl | Hrl]; [apply Hs2; exact Hrl |].
      unfold row_synced.
      rewrite Hk2 by (try apply Hin; try assumption; left; reflexivity).
      exact Hs1.
    + intros k Hk Hnot.
      rewrite Hk2 by (try assumption; intros H; apply Hnot; right; exact H).
      apply Hk1; [exact Hk |]. intros ->. apply Hnot. left. reflexivity.
Qed.

Lemma updateRange_fin_index p st from to :
  fin_index st -> listLength st < 2 ^ 31 -> 0 <= from ->
  fin_index (updateRange p st from to) /\
  (forall ri, from <= ri < to -> ri < listLength st ->
     row_synced p (updateRange p st from to) ri) /\
  (forall k, 0 <= k < listLength st -> ~ from <= k < to ->
     JS.get (rowInfo (updateRange p st from to)) (k * 2) =
     JS.get (rowInfo st) (k * 2)).
Proof.
  intros Hfin HN Hfrom. unfold updateRange. cbv zeta.
  set (to' := if to >? listLength st then listLength st else to).
  assert (Hto : to' <= listLength st /\ to' <= to /\
                (to <= listLength st -> to' = to)).
  { subst to'. destruct (Z.gtb_spec to (listLength st)); lia. }
  destruct (fold_update1_fin_index p (JS.range from to') st Hfin HN)
    as (H1 & H2 & H3).
  { intros ri Hri. apply range_In in Hri. lia. }
  split; [exact H1 |]. split.
  - intros ri Hri Hlt. apply H2. apply range_In.
    destruct (Z.gtb_spec to (listLength st)); subst to'; lia.
  - intros k Hk Hnot. apply H3; [exact Hk |].
    intros Hin. apply range_In in Hin. lia.
Qed.

Lemma get_app (a b : array) i :
  JS.get (a ++ b) i =
  if i <? Z.of_nat (length a) then JS.get a i
  else JS.get b (i - Z.of_nat (length a)).
Proof.
  unfold JS.get.
  destruct (Z.ltb_spec i 0) as [Hneg | Hpos].
  - destruct (Z.ltb_spec i (Z.of_nat (length a))); [reflexivity |].
    destruct (Z.ltb_spec (i - Z.of_nat (length a)) 0); [reflexivity | lia].
  - destruct (Z.ltb_spec i (Z.of_nat (length a))) as [Hlt | Hge].
    + apply app_nth1. lia.
    + destruct (Z.ltb_spec (i - Z.of_nat (length a)) 0); [lia |].
      rewrite app_nth2 by lia. f_equal. lia.
Qed.

Lemma get_zeros n i : 0 <= i < n -> JS.get (JS.zeros n) i = Fin 0.
Proof.
  intros Hi. unfold JS.get, JS.zeros.
  destruct (Z.ltb_spec i 0); [lia |].
  apply nth_repeat_lt. lia.
Qed.

(** the cells that [updateAll] writes *)
Lemma updateAll_cells p st k :
  0 <= k < Z.of_nat (length (list p)) ->
  JS.get (rowInfo (updateAll p st)) (k * 2) = Fin (defaultHeight p).
Proof.
  intros Hk. unfold updateAll. cbn [rowInfo with_index].
  destruct (fold_fillRow (Fin (defaultHeight p)) (Z.of_nat (length (list p)))
              (length (list p)) (Z.le_refl _)) as [_ H].
  apply (H k Hk).
Qed.

(** ** [update], branch by branch *)

(** the state between the branches of [update] and its last statement *)
Lemma update_tail p mid :
  fin_index mid -> listLength mid < 2 ^ 31 -> 0 <= startIdx mid ->
  let st' := updateRange p mid (startIdx mid) (endIdx mid) in
  listLength st' = listLength mid /\
  fin_index st' /\
  (forall ri, startIdx mid <= ri < endIdx mid -> ri < listLength mid ->
     row_synced p st' ri) /\
  (forall k, 0 <= k < listLength mid -> ~ startIdx mid <= k < endIdx mid ->
     JS.get (rowInfo st') (k * 2) = JS.get (rowInfo mid) (k * 2)).
Proof.
  intros Hfin HN Hs st'. subst st'.
  destruct (updateRange_frame p mid (startIdx mid) (endIdx mid)) as (FL & _).
  destruct (updateRange_fin_index p mid (startIdx mid) (endIdx mid) Hfin HN Hs)
    as (H1 & H2 & H3).
  repeat split; try assumption; apply H1.
Qed.

Lemma update_index p st :
  fin_index st -> listLength st < 2 ^ 31 -> 0 <= startIdx st -> fits p ->
  listLength (update p st) = Z.of_nat (length (list p)) /\
  fin_index (update p st) /\
  (forall ri, startIdx st <= ri < endIdx st ->
     ri < Z.of_nat (length (list p)) -> row_synced p (update p st) ri) /\
  (listLength st <> 0 ->
   forall ri, listLength st <= ri < Z.of_nat (length (list p)) ->
     row_synced p (update p st) ri) /\
  (listLength st <> 0 ->
   forall k, 0 <= k < listLength st -> k < Z.of_nat (length (list p)) ->
     ~ startIdx st <= k < endIdx st ->
     JS.get (rowInfo (update p st)) (k * 2) = JS.get (rowInfo st) (k * 2)) /\
  (listLength st = 0 ->
   forall k, 0 <= k < Z.of_nat (length (list p)) ->
     ~ startIdx st <= k < endIdx st ->
     JS.get (rowInfo (update p st)) (k * 2) = Fin (defaultHeight p)).
Proof.
  intros Hfin HN Hs Hfit.
  set (len := Z.of_nat (length (list p))).
  assert (Hlen : 0 <= len < 2 ^ 31) by (unfold fits in Hfit; subst len; lia).
  assert (HN0 : 0 <= listLength st) by (destruct Hfin as [HL _]; lia).
  unfold update. cbv zeta. fold len.
  destruct (Z.eqb_spec (listLength st) 0) as [H0 | H0].
  { (* updateAll *)
    pose proof (updateAll_listLength p st) as EL. fold len in EL.
    assert (Hmid : fin_index (updateAll p st)).
    { apply acc_ok_fin_index. apply updateAll_acc_ok. exact Hfit. }
    destruct (update_tail p (updateAll p st) Hmid) as (T1 & T2 & T3 & T4);
      [lia | exact Hs |].
    change (startIdx (updateAll p st)) with (startIdx st) in *.
    change (endIdx (updateAll p st)) with (endIdx st) in *.
    rewrite EL in *.
    split; [exact T1 |]. split; [exact T2 |]. split; [exact T3 |].
    split; [intros; contradiction |]. split; [intros; contradiction |].
    intros _ k Hk Hw. rewrite T4 by assumption.
    apply updateAll_cells. exact Hk. }
  destruct (Z.ltb_spec len (listLength st)) as [Hlt | Hge].
  { (* the list is shorter *)
    set (mid := with_index st (JS.splice (rowInfo st) (len * 2)) len).
    assert (Hcell : forall i, i < 2 * len ->
              JS.get (rowInfo mid) i = JS.get (rowInfo st) i).
    { intros i Hi. subst mid. cbn [rowInfo with_index]. unfold JS.splice.
      apply get_firstn. lia. }
    assert (Hmid : fin_index mid).
    { destruct Hfin as [HL Hc]. split.
      - subst mid. cbn [rowInfo with_index listLength]. unfold JS.splice.
        rewrite length_firstn. lia.
      - intros i Hi. change (listLength mid) with len in Hi.
        rewrite Hcell by lia. apply Hc. lia. }
    destruct (update_tail p mid Hmid) as (T1 & T2 & T3 & T4);
      [change (listLength mid) with len; lia | exact Hs |].
    change (startIdx mid) with (startIdx st) in *.
    change (endIdx mid) with (endIdx st) in *.
    change (listLength mid) with len in *.
    split; [exact T1 |]. split; [exact T2 |]. split; [exact T3 |].
    split; [intros _ ri Hri; lia |]. split; [| intros; contradiction].
    intros _ k Hk Hkl Hw. rewrite T4 by (try assumption; lia).
    apply Hcell. lia. }
  destruct (Z.gtb_spec len (listLength st)) as [Hgt | Hle].
  { (* the list is longer *)
    set (mid0 := with_index st
                   (rowInfo st ++ JS.zeros ((len - listLength st) * 2)) len).
    assert (Hcell0 : forall i, 0 <= i < 2 * len ->
              JS.get (rowInfo mid0) i =
              if i <? 2 * listLength st then JS.get (rowInfo st) i else Fin 0).
    { intros i Hi. subst mid0. cbn [rowInfo with_index].
      rewrite get_app. destruct Hfin as [HL _]. rewrite HL.
      destruct (Z.ltb_spec i (2 * listLength st)); [reflexivity |].
      apply get_zeros. lia. }
    assert (Hmid0 : fin_index mid0).
    { destruct Hfin as [HL Hc]. split.
      - subst mid0. cbn [rowInfo with_index listLength].
        rewrite length_app. unfold JS.zeros. rewrite repeat_length. lia.
      - intros i Hi. change (listLength mid0) with len in Hi.
        rewrite Hcell0 by lia.
        destruct (Z.ltb_spec i (2 * listLength st));
          [apply Hc; lia | eexists; reflexivity]. }
    destruct (updateRange_fin_index p mid0 (listLength st) len Hmid0)
      as (M1 & M2 & M3); [change (listLength mid0) with len; lia | lia |].
    destruct (updateRange_frame p mid0 (listLength st) len)
      as (ML & MS & ME & _).
    set (mid := updateRange p mid0 (listLength st) len) in *.
    change (listLength mid0) with len in *.
    change (startIdx mid0) with (startIdx st) in *.
    change (endIdx mid0) with (endIdx st) in *.
    destruct (update_tail p mid M1) as (T1 & T2 & T3 & T4);
      [lia | lia |].
    rewrite ML, MS, ME in *.
    split; [exact T1 |]. split; [exact T2 |]. split; [exact T3 |].
    split; [| split; [| intros; contradiction]].
    - intros _ ri Hri.
      destruct (Z_le_dec (startIdx st) ri) as [Ha | Ha];
        [destruct (Z_lt_dec ri (endIdx st)) as [Hb | Hb] |];
        [apply T3; lia | |];
        (unfold row_synced; rewrite T4 by lia; apply M2; lia).
    - intros _ k Hk Hkl Hw. rewrite T4 by (try assumption; lia).
      rewrite M3 by lia. rewrite Hcell0 by lia.
      destruct (Z.ltb_spec (k * 2) (2 * listLength st)); [reflexivity | lia]. }
  (* the same length *)
  assert (EL : listLength st = len) by lia.
  destruct (update_tail p st Hfin HN Hs) as (T1 & T2 & T3 & T4).
  rewrite EL in *.
  split; [exact T1 |]. split; [exact T2 |]. split; [exact T3 |].
  split; [intros _ ri Hri; lia |]. split; [| intros; contradiction].
  intros _ k Hk Hkl Hw. apply T4; assumption.
Qed.

(** ** What every state of the component satisfies *)

Lemma fin_index_ext st st' :
  rowInfo st' = rowInfo st -> listLength st' = listLength st ->
  fin_index st -> fin_index st'.
Proof. unfold fin_index. intros -> ->. exact (fun H => H). Qed.




(** [getRowTop] of a non-positive index: the loop does not run *)
Lemma getRowTop_nonpos st k : k <= 0 -> getRowTop st k = Fin 0.
Proof.
  intros Hk. unfold getRowTop. rewrite getRowTop_loop_eq.
  destruct (Z.leb_spec 1 (Z.min k (listLength st))); [lia | reflexivity].
Qed.

(** ** [getRowIdx] on any index *)

(** the loop never steps past the cells of the array: a read beyond them
    gives [undefined], and [rest >= undefined] is false *)
Lemma getRowIdx_loop_bound (info : array) N : forall n bit ri rest,
  (Z.to_nat bit < n)%nat ->
  Z.of_nat (length info) <= 2 * N ->
  0 <= ri <= N ->
  ri <= getRowIdx_loop info bit ri rest <= N.
Proof.
  induction n as [| n IH]; intros bit ri rest Hn HL Hri; [lia |].
  rewrite getRowIdx_loop_eq.
  destruct (Z.leb_spec 1 bit) as [Hb | Hb]; [| lia]. cbv zeta.
  assert (Hhalf : (Z.to_nat (bit / 2) < n)%nat).
  { assert (bit / 2 < bit) by (apply Z.div_lt; lia).
    assert (0 <= bit / 2) by (apply Z.div_pos; lia). lia. }
  destruct (JS.ge rest (JS.get info ((ri + bit) * 2 - 1))) eqn:G.
  - assert (Hin : ri + bit <= N).
    { destruct (Z_le_dec (ri + bit) N) as [Hy | Hn']; [exact Hy |].
      rewrite get_overflow in G by lia.
      destruct rest; discriminate. }
    specialize (IH (bit / 2) (ri + bit)
                   (JS.sub rest (JS.get info ((ri + bit) * 2 - 1)))
                   Hhalf HL ltac:(lia)). lia.
  - apply (IH (bit / 2) ri rest Hhalf HL Hri).
Qed.

(** ** Where whole numbers of pixels are needed

    On Numbers that are not whole the sums of the script are rounded, and
    the properties of the next sections that speak of the value of a sum do
    not hold of it; they are stated for whole numbers of pixels. *)

(** on whole numbers of pixels the two models hold the same cells and
    give the same answers: the rows of heights 20, 0, 0 and 30 *)
Example whole_numbers_agree :
  rowInfo Flat.st =
    [Fin 20; Fin 20; Fin 0; Fin 20; Fin 0; Fin 0; Fin 30; Fin 50] /\
  Dbl.rowInfo Flat64.st = [20; 20; 0; 20; 0; 0; 30; 50]%float /\
  getRowTop Flat.st 4 = Fin 50 /\
  Dbl.getRowTop Flat64.st 4 = 50%float /\
  getRowIdx Flat.st (Fin 20) = 3 /\
  Dbl.getRowIdx Flat64.st 20%float = 3.
Proof. repeat split; vm_compute; reflexivity. Qed.

(** [update1] adds the rounded difference to the stored height: the row is
    built with 100, the list gives it 18.4, and the cell holds
    18.400000000000006; a second [update1] writes it again *)
Example update1_rounding :
  Dbl.rowInfo Once64.st0 = [100; 100]%float /\
  Dbl.rowInfo Once64.st1 = [18.400000000000006; 18.400000000000006]%float /\
  Dbl.rowInfo Once64.st2 = [18.4; 18.4]%float /\
  Once64.st2 <> Once64.st1.
Proof.
  repeat split; try (vm_compute; reflexivity).
  intros H.
  apply (f_equal (fun s => PrimFloat.eqb (F64.get (Dbl.rowInfo s) 0) 18.4))
    in H.
  vm_compute in H. discriminate H.
Qed.

(** five rows of height 10.1: the top of row 3 is 10.1 + 20.2, which is
    30.299999999999997, and [getRowIdx] of it is 2 *)
Example getRowTop_rounding :
  Dbl.getRowTop Tenth64.st 3 = 30.299999999999997%float /\
  Dbl.getRowIdx Tenth64.st (Dbl.getRowTop Tenth64.st 3) = 2.
Proof. split; vm_compute; reflexivity. Qed.

(** ** The functions of the height index, one by one *)

(** the early return of [update1], read as an equation between heights *)
Lemma row_synced_height p st ri :
  (exists c, JS.get (rowInfo st) (ri * 2) = Fin c) ->
  row_synced p st ri ->
  (heightAt (rowInfo st) ri == cellQ (rowHeight p ri))%Q.
Proof.
  intros [c Hc] Hs. unfold row_synced in Hs. unfold heightAt.
  destruct (rowHeight_fin p ri) as [v Hv]. rewrite Hv, Hc in *.
  cbn [JS.sub JS.is_zero cellQ] in *.
  apply Qeq_bool_iff in Hs. lra.
Qed.

(** X1. [updateAll] builds the index of a list from [defaultHeight] alone:
    two cells per row, every height cell the default height whatever height
    the row carries, every sum cell the default height times the size of the
    block it accumulates, and with that the documented structure. *)
Theorem updateAll_builds p st :
  fits p ->
  listLength (updateAll p st) = Z.of_nat (length (list p)) /\
  Z.of_nat (length (rowInfo (updateAll p st))) =
    2 * Z.of_nat (length (list p)) /\
  (forall k, 0 <= k < Z.of_nat (length (list p)) ->
     JS.get (rowInfo (updateAll p st)) (k * 2) = Fin (defaultHeight p) /\
     JS.get (rowInfo (updateAll p st)) (k * 2 + 1) =
       Fin (defaultHeight p * inject_Z (blockSize k))) /\
  acc_ok (updateAll p st).
Proof.
  intros Hfit. pose proof (updateAll_acc_ok p st Hfit) as Hok.
  split; [apply updateAll_listLength |].
  split; [destruct Hok as [HL _]; rewrite HL, updateAll_listLength; reflexivity |].
  split; [| exact Hok].
  intros k Hk. unfold updateAll. cbn [rowInfo with_index].
  destruct (fold_fillRow (Fin (defaultHeight p)) (Z.of_nat (length (list p)))
              (length (list p)) (Z.le_refl _)) as [_ H].
  destruct (H k Hk) as [He Ho]. split; [exact He |].
  rewrite Ho, updateAll_blockSize by (unfold fits in Hfit; lia).
  reflexivity.
Qed.

Lemma updateAll_builds_witness :
  listLength (updateAll Flat.props init) = 4 /\
  Z.of_nat (length (rowInfo (updateAll Flat.props init))) = 2 * 4 /\
  (forall k, 0 <= k < 4 ->
     JS.get (rowInfo (updateAll Flat.props init)) (k * 2) = Fin 20 /\
     JS.get (rowInfo (updateAll Flat.props init)) (k * 2 + 1) =
       Fin (20 * inject_Z (blockSize k))) /\
  acc_ok (updateAll Flat.props init).
Proof. apply (updateAll_builds Flat.props init). reflexivity. Defined.

(** X2. [update1] on a row of an index with the documented structure, the
    stored heights and the height that the list gives the row being whole
    numbers of pixels: the structure is kept, the row now stores the height
    that the list gives it (the default height when the row carries none),
    every other height is left as it was, and a second [update1] of the same
    row changes nothing. *)
Theorem update1_point p st r :
  acc_ok st -> listLength st < 2 ^ 31 -> 0 <= r < listLength st ->
  px_index st -> px (rowHeight p r) ->
  acc_ok (update1 p st r) /\
  listLength (update1 p st r) = listLength st /\
  (heightAt (rowInfo (update1 p st r)) r == cellQ (rowHeight p r))%Q /\
  (forall k, 0 <= k < listLength st -> k <> r ->
     JS.get (rowInfo (update1 p st r)) (k * 2) = JS.get (rowInfo st) (k * 2)) /\
  update1 p (update1 p st r) r = update1 p st r.
Proof.
  intros Hok HN Hr _ _.
  destruct (update1_fin_index p st r (acc_ok_fin_index st Hok) HN Hr)
    as (Hfin & Hs & Hk).
  destruct (update1_frame p st r) as (FL & _).
  split; [apply update1_acc_ok; assumption |].
  split; [exact FL |]. split; [| split; [exact Hk |]].
  - apply row_synced_height; [| exact Hs].
    destruct Hfin as [_ Hc]. apply Hc. rewrite FL. lia.
  - apply update1_synced. exact Hs.
Qed.

Lemma update1_point_witness :
  let st := updateAll Flat.props init in
  acc_ok (update1 Flat.props st 3) /\
  listLength (update1 Flat.props st 3) = listLength st /\
  (heightAt (rowInfo (update1 Flat.props st 3)) 3 ==
   cellQ (rowHeight Flat.props 3))%Q /\
  (forall k, 0 <= k < listLength st -> k <> 3 ->
     JS.get (rowInfo (update1 Flat.props st 3)) (k * 2) =
     JS.get (rowInfo st) (k * 2)) /\
  update1 Flat.props (update1 Flat.props st 3) 3 = update1 Flat.props st 3.
Proof.
  apply (update1_point Flat.props (updateAll Flat.props init) 3).
  - apply acc_okb_sound. vm_compute. reflexivity.
  - vm_compute. reflexivity.
  - vm_compute. split; [discriminate | reflexivity].
  - apply px_indexb_sound. vm_compute. reflexivity.
  - apply (whole_uptob_sound (2 ^ 20)). vm_compute. reflexivity.
Defined.

(** X3. How [update1] moves the row tops, on an index with the documented
    structure and with whole numbers of pixels for the stored heights and
    for the new height: the top of every row up to the updated one stays,
    the top of every later row (and the total) moves by the difference
    between the new and the old height of the updated row. *)
Theorem update1_shifts_tops p st r k :
  acc_ok st -> listLength st < 2 ^ 31 -> 0 <= r < listLength st ->
  0 <= k <= listLength st ->
  px_index st -> px (rowHeight p r) ->
  exists t t',
    getRowTop st k = Fin t /\ getRowTop (update1 p st r) k = Fin t' /\
    (t' == t + (if r <? k
                then cellQ (rowHeight p r) - heightAt (rowInfo st) r
                else 0))%Q.
Proof.
  intros Hok HN Hr Hk _ _.
  pose proof (acc_ok_fin_index st Hok) as Hfin.
  destruct (update1_fin_index p st r Hfin HN Hr) as (Hfin' & Hs & Hoth).
  destruct (update1_frame p st r) as (FL & _).
  pose proof (update1_acc_ok p st r Hok HN Hr) as Hok'.
  pose proof (getRowTop_prefixSum st k Hok HN Hk) as T.
  pose proof (getRowTop_prefixSum (update1 p st r) k Hok'
                ltac:(rewrite FL; exact HN) ltac:(rewrite FL; exact Hk)) as T'.
  destruct (getRowTop st k) as [t |]; [| contradiction].
  destruct (getRowTop (update1 p st r) k) as [t' |]; [| contradiction].
  exists t, t'. split; [reflexivity |]. split; [reflexivity |].
  cbn [is_fin] in T, T'. rewrite T, T'.
  assert (Hh : (heightAt (rowInfo (update1 p st r)) r ==
                cellQ (rowHeight p r))%Q).
  { apply row_synced_height; [| exact Hs].
    destruct Hfin' as [_ Hc]. apply Hc. rewrite FL. lia. }
  rewrite <- (Z2Nat.id k) by lia.
  apply (prefixSum_bump (rowInfo st) (rowInfo (update1 p st r))
           (listLength st) r); [lia | | lia].
  intros j Hj. destruct (Z.eqb_spec j r) as [-> | Hne].
  - rewrite Hh. ring.
  - unfold heightAt. rewrite (Hoth j Hj Hne). ring.
Qed.

Lemma update1_shifts_tops_witness :
  let st := updateAll Flat.props init in
  exists t t',
    getRowTop st 4 = Fin t /\ getRowTop (update1 Flat.props st 3) 4 = Fin t' /\
    (t' == t + (if 3 <? 4
                then cellQ (rowHeight Flat.props 3) - heightAt (rowInfo st) 3
                else 0))%Q.
Proof.
  apply (update1_shifts_tops Flat.props (updateAll Flat.props init) 3 4).
  - apply acc_okb_sound. vm_compute. reflexivity.
  - vm_compute. reflexivity.
  - vm_compute. split; [discriminate | reflexivity].
  - vm_compute. split; discriminate.
  - apply px_indexb_sound. vm_compute. reflexivity.
  - apply (whole_uptob_sound (2 ^ 20)). vm_compute. reflexivity.
Defined.

(** X4. [updateRange] on an index with the documented structure, the stored
    heights and the heights of the list being whole numbers of pixels: the
    structure is kept, every row of [from, to) that the index has now stores
    the height that the list gives it, the heights of the rows outside the
    range are left, and running the same [updateRange] again changes
    nothing. *)
Theorem updateRange_syncs p st from to :
  acc_ok st -> listLength st < 2 ^ 31 -> 0 <= from ->
  px_index st -> px_list p ->
  acc_ok (updateRange p st from to) /\
  listLength (updateRange p st from to) = listLength st /\
  (forall ri, from <= ri < to -> ri < listLength st ->
     (heightAt (rowInfo (updateRange p st from to)) ri ==
      cellQ (rowHeight p ri))%Q) /\
  (forall k, 0 <= k < listLength st -> ~ from <= k < to ->
     JS.get (rowInfo (updateRange p st from to)) (k * 2) =
     JS.get (rowInfo st) (k * 2)) /\
  updateRange p (updateRange p st from to) from to = updateRange p st from to.
Proof.
  intros Hok HN Hfrom _ _.
  destruct (updateRange_fin_index p st from to (acc_ok_fin_index st Hok) HN Hfrom)
    as (Hfin & Hs & Hk).
  destruct (updateRange_frame p st from to) as (FL & _).
  split; [apply updateRange_acc_ok; assumption |].
  split; [exact FL |]. split; [| split; [exact Hk |]].
  - intros ri Hri Hlt. apply row_synced_height; [| apply Hs; assumption].
    destruct Hfin as [_ Hc]. apply Hc. rewrite FL. lia.
  - apply updateRange_synced. intros ri Hri Hlt. rewrite FL in Hlt.
    apply Hs; assumption.
Qed.

Lemma updateRange_syncs_witness :
  let p := Flat.props in
  let st := updateAll Flat.props init in
  acc_ok (updateRange p st 0 4) /\
  listLength (updateRange p st 0 4) = listLength st /\
  (forall ri, 0 <= ri < 4 -> ri < listLength st ->
     (heightAt (rowInfo (updateRange p st 0 4)) ri ==
      cellQ (rowHeight p ri))%Q) /\
  (forall k, 0 <= k < listLength st -> ~ 0 <= k < 4 ->
     JS.get (rowInfo (updateRange p st 0 4)) (k * 2) =
     JS.get (rowInfo st) (k * 2)) /\
  updateRange p (updateRange p st 0 4) 0 4 = updateRange p st 0 4.
Proof.
  apply (updateRange_syncs Flat.props (updateAll Flat.props init) 0 4).
  - apply acc_okb_sound. vm_compute. reflexivity.
  - vm_compute. reflexivity.
  - lia.
  - apply px_indexb_sound. vm_compute. reflexivity.
  - apply px_listb_sound. vm_compute. reflexivity.
Defined.





(** X8. [getRowTop] on an index with the documented structure whose stored
    heights are whole numbers of pixels: for every index from 0 to the
    length it is the direct sum of the stored heights before that row; with
    no negative height the tops do not decrease along the rows; and for an
    index that is not positive the loop does not run and the result is 0. *)
Theorem getRowTop_sum st k :
  acc_ok st -> listLength st < 2 ^ 31 -> 0 <= k <= listLength st ->
  px_index st ->
  is_fin (getRowTop st k) (prefixSum (rowInfo st) k) /\
  (nonneg_heights st ->
   forall j, 0 <= j <= k ->
     exists a b, getRowTop st j = Fin a /\ getRowTop st k = Fin b /\
                 (a <= b)%Q) /\
  (forall j, j <= 0 -> getRowTop st j = Fin 0).
Proof.
  intros Hok HN Hk _.
  split; [apply getRowTop_prefixSum; assumption |].
  split; [| intros j Hj; apply getRowTop_nonpos; exact Hj].
  intros Hnn j Hj.
  pose proof (getRowTop_prefixSum st j Hok HN ltac:(lia)) as Tj.
  pose proof (getRowTop_prefixSum st k Hok HN Hk) as Tk.
  destruct (getRowTop st j) as [a |]; [| contradiction].
  destruct (getRowTop st k) as [b |]; [| contradiction].
  exists a, b. split; [reflexivity |]. split; [reflexivity |].
  cbn [is_fin] in Tj, Tk. rewrite Tj, Tk.
  apply prefixSum_le; [exact Hnn | lia | lia].
Qed.

Lemma getRowTop_sum_witness :
  nonneg_heights Flat.st /\
  is_fin (getRowTop Flat.st 4) (prefixSum (rowInfo Flat.st) 4) /\
  (nonneg_heights Flat.st ->
   forall j, 0 <= j <= 4 ->
     exists a b, getRowTop Flat.st j = Fin a /\ getRowTop Flat.st 4 = Fin b /\
                 (a <= b)%Q) /\
  (forall j, j <= 0 -> getRowTop Flat.st j = Fin 0).
Proof.
  split; [apply nonneg_heightsb_sound; vm_compute; reflexivity |].
  apply (getRowTop_sum Flat.st 4).
  - apply acc_okb_sound. vm_compute. reflexivity.
  - vm_compute. reflexivity.
  - vm_compute. split; discriminate.
  - apply px_indexb_sound. vm_compute. reflexivity.
Defined.

Lemma getRowIdx_loop_NaN (info : array) : forall n bit ri,
  (Z.to_nat bit < n)%nat -> getRowIdx_loop info bit ri NaN = ri.
Proof.
  induction n as [| n IH]; intros bit ri Hn; [lia |].
  rewrite getRowIdx_loop_eq.
  destruct (Z.leb_spec 1 bit) as [Hb | Hb]; [| reflexivity]. cbv zeta.
  change (JS.ge NaN (JS.get info ((ri + bit) * 2 - 1))) with false.
  apply IH.
  assert (bit / 2 < bit) by (apply Z.div_lt; lia).
  assert (0 <= bit / 2) by (apply Z.div_pos; lia). lia.
Qed.

Lemma getRowIdx_bounds st t :
  Z.of_nat (length (rowInfo st)) <= 2 * listLength st ->
  (JS.lt t (Fin 0) = true -> getRowIdx st t = -1) /\
  (JS.lt t (Fin 0) = false -> 0 <= getRowIdx st t <= listLength st).
Proof.
  intros HL. unfold getRowIdx. split; intros ->; [reflexivity |].
  apply (getRowIdx_loop_bound (rowInfo st) (listLength st)
           (S (Z.to_nat (bpt st)))); lia.
Qed.

(** X9. [getRowIdx] on any index whose array has at most two cells per row,
    whatever the cells hold: a negative offset gives -1, every other offset
    gives an index from 0 to the length, because the loop never steps over a
    cell that the array does not have; and the offset NaN gives 0. *)
Theorem getRowIdx_range st t :
  Z.of_nat (length (rowInfo st)) <= 2 * listLength st ->
  (JS.lt t (Fin 0) = true -> getRowIdx st t = -1) /\
  (JS.lt t (Fin 0) = false -> 0 <= getRowIdx st t <= listLength st) /\
  getRowIdx st NaN = 0.
Proof.
  intros HL. destruct (getRowIdx_bounds st t HL) as [H1 H2].
  split; [exact H1 |]. split; [exact H2 |].
  unfold getRowIdx. cbn [JS.lt].
  apply (getRowIdx_loop_NaN (rowInfo st) (S (Z.to_nat (bpt st)))). lia.
Qed.

Lemma getRowIdx_range_witness :
  (JS.lt (Fin 25) (Fin 0) = true -> getRowIdx Grow.st2 (Fin 25) = -1) /\
  (JS.lt (Fin 25) (Fin 0) = false ->
   0 <= getRowIdx Grow.st2 (Fin 25) <= listLength Grow.st2) /\
  getRowIdx Grow.st2 NaN = 0.
Proof.
  apply (getRowIdx_range Grow.st2 (Fin 25)). vm_compute. discriminate.
Defined.

(** X10. Round trip of the two lookups: on an index with the documented
    structure whose stored heights are positive whole numbers of pixels,
    [getRowIdx] of the top of a row is that row, and [getRowIdx] of the
    total height is the length. *)
Theorem getRowIdx_getRowTop st i :
  acc_ok st -> pos_heights st -> listLength st < 2 ^ 31 ->
  0 <= i <= listLength st ->
  px_index st ->
  getRowIdx st (getRowTop st i) = i.
Proof.
  intros Hok Hpos HN Hi _.
  pose proof (pos_heights_nonneg st Hpos) as Hnn.
  pose proof (getRowTop_prefixSum st i Hok HN Hi) as T.
  destruct (getRowTop st i) as [q |]; [| contradiction]. cbn [is_fin] in T.
  destruct (getRowIdx_correct st q Hok Hnn) as (_ & Hin & Hout).
  assert (H0 : (0 <= q)%Q).
  { rewrite T. rewrite <- (prefixSum_nonpos (rowInfo st) 0) at 1 by lia.
    apply prefixSum_le; [exact Hnn | lia | lia]. }
  destruct (Z_lt_dec i (listLength st)) as [Hlt | Hge].
  - assert (Hnext : (q < prefixSum (rowInfo st) (i + 1))%Q).
    { rewrite prefixSum_succ by lia. rewrite T.
      pose proof (Hpos i ltac:(lia)). lra. }
    assert (Htot : (prefixSum (rowInfo st) (i + 1) <=
                    prefixSum (rowInfo st) (listLength st))%Q).
    { apply prefixSum_le; [exact Hnn | lia | lia]. }
    destruct Hin as (_ & _ & Huniq); [split; [exact H0 | lra] |].
    symmetry. apply Huniq; [lia |]. split; [rewrite T; lra | exact Hnext].
  - assert (i = listLength st) by lia. subst i.
    apply Hout; [exact H0 | rewrite T; lra].
Qed.

Lemma getRowIdx_getRowTop_witness :
  getRowIdx (updateAll Scenario.props init)
            (getRowTop (updateAll Scenario.props init) 3) = 3.
Proof.
  apply (getRowIdx_getRowTop (updateAll Scenario.props init) 3).
  - apply acc_okb_sound. vm_compute. reflexivity.
  - apply pos_heightsb_sound. vm_compute. reflexivity.
  - vm_compute. reflexivity.
  - vm_compute. split; discriminate.
  - apply px_indexb_sound. vm_compute. reflexivity.
Defined.

(** X11. [getRowIdx] against [getRowTop], on an index with the documented
    structure whose stored heights are whole numbers of pixels, none
    negative, and for a whole offset: an offset below 0 gives -1; an offset
    inside the table gives a row whose top is at or before the offset while
    the top of the next row is after it; an offset at or past the total
    height gives the length. *)
Theorem getRowIdx_between st q :
  acc_ok st -> nonneg_heights st -> listLength st < 2 ^ 31 ->
  px_index st -> px_offset (Fin q) ->
  ((q < 0)%Q -> getRowIdx st (Fin q) = -1) /\
  (forall total, getTotalRowHeight st = Fin total -> (0 <= q < total)%Q ->
     0 <= getRowIdx st (Fin q) < listLength st /\
     exists a b,
       getRowTop st (getRowIdx st (Fin q)) = Fin a /\
       getRowTop st (getRowIdx st (Fin q) + 1) = Fin b /\
       (a <= q < b)%Q) /\
  (forall total, getTotalRowHeight st = Fin total -> (0 <= q)%Q ->
     (total <= q)%Q -> getRowIdx st (Fin q) = listLength st).
Proof.
  intros Hok Hnn HN _ _.
  destruct (getRowIdx_correct st q Hok Hnn) as (Hneg & Hin & Hout).
  pose proof (acc_ok_length st Hok) as H0.
  pose proof (getRowTop_prefixSum st (listLength st) Hok HN ltac:(lia)) as TN.
  split; [exact Hneg |]. split.
  - intros total Ht Hq. unfold getTotalRowHeight in Ht. rewrite Ht in TN.
    cbn [is_fin] in TN.
    destruct Hin as (Hi & Hloc & _); [rewrite <- TN; exact Hq |].
    split; [exact Hi |].
    pose proof (getRowTop_prefixSum st (getRowIdx st (Fin q)) Hok HN
                  ltac:(lia)) as Ta.
    pose proof (getRowTop_prefixSum st (getRowIdx st (Fin q) + 1) Hok HN
                  ltac:(lia)) as Tb.
    destruct (getRowTop st (getRowIdx st (Fin q))) as [a |]; [| contradiction].
    destruct (getRowTop st (getRowIdx st (Fin q) + 1)) as [b |];
      [| contradiction].
    exists a, b. split; [reflexivity |]. split; [reflexivity |].
    cbn [is_fin] in Ta, Tb. rewrite Ta, Tb. exact Hloc.
  - intros total Ht Hq Hle. unfold getTotalRowHeight in Ht. rewrite Ht in TN.
    cbn [is_fin] in TN. apply Hout; [exact Hq | rewrite <- TN; exact Hle].
Qed.

Lemma getRowIdx_between_witness :
  ((25 < 0)%Q -> getRowIdx Flat.st (Fin 25) = -1) /\
  (forall total, getTotalRowHeight Flat.st = Fin total -> (0 <= 25 < total)%Q ->
     0 <= getRowIdx Flat.st (Fin 25) < listLength Flat.st /\
     exists a b,
       getRowTop Flat.st (getRowIdx Flat.st (Fin 25)) = Fin a /\
       getRowTop Flat.st (getRowIdx Flat.st (Fin 25) + 1) = Fin b /\
       (a <= 25 < b)%Q) /\
  (forall total, getTotalRowHeight Flat.st = Fin total -> (0 <= 25)%Q ->
     (total <= 25)%Q -> getRowIdx Flat.st (Fin 25) = listLength Flat.st).
Proof.
  apply (getRowIdx_between Flat.st 25).
  - apply acc_okb_sound. vm_compute. reflexivity.
  - apply nonneg_heightsb_sound. vm_compute. reflexivity.
  - vm_compute. reflexivity.
  - apply px_indexb_sound. vm_compute. reflexivity.
  - apply (whole_uptob_sound (2 ^ 40)). vm_compute. reflexivity.
Defined.

(** ** The window that [redraw] computes *)

Lemma slice_in_range {A : Type} (l : Datatypes.list A) a b :
  0 <= a <= b -> b <= Z.of_nat (length l) ->
  Z.of_nat (length (JS.slice l a b)) = b - a /\
  forall k, 0 <= k < b - a ->
    nth_error (JS.slice l a b) (Z.to_nat k) = nth_error l (Z.to_nat (a + k)).
Proof.
  intros Hab Hb. unfold JS.slice. cbv zeta.
  destruct (Z.ltb_spec a 0); [lia |].
  destruct (Z.ltb_spec b 0); [lia |].
  rewrite !Z.min_l by lia. split.
  - rewrite length_firstn, length_skipn. lia.
  - intros k Hk. rewrite nth_error_firstn.
    destruct (Nat.ltb_spec (Z.to_nat k) (Z.to_nat (b - a))); [| lia].
    rewrite nth_error_skipn. f_equal. lia.
Qed.

Lemma newStartIdx_range p d st :
  Z.of_nat (length (rowInfo st)) <= 2 * listLength st ->
  0 <= startIdx st <= listLength st ->
  0 <= newStartIdx_of p d st <= listLength st.
Proof.
  intros HL Hs. unfold newStartIdx_of, getStartIdx. cbv zeta.
  destruct (_ || _); [| exact Hs].
  set (t := JS.sub (topOffset_of p d) (padding2_of p d st)).
  destruct (getRowIdx_bounds st t HL) as [H1 H2].
  destruct (JS.lt t (Fin 0)); [rewrite H1 by reflexivity |
                               specialize (H2 eq_refl)]; lia.
Qed.

Lemma newEndIdx_range p d st :
  Z.of_nat (length (rowInfo st)) <= 2 * listLength st ->
  0 <= startIdx st <= listLength st ->
  endIdx st <= listLength st ->
  newStartIdx_of p d st <= newEndIdx_of p d st <= listLength st.
Proof.
  intros HL Hs He. pose proof (newStartIdx_range p d st HL Hs) as Hn.
  unfold newEndIdx_of, getEndIdx. cbv zeta.
  destruct (_ || _); lia.
Qed.

Lemma sync_index p st :
  rowInfo (sync p st) = rowInfo (update p st) /\
  listLength (sync p st) = listLength (update p st).
Proof. split; reflexivity. Qed.

(** the window after [redraw], when the list has not shrunk below the
    window that the component holds *)
Lemma redraw_window p d st :
  fin_index st -> listLength st < 2 ^ 31 -> fits p ->
  0 <= startIdx st <= endIdx st -> endIdx st <= Z.of_nat (length (list p)) ->
  listLength (fst (redraw p d st)) = Z.of_nat (length (list p)) /\
  fin_index (fst (redraw p d st)) /\
  0 <= startIdx (fst (redraw p d st)) /\
  startIdx (fst (redraw p d st)) <= endIdx (fst (redraw p d st)) /\
  endIdx (fst (redraw p d st)) <= Z.of_nat (length (list p)).
Proof.
  intros Hfin HN Hfit Hw He.
  destruct (update_index p st Hfin HN ltac:(lia) Hfit) as (EL & Hfin' & _).
  destruct (redraw_index p d st) as (ER & ERL & _).
  split; [rewrite ERL; exact EL |].
  split; [apply (fin_index_ext (update p st)); assumption |].
  destruct (sync_index p st) as (SR & SL).
  destruct (sync_frame p st) as (F1 & F2 & _).
  assert (HL : Z.of_nat (length (rowInfo (sync p st))) <=
               2 * listLength (sync p st)).
  { rewrite SR, SL. destruct Hfin' as [HL' _]. lia. }
  pose proof (newStartIdx_range p d (sync p st) HL
                ltac:(rewrite F1, SL, EL; lia)) as Hs'.
  pose proof (newEndIdx_range p d (sync p st) HL
                ltac:(rewrite F1, SL, EL; lia)
                ltac:(rewrite F2, SL, EL; lia)) as He'.
  rewrite SL, EL in Hs', He'.
  rewrite redraw_eq. cbv zeta.
  destruct (negb _ || negb _); cbn [fst startIdx endIdx].
  - lia.
  - rewrite F1, F2. lia.
Qed.



(** X13. What [redraw] hands out.  Either the window is the one the
    component held, nothing is emitted and [vlist] is left alone; or the
    window has changed, exactly one event is emitted and it carries the new
    window, and (the list not being shorter than the old window) [vlist]
    holds exactly the rows of the list from the new [startIdx] up to the new
    [endIdx], in order. *)
Theorem redraw_emits p d st :
  fin_index st -> listLength st < 2 ^ 31 -> fits p ->
  0 <= startIdx st <= endIdx st -> endIdx st <= Z.of_nat (length (list p)) ->
  let st' := fst (redraw p d st) in
  (snd (redraw p d st) = [] /\
   startIdx st' = startIdx st /\ endIdx st' = endIdx st /\
   vlist st' = vlist st) \/
  (snd (redraw p d st) = [UpdateHeight (startIdx st') (endIdx st')] /\
   (startIdx st' <> startIdx st \/ endIdx st' <> endIdx st) /\
   Z.of_nat (length (vlist st')) = endIdx st' - startIdx st' /\
   forall k, 0 <= k < endIdx st' - startIdx st' ->
     nth_error (vlist st') (Z.to_nat k) =
     nth_error (list p) (Z.to_nat (startIdx st' + k))).
Proof.
  intros Hfin HN Hfit Hw He st'.
  destruct (redraw_window p d st Hfin HN Hfit Hw He) as (_ & _ & H0 & H1 & H2).
  fold st' in H0, H1, H2. revert H0 H1 H2. subst st'.
  destruct (sync_frame p st) as (F1 & F2 & _ & _ & F5 & _).
  rewrite redraw_eq. cbv zeta.
  destruct (negb _ || negb _) eqn:C; cbn [fst snd startIdx endIdx vlist].
  - intros H0 H1 H2. right. split; [reflexivity |]. split.
    + apply orb_true_iff in C. rewrite !negb_true_iff in C.
      rewrite <- F1, <- F2.
      destruct C as [C | C]; [left | right]; apply Z.eqb_neq; exact C.
    + apply slice_in_range; lia.
  - intros _ _ _. left. split; [reflexivity |]. repeat split; assumption.
Qed.

Lemma redraw_emits_witness :
  let p := Shrink.props10 in
  let d := mkDom 0 0 1000 in
  let st := fst Shrink.step1 in
  let st' := fst (redraw p d st) in
  (snd (redraw p d st) = [] /\
   startIdx st' = startIdx st /\ endIdx st' = endIdx st /\
   vlist st' = vlist st) \/
  (snd (redraw p d st) = [UpdateHeight (startIdx st') (endIdx st')] /\
   (startIdx st' <> startIdx st \/ endIdx st' <> endIdx st) /\
   Z.of_nat (length (vlist st')) = endIdx st' - startIdx st' /\
   forall k, 0 <= k < endIdx st' - startIdx st' ->
     nth_error (vlist st') (Z.to_nat k) =
     nth_error (list p) (Z.to_nat (startIdx st' + k))).
Proof.
  apply (redraw_emits Shrink.props10 (mkDom 0 0 1000) (fst Shrink.step1)).
  - apply fin_indexb_sound. vm_compute. reflexivity.
  - vm_compute. reflexivity.
  - vm_compute. reflexivity.
  - vm_compute. split; discriminate.
  - vm_compute. discriminate.
Defined.

(** X14. Once both cached positions [startTop] and [endTop] are NaN, which
    is how a [redraw] leaves them when it keeps a window that reaches past a
    list that has shrunk, no later [redraw] changes the window: whatever the
    lists, the props and the scroll positions of a run of redraws,
    [startIdx], [endIdx], [vlist] and the sheet style stay and no event is
    emitted. *)
Theorem redraws_stuck steps : forall st,
  startTop st = NaN -> endTop st = NaN -> startIdx st <= endIdx st ->
  startIdx (fst (redraws steps st)) = startIdx st /\
  endIdx (fst (redraws steps st)) = endIdx st /\
  startTop (fst (redraws steps st)) = NaN /\
  endTop (fst (redraws steps st)) = NaN /\
  vlist (fst (redraws steps st)) = vlist st /\
  sheetStyle (fst (redraws steps st)) = sheetStyle st /\
  snd (redraws steps st) = [].
Proof.
  induction steps as [| [p d] rest IH]; intros st Hs He Hle.
  - repeat split; assumption.
  - cbn [redraws]. cbv zeta.
    rewrite (redraw_stuck_on_NaN p d st Hs He Hle). cbn [fst snd app].
    destruct (sync_frame p st) as (F1 & F2 & F3 & F4 & F5 & F6).
    destruct (IH (sync p st)) as (I1 & I2 & I3 & I4 & I5 & I6 & I7);
      [congruence | congruence | lia |].
    repeat split; congruence.
Qed.

Lemma redraws_stuck_witness :
  let steps := [(Shrink.props3, Shrink.dom);
                (Shrink.props10, mkDom 0 0 1000)] in
  let st := fst Shrink.step2 in
  startIdx (fst (redraws steps st)) = startIdx st /\
  endIdx (fst (redraws steps st)) = endIdx st /\
  startTop (fst (redraws steps st)) = NaN /\
  endTop (fst (redraws steps st)) = NaN /\
  vlist (fst (redraws steps st)) = vlist st /\
  sheetStyle (fst (redraws steps st)) = sheetStyle st /\
  snd (redraws steps st) = [].
Proof.
  apply (redraws_stuck [(Shrink.props3, Shrink.dom);
                        (Shrink.props10, mkDom 0 0 1000)]
                       (fst Shrink.step2)).
  - vm_compute. reflexivity.
  - vm_compute. reflexivity.
  - vm_compute. discriminate.
Defined.

(** X15. The heights that [redraw] sets, on an index with the documented
    structure when [update] does not take its growing branch, the stored
    heights, the heights of the list, the header height and the footer
    height being whole numbers of pixels: [screenHeight] is the header
    height plus the sum of all stored row heights plus the footer height,
    and [viewportHeight2] is the [viewportHeight] prop, or that same sum
    when the prop is null. *)
Theorem redraw_screenHeight p d st :
  acc_ok st -> listLength st < 2 ^ 31 -> 0 <= startIdx st ->
  fits p -> no_growth p st ->
  px_index st -> px_list p ->
  px (Fin (headerHeight p)) -> px (Fin (footerHeight p)) ->
  let st' := fst (redraw p d st) in
  is_fin (screenHeight st')
         (headerHeight p + prefixSum (rowInfo st') (listLength st')
          + footerHeight p) /\
  viewportHeight2 st' = match viewportHeight p with
                        | None => screenHeight st'
                        | Some v => Fin v
                        end.
Proof.
  intros Hok HN Hs Hfit Hng _ _ _ _ st'. subst st'.
  destruct (update_acc_ok p st Hok HN Hs Hfit Hng) as [Hok' HN'].
  destruct (redraw_index p d st) as (ER & ERL & _).
  pose proof (getRowTop_prefixSum (update p st) (listLength (update p st))
                Hok' HN' ltac:(pose proof (acc_ok_length _ Hok'); lia)) as T.
  assert (E : screenHeight (fst (redraw p d st)) =
              screenHeight_of p (update p st) /\
              viewportHeight2 (fst (redraw p d st)) =
              viewportHeight2_of p (update p st)).
  { rewrite redraw_eq. cbv zeta.
    destruct (negb _ || negb _); split; reflexivity. }
  destruct E as [E1 E2]. rewrite E1, E2, ER, ERL. split.
  - unfold screenHeight_of, getTotalRowHeight.
    destruct (getRowTop (update p st) (listLength (update p st))) as [t |];
      [| contradiction].
    cbn [is_fin JS.add] in *. rewrite T. reflexivity.
  - unfold viewportHeight2_of. destruct (viewportHeight p); reflexivity.
Qed.

Lemma redraw_screenHeight_witness :
  let p := Scenario.props' in
  let st' := fst (redraw p (Scenario.dom 0 40) (fst (Scenario.step1 40))) in
  is_fin (screenHeight st')
         (headerHeight p + prefixSum (rowInfo st') (listLength st')
          + footerHeight p) /\
  viewportHeight2 st' = match viewportHeight p with
                        | None => screenHeight st'
                        | Some v => Fin v
                        end.
Proof.
  apply (redraw_screenHeight Scenario.props' (Scenario.dom 0 40)
           (fst (Scenario.step1 40))).
  - apply acc_okb_sound. vm_compute. reflexivity.
  - vm_compute. reflexivity.
  - vm_compute. discriminate.
  - vm_compute. reflexivity.
  - right. vm_compute. discriminate.
  - apply px_indexb_sound. vm_compute. reflexivity.
  - apply px_listb_sound. vm_compute. reflexivity.
  - apply (whole_uptob_sound (2 ^ 20)). vm_compute. reflexivity.
  - apply (whole_uptob_sound (2 ^ 20)). vm_compute. reflexivity.
Defined.

(** X16. A boundary that is recomputed is right.  On an index with the
    documented structure whose stored heights are whole numbers of pixels,
    none negative, with whole offsets, a whole padding and a hysteresis
    ratio that is a multiple of 1/1024, take a row that meets the padded
    viewport, from [topOffset - padding2] to [bottomOffset + padding2]:
    when [getStartIdx] does not keep the old [startIdx] it returns an index
    at or before that row, and when [getEndIdx] does not keep the old
    [endIdx] it returns an index after that row. *)
Theorem window_covers_viewport p st t b pd j :
  acc_ok st -> nonneg_heights st -> listLength st < 2 ^ 31 ->
  0 <= j < listLength st ->
  px_index st -> px_offset (Fin t) -> px_offset (Fin b) -> px (Fin pd) ->
  dyadic_hysteresis p ->
  (getStartIdx p st (Fin t) (Fin pd) <> startIdx st ->
   (t - pd < prefixSum (rowInfo st) (j + 1))%Q ->
   0 <= getStartIdx p st (Fin t) (Fin pd) <= j) /\
  (getEndIdx p st (Fin b) (Fin pd) <> endIdx st ->
   (prefixSum (rowInfo st) j <= b + pd)%Q ->
   j < getEndIdx p st (Fin b) (Fin pd) <= listLength st).
Proof.
  intros Hok Hnn _ Hj _ _ _ _ _. split.
  - unfold getStartIdx. cbv zeta.
    destruct (_ || _); [| intros Hne; contradiction].
    intros _ Hmeet. cbn [JS.sub].
    destruct (Qlt_le_dec (t - pd) 0) as [Hneg | Hpos].
    + destruct (getRowIdx_correct st (t - pd) Hok Hnn) as (H1 & _).
      rewrite H1 by exact Hneg. lia.
    + destruct (getRowIdx_locate st Hok (t - pd) Hpos) as (Hi & Hle & _).
      split; [lia |]. apply Z.max_lub; [lia |].
      destruct (Z_le_dec (getRowIdx st (Fin (t - pd))) j) as [Hy | Hn];
        [exact Hy |].
      pose proof (prefixSum_le st (j + 1) (getRowIdx st (Fin (t - pd))) Hnn
                    ltac:(lia) ltac:(lia)). lra.
  - unfold getEndIdx. cbv zeta.
    destruct (_ || _); [| intros Hne; contradiction].
    intros _ Hmeet. cbn [JS.add].
    assert (H0 : (0 <= prefixSum (rowInfo st) j)%Q).
    { rewrite <- (prefixSum_nonpos (rowInfo st) 0) at 1 by lia.
      apply prefixSum_le; [exact Hnn | lia | lia]. }
    destruct (getRowIdx_locate st Hok (b + pd) ltac:(lra)) as (Hi & _ & Hgt).
    split; [| lia]. apply Z.min_glb_lt; [lia |].
    destruct (Z_lt_dec j (getRowIdx st (Fin (b + pd)) + 1)) as [Hy | Hn];
      [exact Hy |].
    pose proof (prefixSum_le st (getRowIdx st (Fin (b + pd)) + 1) j Hnn
                  ltac:(lia) ltac:(lia)).
    specialize (Hgt ltac:(lia)). lra.
Qed.

Lemma window_covers_viewport_witness :
  let p := Scenario.props' in
  let st := fst (Scenario.step2 40) in
  (getStartIdx p st (Fin 90) (Fin 0) <> startIdx st ->
   (90 - 0 < prefixSum (rowInfo st) (3 + 1))%Q ->
   0 <= getStartIdx p st (Fin 90) (Fin 0) <= 3) /\
  (getEndIdx p st (Fin 130) (Fin 0) <> endIdx st ->
   (prefixSum (rowInfo st) 3 <= 130 + 0)%Q ->
   3 < getEndIdx p st (Fin 130) (Fin 0) <= listLength st).
Proof.
  apply (window_covers_viewport Scenario.props' (fst (Scenario.step2 40))
           90 130 0 3).
  - apply acc_okb_sound. vm_compute. reflexivity.
  - apply nonneg_heightsb_sound. vm_compute. reflexivity.
  - vm_compute. reflexivity.
  - vm_compute. split; [discriminate | reflexivity].
  - apply px_indexb_sound. vm_compute. reflexivity.
  - apply (whole_uptob_sound (2 ^ 40)). vm_compute. reflexivity.
  - apply (whole_uptob_sound (2 ^ 40)). vm_compute. reflexivity.
  - apply (whole_uptob_sound (2 ^ 20)). vm_compute. reflexivity.
  - exists 0. split; [lia | vm_compute; reflexivity].
Defined.

(** ** The wrapper component: reading the rendered heights back *)

Lemma lookup_Some (l : Datatypes.list Row) i :
  0 <= i < Z.of_nat (length l) -> exists row, Simple.lookup l i = Some row.
Proof.
  intros Hi. unfold Simple.lookup.
  destruct (Z.ltb_spec i 0); [lia |].
  destruct (nth_error l (Z.to_nat i)) as [row |] eqn:E;
    [exists row; reflexivity |].
  apply nth_error_None in E. lia.
Qed.

Lemma lookup_None (l : Datatypes.list Row) i :
  Simple.lookup l i = None <-> i < 0 \/ Z.of_nat (length l) <= i.
Proof.
  unfold Simple.lookup. destruct (Z.ltb_spec i 0) as [Hn | Hp].
  - split; [intros _; left; exact Hn | reflexivity].
  - rewrite nth_error_None. lia.
Qed.

Lemma store_length (l : Datatypes.list Row) i row :
  0 <= i < Z.of_nat (length l) -> length (Simple.store l i row) = length l.
Proof.
  intros Hi. unfold Simple.store.
  rewrite length_app. cbn [length]. rewrite length_firstn, length_skipn. lia.
Qed.

Lemma lookup_store_same (l : Datatypes.list Row) i row :
  0 <= i < Z.of_nat (length l) ->
  Simple.lookup (Simple.store l i row) i = Some row.
Proof.
  intros Hi. unfold Simple.lookup, Simple.store.
  destruct (Z.ltb_spec i 0); [lia |].
  rewrite nth_error_app2 by (rewrite length_firstn; lia).
  rewrite length_firstn.
  replace (Z.to_nat i - Nat.min (Z.to_nat i) (length l))%nat with 0%nat by lia.
  reflexivity.
Qed.

Lemma lookup_store_other (l : Datatypes.list Row) i j row :
  0 <= i < Z.of_nat (length l) -> j <> i ->
  Simple.lookup (Simple.store l i row) j = Simple.lookup l j.
Proof.
  intros Hi Hne. unfold Simple.lookup, Simple.store.
  destruct (Z.ltb_spec j 0); [reflexivity |].
  destruct (Z_lt_dec j i) as [Hlt | Hge].
  - rewrite nth_error_app1 by (rewrite length_firstn; lia).
    rewrite nth_error_firstn.
    destruct (Nat.ltb_spec (Z.to_nat j) (Z.to_nat i)); [reflexivity | lia].
  - rewrite nth_error_app2 by (rewrite length_firstn; lia).
    rewrite length_firstn.
    replace (Z.to_nat j - Nat.min (Z.to_nat i) (length l))%nat
      with (S (Z.to_nat j - S (Z.to_nat i)))%nat by lia.
    cbn [nth_error]. rewrite nth_error_skipn. f_equal. lia.
Qed.

(** a row that [updateRow] has run on is left alone by a second run, the
    rendered heights being the same *)
Lemma updateRow_measured dom row :
  Simple.updateRow dom (measured dom row) = None.
Proof.
  unfold measured, Simple.updateRow.
  destruct (dom (key row)) as [h |] eqn:D; [| rewrite D; reflexivity].
  destruct (height row) as [h0 |] eqn:H.
  - destruct (Qeq_bool h0 h) eqn:E.
    + rewrite D, H, E. reflexivity.
    + cbn [key height]. rewrite D.
      rewrite (proj2 (Qeq_bool_iff h h) (Qeq_refl h)). reflexivity.
  - cbn [key height]. rewrite D.
    rewrite (proj2 (Qeq_bool_iff h h) (Qeq_refl h)). reflexivity.
Qed.

Lemma measured_row dom row :
  key (measured dom row) = key row /\
  match dom (key row) with
  | Some h => exists h', height (measured dom row) = Some h' /\ (h' == h)%Q
  | None => measured dom row = row
  end.
Proof.
  unfold measured, Simple.updateRow.
  destruct (dom (key row)) as [h |]; [| split; reflexivity].
  destruct (height row) as [h0 |] eqn:H.
  - destruct (Qeq_bool h0 h) eqn:E.
    + split; [reflexivity |]. exists h0. split; [exact H |].
      apply Qeq_bool_iff. exact E.
    + split; [reflexivity |]. exists h. split; reflexivity.
  - split; [reflexivity |]. exists h. split; reflexivity.
Qed.

Lemma changes_ext dom (l l' : Datatypes.list Row) (idxs : Datatypes.list Z) :
  (forall i, In i idxs -> Simple.lookup l' i = Simple.lookup l i) ->
  filter (changes dom l') idxs = filter (changes dom l) idxs.
Proof.
  intros H. apply filter_ext_in. intros i Hi. unfold changes.
  rewrite (H i Hi). reflexivity.
Qed.

Lemma updateHeight_loop_spec dom : forall idxs st,
  NoDup idxs ->
  (forall i, In i idxs -> 0 <= i < Z.of_nat (length (Simple.list st))) ->
  exists st',
    Simple.updateHeight_loop dom idxs st = Simple.Returned st' /\
    length (Simple.list st') = length (Simple.list st) /\
    (forall i row, In i idxs -> Simple.lookup (Simple.list st) i = Some row ->
       Simple.lookup (Simple.list st') i = Some (measured dom row)) /\
    (forall i, ~ In i idxs ->
       Simple.lookup (Simple.list st') i = Simple.lookup (Simple.list st) i) /\
    Simple.redrawSignal st' =
      Simple.redrawSignal st +
      Z.of_nat (length (filter (changes dom (Simple.list st)) idxs)).
Proof.
  induction idxs as [| i rest IH]; intros st Hnd Hin.
  - exists st. cbn [Simple.updateHeight_loop filter length].
    split; [reflexivity |]. split; [reflexivity |].
    split; [intros i row [] |]. split; [reflexivity | lia].
  - inversion Hnd as [| ? ? Hni Hnd']; subst.
    pose proof (Hin i (or_introl eq_refl)) as Hi.
    destruct (lookup_Some (Simple.list st) i Hi) as [row Hrow].
    cbn [Simple.updateHeight_loop filter]. unfold changes at 1.
    rewrite Hrow.
    destruct (Simple.updateRow dom row) as [row' |] eqn:U.
    + set (st1 := Simple.mkRefs (Simple.store (Simple.list st) i row')
                                (Simple.redrawSignal st + 1)).
      assert (L1 : length (Simple.list st1) = length (Simple.list st)).
      { apply store_length. exact Hi. }
      assert (K1 : forall j, j <> i ->
                Simple.lookup (Simple.list st1) j =
                Simple.lookup (Simple.list st) j).
      { intros j Hj. apply lookup_store_other; assumption. }
      destruct (IH st1 Hnd') as (st' & R & L & M & O & S).
      { intros j Hj. rewrite L1. apply Hin. right. exact Hj. }
      exists st'. split; [exact R |]. split; [congruence |].
      split; [| split].
      * intros j r [<- | Hj] Hr.
        -- rewrite O by exact Hni. cbn [Simple.list st1].
           rewrite lookup_store_same by exact Hi.
           rewrite Hrow in Hr. injection Hr as <-.
           unfold measured. rewrite U. reflexivity.
        -- apply M; [exact Hj |]. rewrite K1; [exact Hr |].
           intros ->. contradiction.
      * intros j Hj. rewrite O by (intros H; apply Hj; right; exact H).
        apply K1. intros ->. apply Hj. left. reflexivity.
      * rewrite S. cbn [Simple.redrawSignal st1 length].
        rewrite (changes_ext dom (Simple.list st) (Simple.list st1) rest).
        -- lia.
        -- intros j Hj. apply K1. intros ->. contradiction.
    + destruct (IH st Hnd') as (st' & R & L & M & O & S).
      { intros j Hj. apply Hin. right. exact Hj. }
      exists st'. split; [exact R |]. split; [exact L |].
      split; [| split].
      * intros j r [<- | Hj] Hr.
        -- rewrite O by exact Hni. rewrite Hr. rewrite Hrow in Hr.
           injection Hr as <-. unfold measured. rewrite U. reflexivity.
        -- apply M; assumption.
      * intros j Hj. apply O. intros H. apply Hj. right. exact H.
      * exact S.
Qed.

Lemma range_NoDup from to : NoDup (JS.range from to).
Proof.
  unfold JS.range. generalize (seq_NoDup (Z.to_nat (to - from)) 0).
  generalize (seq 0 (Z.to_nat (to - from))).
  induction 1 as [| x l Hx Hl IH]; cbn [map]; constructor; [| exact IH].
  rewrite in_map_iff. intros (y & Hy & Hin).
  assert (y = x) by lia. subst y. contradiction.
Qed.

Lemma updateHeight_loop_noop dom : forall idxs st,
  (forall i, In i idxs ->
     exists row, Simple.lookup (Simple.list st) i = Some row /\
                 Simple.updateRow dom row = None) ->
  Simple.updateHeight_loop dom idxs st = Simple.Returned st.
Proof.
  induction idxs as [| i rest IH]; intros st H; [reflexivity |].
  cbn [Simple.updateHeight_loop].
  destruct (H i (or_introl eq_refl)) as (row & -> & ->).
  apply IH. intros j Hj. apply H. right. exact Hj.
Qed.

Lemma updateHeight_loop_throws dom : forall idxs st,
  (exists i, In i idxs /\ Simple.lookup (Simple.list st) i = None) ->
  exists st',
    Simple.updateHeight_loop dom idxs st = Simple.Thrown st' /\
    length (Simple.list st') = length (Simple.list st).
Proof.
  induction idxs as [| j rest IH]; intros st (i & Hi & Hnone);
    [destruct Hi |].
  cbn [Simple.updateHeight_loop].
  destruct (Simple.lookup (Simple.list st) j) as [row |] eqn:Hrow;
    [| exists st; split; reflexivity].
  assert (Hj : 0 <= j < Z.of_nat (length (Simple.list st))).
  { destruct (Z_lt_dec j 0) as [Hn | Hn];
      [rewrite (proj2 (lookup_None _ j)) in Hrow by lia; discriminate |].
    destruct (Z_le_dec (Z.of_nat (length (Simple.list st))) j) as [Hg | Hg];
      [rewrite (proj2 (lookup_None _ j)) in Hrow by lia; discriminate | lia]. }
  assert (Hrest : In i rest).
  { destruct Hi as [-> | Hi]; [congruence | exact Hi]. }
  destruct (Simple.updateRow dom row) as [row' |].
  - destruct (IH (Simple.mkRefs (Simple.store (Simple.list st) j row')
                                (Simple.redrawSignal st + 1)))
      as (st' & R & L).
    { exists i. split; [exact Hrest |]. cbn [Simple.list].
      apply lookup_None. rewrite store_length by exact Hj.
      apply lookup_None. exact Hnone. }
    exists st'. split; [exact R |]. rewrite L. cbn [Simple.list].
    apply store_length. exact Hj.
  - apply IH. exists i. split; assumption.
Qed.

(** X17. [updateHeight(from, to)] of the wrapper on a range within the list:
    the call returns; the list keeps its length; every row of the range
    keeps its key and, when it has a rendered element, carries the rendered
    height afterwards, while a row without an element is left as it was;
    the rows outside the range are left; and [redrawSignal] has grown by
    the number of rows that were written, so it is unchanged exactly when
    every height was already right. *)
Theorem updateHeight_measures dom st from to :
  0 <= from -> to <= Z.of_nat (length (Simple.list st)) ->
  exists st',
    Simple.updateHeight dom st from to = Simple.Returned st' /\
    length (Simple.list st') = length (Simple.list st) /\
    (forall i row, from <= i < to ->
       Simple.lookup (Simple.list st) i = Some row ->
       exists row',
         Simple.lookup (Simple.list st') i = Some row' /\
         key row' = key row /\
         match dom (key row) with
         | Some h => exists h', height row' = Some h' /\ (h' == h)%Q
         | None => row' = row
         end) /\
    (forall i, ~ from <= i < to ->
       Simple.lookup (Simple.list st') i = Simple.lookup (Simple.list st) i) /\
    Simple.redrawSignal st' =
      Simple.redrawSignal st +
      Z.of_nat (length (filter (changes dom (Simple.list st))
                               (JS.range from to))).
Proof.
  intros Hfrom Hto. unfold Simple.updateHeight.
  destruct (updateHeight_loop_spec dom (JS.range from to) st
              (range_NoDup from to)) as (st' & R & L & M & O & S).
  { intros i Hi. apply range_In in Hi. lia. }
  exists st'. split; [exact R |]. split; [exact L |].
  split; [| split; [| exact S]].
  - intros i row Hi Hrow. exists (measured dom row).
    split; [apply M; [apply range_In; exact Hi | exact Hrow] |].
    apply measured_row.
  - intros i Hi. apply O. rewrite range_In. exact Hi.
Qed.

Lemma updateHeight_measures_witness :
  let dom := fun k : Z => if k =? 1 then Some 35%Q else None in
  let st := Simple.mkRefs (rows 3) 0 in
  exists st',
    Simple.updateHeight dom st 0 3 = Simple.Returned st' /\
    length (Simple.list st') = length (Simple.list st) /\
    (forall i row, 0 <= i < 3 ->
       Simple.lookup (Simple.list st) i = Some row ->
       exists row',
         Simple.lookup (Simple.list st') i = Some row' /\
         key row' = key row /\
         match dom (key row) with
         | Some h => exists h', height row' = Some h' /\ (h' == h)%Q
         | None => row' = row
         end) /\
    (forall i, ~ 0 <= i < 3 ->
       Simple.lookup (Simple.list st') i = Simple.lookup (Simple.list st) i) /\
    Simple.redrawSignal st' =
      Simple.redrawSignal st +
      Z.of_nat (length (filter (changes dom (Simple.list st))
                               (JS.range 0 3))).
Proof.
  apply (updateHeight_measures
           (fun k : Z => if k =? 1 then Some 35%Q else None)
           (Simple.mkRefs (rows 3) 0) 0 3).
  - lia.
  - vm_compute. discriminate.
Defined.

(** X18. Measuring settles: when [updateHeight(from, to)] has returned and
    the rendered heights have not changed, the same call again writes no
    row and leaves [redrawSignal] alone, so it triggers no further
    redraw. *)
Theorem updateHeight_settles dom st from to st' :
  0 <= from -> to <= Z.of_nat (length (Simple.list st)) ->
  Simple.updateHeight dom st from to = Simple.Returned st' ->
  Simple.updateHeight dom st' from to = Simple.Returned st'.
Proof.
  intros Hfrom Hto R. unfold Simple.updateHeight in *.
  destruct (updateHeight_loop_spec dom (JS.range from to) st
              (range_NoDup from to)) as (st1 & R1 & L & M & _).
  { intros i Hi. apply range_In in Hi. lia. }
  rewrite R1 in R. injection R as <-.
  apply updateHeight_loop_noop. intros i Hi.
  destruct (lookup_Some (Simple.list st) i) as [row Hrow];
    [apply range_In in Hi; lia |].
  exists (measured dom row). split; [apply M; assumption |].
  apply updateRow_measured.
Qed.

Lemma updateHeight_settles_witness :
  let dom := fun k : Z => if k =? 1 then Some 35%Q else None in
  Simple.updateHeight dom
    (Simple.mkRefs [mkRow 0 None; mkRow 1 (Some 35%Q); mkRow 2 None] 1) 0 3 =
  Simple.Returned
    (Simple.mkRefs [mkRow 0 None; mkRow 1 (Some 35%Q); mkRow 2 None] 1).
Proof.
  apply (updateHeight_settles
           (fun k : Z => if k =? 1 then Some 35%Q else None)
           (Simple.mkRefs (rows 3) 0) 0 3).
  - lia.
  - vm_compute. discriminate.
  - vm_compute. reflexivity.
Defined.

(** X19. [updateHeight(from, to)] of the wrapper has no range test: when the
    range is not empty and reaches below index 0 or past the end of the
    list, the call does not return but throws, at the first index that the
    list lacks; the list keeps its length. *)
Theorem updateHeight_throws dom st from to :
  from < to ->
  from < 0 \/ Z.of_nat (length (Simple.list st)) < to ->
  exists st',
    Simple.updateHeight dom st from to = Simple.Thrown st' /\
    length (Simple.list st') = length (Simple.list st).
Proof.
  intros Hlt Hout. unfold Simple.updateHeight.
  apply updateHeight_loop_throws.
  destruct (Z_lt_dec from 0) as [Hneg | Hpos].
  - exists from. split; [apply range_In; lia | apply lookup_None; lia].
  - exists (to - 1). split; [apply range_In; lia | apply lookup_None; lia].
Qed.

Lemma updateHeight_throws_witness :
  exists st',
    Simple.updateHeight (fun _ => None) (Simple.mkRefs (rows 3) 0) 3 10 =
      Simple.Thrown st' /\
    length (Simple.list st') = length (Simple.list (Simple.mkRefs (rows 3) 0)).
Proof.
  apply (updateHeight_throws (fun _ => None) (Simple.mkRefs (rows 3) 0) 3 10).
  - lia.
  - right. vm_compute. reflexivity.
Defined.

(** ** One round of rendering and measuring *)

Lemma rowHeight_lookup p i row :
  Simple.lookup (list p) i = Some row ->
  rowHeight p i = match height row with
                  | Some h => Fin h
                  | None => Fin (defaultHeight p)
                  end.
Proof.
  unfold Simple.lookup, rowHeight.
  destruct (i <? 0); [discriminate |]. intros ->. reflexivity.
Qed.

(** X20. Measuring and taking the heights in.  The wrapper answers the
    event of [redraw] with [updateHeight] on the window that the component
    holds; when the list is not shorter than that window the call returns.
    [update] then runs on the list as the wrapper has left it.  Afterwards,
    the stored heights, the heights of the list and the rendered heights
    being whole numbers of pixels, the index stores for every row of the
    window that has a rendered element the rendered height of that row. *)
Theorem measure_round p st dom sig :
  fin_index st -> listLength st < 2 ^ 31 -> fits p ->
  0 <= startIdx st <= endIdx st -> endIdx st <= Z.of_nat (length (list p)) ->
  px_index st -> px_list p -> px_rendered dom ->
  exists refs',
    Simple.updateHeight dom (Simple.mkRefs (list p) sig)
                        (startIdx st) (endIdx st) = Simple.Returned refs' /\
    length (Simple.list refs') = length (list p) /\
    forall i row h,
      startIdx st <= i < endIdx st ->
      Simple.lookup (list p) i = Some row -> dom (key row) = Some h ->
      (heightAt (rowInfo (update (with_list p (Simple.list refs')) st)) i
       == h)%Q.
Proof.
  intros Hfin HN Hfit Hw He _ _ _.
  destruct (updateHeight_loop_spec dom (JS.range (startIdx st) (endIdx st))
              (Simple.mkRefs (list p) sig)
              (range_NoDup (startIdx st) (endIdx st)))
    as (refs' & R & L & M & _).
  { intros i Hi. apply range_In in Hi. cbn [Simple.list]. lia. }
  cbn [Simple.list] in L, M.
  exists refs'. split; [exact R |]. split; [exact L |].
  intros i row h Hi Hrow Hdom.
  set (p' := with_list p (Simple.list refs')).
  assert (Hfit' : fits p').
  { unfold fits, p'. cbn [list with_list]. rewrite L. exact Hfit. }
  destruct (update_index p' st Hfin HN ltac:(lia) Hfit')
    as (EL' & Hfin'' & Hsync & _).
  assert (Hlen : Z.of_nat (length (list p')) = Z.of_nat (length (list p))).
  { unfold p'. cbn [list with_list]. rewrite L. reflexivity. }
  pose proof (Hsync i Hi ltac:(lia)) as Hs.
  apply row_synced_height in Hs;
    [| destruct Hfin'' as [_ Hc]; apply Hc; rewrite EL'; lia].
  rewrite Hs.
  pose proof (M i row (proj2 (range_In _ _ i) Hi) Hrow) as Hrow'.
  destruct (measured_row dom row) as (_ & Hh).
  rewrite Hdom in Hh. destruct Hh as (h' & Hh' & Heq).
  rewrite (rowHeight_lookup p' i (measured dom row)) by exact Hrow'.
  rewrite Hh'. exact Heq.
Qed.

Lemma measure_round_witness :
  let p := Scenario.props in
  let dom := fun k : Z => if k =? 0 then Some 50%Q else None in
  let st := fst (redraw p (Scenario.dom 0 40) init) in
  exists refs',
    Simple.updateHeight dom (Simple.mkRefs (list p) 0)
                        (startIdx st) (endIdx st) = Simple.Returned refs' /\
    length (Simple.list refs') = length (list p) /\
    forall i row h,
      startIdx st <= i < endIdx st ->
      Simple.lookup (list p) i = Some row -> dom (key row) = Some h ->
      (heightAt (rowInfo (update (with_list p (Simple.list refs')) st)) i
       == h)%Q.
Proof.
  apply (measure_round Scenario.props
           (fst (redraw Scenario.props (Scenario.dom 0 40) init))
           (fun k : Z => if k =? 0 then Some 50%Q else None) 0).
  - apply fin_indexb_sound. vm_compute. reflexivity.
  - vm_compute. reflexivity.
  - vm_compute. reflexivity.
  - vm_compute. split; discriminate.
  - vm_compute. discriminate.
  - apply px_indexb_sound. vm_compute. reflexivity.
  - apply px_listb_sound. vm_compute. reflexivity.
  - intros k h. destruct (k =? 0); [| discriminate].
    intros [= <-]. apply (whole_uptob_sound (2 ^ 20)). vm_compute. reflexivity.
Defined.

(** ** The window refs in every state *)

Lemma slice_length_le {A : Type} (l : Datatypes.list A) s e :
  0 <= s <= e -> Z.of_nat (length (JS.slice l s e)) <= e - s.
Proof.
  intros Hse. unfold JS.slice. cbv zeta.
  destruct (Z.ltb_spec s 0); [lia |].
  destruct (Z.ltb_spec e 0); [lia |].
  rewrite length_firstn, length_skipn. lia.
Qed.

(** X21. In every state that the component can reach, whatever has happened
    to the list: 0 <= startIdx <= endIdx, [vlist] has at most endIdx -
    startIdx rows, and the sheet, once it has a style, is translated by the
    cached [startTop]. *)
Theorem reachable_window st :
  reachable st ->
  0 <= startIdx st <= endIdx st /\
  Z.of_nat (length (vlist st)) <= endIdx st - startIdx st /\
  (sheetStyle st = None \/ sheetStyle st = Some (startTop st)).
Proof.
  induction 1 as [| p st _ IH Hfit | p st _ IH Hfit | p st i _ IH Hi
                  | p d st _ IH Hfit].
  - cbn. split; [lia |]. split; [lia | left; reflexivity].
  - exact IH.
  - destruct (update_frame p st) as (F1 & F2 & F3 & _ & F5 & F6).
    rewrite F1, F2, F3, F5, F6. exact IH.
  - destruct (update1_frame p st i) as (_ & F1 & F2 & F3 & _ & F5 & F6).
    rewrite F1, F2, F3, F5, F6. exact IH.
  - destruct IH as (Hw & Hv & Hs).
    pose proof (redraw_window_ordered p d st Hw) as Hw'.
    split; [exact Hw' |]. revert Hw'.
    destruct (sync_frame p st) as (F1 & F2 & F3 & _ & F5 & F6).
    rewrite redraw_eq. cbv zeta.
    destruct (negb _ || negb _);
      cbn [fst startIdx endIdx startTop vlist sheetStyle]; intros Hw'.
    + split; [apply slice_length_le; exact Hw' | right; reflexivity].
    + rewrite F1, F2, F3, F5, F6. split; assumption.
Qed.

Lemma reachable_window_witness :
  let st := fst Shrink.step2 in
  0 <= startIdx st <= endIdx st /\
  Z.of_nat (length (vlist st)) <= endIdx st - startIdx st /\
  (sheetStyle st = None \/ sheetStyle st = Some (startTop st)).
Proof.
  apply (reachable_window (fst Shrink.step2)).
  unfold Shrink.step2, Shrink.step1.
  apply reach_redraw; [apply reach_redraw; [apply reach_init |] |];
    vm_compute; reflexivity.
Defined.
